(** * The keyword detector of detect-secrets

    A shallow embedding of [detect_secrets/plugins/keyword.py]: the pattern
    text built with [str.format], the compiled pattern families, the rule
    sets per file type and [KeywordDetector] with its three methods.

    The program is written against Python's [re] module, so the file starts
    with the part of [re] that the program uses: the pattern syntax
    ([re.compile]) and the backtracking matcher ([Pattern.search],
    [Match.group]). *)

From Stdlib Require Import NArith Ascii String List Bool Lia.
From stdpp Require Import base option list strings gmap.

(** ** Text *)

(** A Python [str] is a sequence of Unicode code points. *)
Abbreviation char := N (only parsing).
Abbreviation str := (list N) (only parsing).

(** [u "abc"] is the [str] with the characters of an ASCII literal.  The
    double quote cannot be written inside a literal and is spelled [DQ];
    [NTILDE] is the letter of the keyword [contraseña]. *)
Definition ch (a : ascii) : char := N_of_ascii a.
Definition u (s : string) : str := map ch (list_ascii_of_string s).
Definition DQ : char := 34%N.
Definition NTILDE : char := 241%N.
Definition LF : char := 10%N.

Definition str_eqb (a b : str) : bool := bool_decide (a = b).

(** [sep.join(parts)] *)
Fixpoint join (sep : str) (parts : list str) : str :=
  match parts with
  | [] => []
  | [p] => p
  | p :: rest => p ++ sep ++ join sep rest
  end.

(** [needle in haystack] for two [str]. *)
Fixpoint startswith (prefix s : str) : bool :=
  match prefix, s with
  | [], _ => true
  | _ :: _, [] => false
  | a :: prefix', b :: s' => (a =? b)%N && startswith prefix' s'
  end.

Fixpoint contains (needle haystack : str) : bool :=
  startswith needle haystack ||
  match haystack with
  | [] => false
  | _ :: rest => contains needle rest
  end.

(** [template.format(name=value, ...)] for templates whose replacement
    fields are plain names: [{name}] is replaced by the value bound to
    [name], [{{] and [}}] stand for one brace.  A field without a binding
    or a single brace is an error ([None]). *)
Definition kwargs := list (string * str).

Fixpoint kw_lookup (name : str) (kw : kwargs) : option str :=
  match kw with
  | [] => None
  | (n, v) :: rest => if str_eqb (u n) name then Some v else kw_lookup name rest
  end.

Fixpoint format_field (t : str) (name : str) : option (str * str) :=
  match t with
  | [] => None
  | c :: t' =>
      if (c =? ch "}")%N then Some (rev name, t')
      else format_field t' (c :: name)
  end.

Fixpoint format_aux (fuel : nat) (t : str) (kw : kwargs) : option str :=
  match fuel with
  | 0 => None
  | S fuel =>
      match t with
      | [] => Some []
      | c :: t' =>
          if (c =? ch "{")%N then
            match t' with
            | d :: t'' =>
                if (d =? ch "{")%N then cons c <$> format_aux fuel t'' kw
                else
                  match format_field t' [] with
                  | Some (name, rest) =>
                      match kw_lookup name kw with
                      | Some v => app v <$> format_aux fuel rest kw
                      | None => None
                      end
                  | None => None
                  end
            | [] => None
            end
          else if (c =? ch "}")%N then
            match t' with
            | d :: t'' =>
                if (d =? ch "}")%N then cons c <$> format_aux fuel t'' kw
                else None
            | [] => None
            end
          else cons c <$> format_aux fuel t' kw
      end
  end.

Definition format (t : str) (kw : kwargs) : option str :=
  format_aux (S (length t)) t kw.

(** ** The Unicode tables of the interpreter

    [str.lower] and the character classes of [re] are defined by the
    Unicode database of the Python interpreter, which is not part of the
    program.  The development takes them as a parameter. *)
Record Unicode := {
  str_lower : str -> str;       (* [str.lower()] *)
  sre_lower : char -> char;     (* lower-casing used by [re.IGNORECASE] *)
  is_word : char -> bool;       (* [\w] *)
  is_space : char -> bool;      (* [\s] *)
  is_digit : char -> bool;      (* [\d] *)
}.

(** The tables for Basic Latin and the Latin-1 Supplement (U+0000 to
    U+00FF), as CPython has them; code points above U+00FF are left
    untabulated (caseless, in no class).  On a text within this range the
    tables and the matcher below answer as CPython does; above it they do
    not: CPython lower-cases U+212A to [k] and U+0130 to [i] followed by
    U+0307, and under [re.IGNORECASE] lets U+0131 and U+017F pass for [i]
    and [s].  Every concrete line evaluated in this file lies within the
    range, and a property that depends on the case of letters or on a
    class of characters is stated for lines within it. *)
Module Latin1.
Definition between (lo x hi : N) : bool := ((lo <=? x) && (x <=? hi))%N.

Definition lower (c : char) : char :=
  if between 65 c 90 then (c + 32)%N
  else if between 192 c 222 && negb (c =? 215)%N then (c + 32)%N
  else c.

Definition word (c : char) : bool :=
  between 48 c 57 || between 65 c 90 || between 97 c 122 || (c =? 95)%N
  || (c =? 170)%N || (c =? 178)%N || (c =? 179)%N || (c =? 181)%N
  || (c =? 185)%N || (c =? 186)%N || between 188 c 190
  || between 192 c 214 || between 216 c 246 || between 248 c 255.

Definition space (c : char) : bool :=
  between 9 c 13 || between 28 c 32 || (c =? 133)%N || (c =? 160)%N.

Definition digit (c : char) : bool := between 48 c 57.

Definition tables : Unicode :=
  {| str_lower := map lower; sre_lower := lower;
     is_word := word; is_space := space; is_digit := digit |}.
End Latin1.

(** ** Patterns: the syntax tree of [re]

    The constructors follow the operators of CPython's pattern parser. *)
Inductive category := CATEGORY_WORD | CATEGORY_SPACE | CATEGORY_DIGIT.

Inductive set_item :=
| ItemLiteral (c : char)
| ItemRange (lo hi : char)
| ItemCategory (negated : bool) (cat : category).

Inductive position := AT_BEGINNING | AT_END | AT_BOUNDARY.

Inductive regex :=
| Empty
| Literal (c : char)
| Any                                                   (* [.] *)
| In (negate : bool) (items : list set_item)            (* [[...]], [\w] *)
| At (pos : position)                                   (* [^ $ \b] *)
| Seq (r1 r2 : regex)
| Branch (r1 r2 : regex)                                (* [r1|r2] *)
| Repeat (lo : nat) (hi : option nat) (greedy : bool) (r : regex)
| Subpattern (group : option nat) (r : regex)           (* [(r)], [(?:r)] *)
| GroupRef (group : nat)                                (* [\1] *)
| Assert (r : regex).                                   (* [(?=r)] *)

(** A compiled pattern, as [re.compile] returns it. *)
Record Pattern := {
  pattern : str;          (* [Pattern.pattern] *)
  ignorecase : bool;      (* [re.IGNORECASE] in [Pattern.flags] *)
  groups : nat;           (* [Pattern.groups] *)
  code : regex;
}.

(** ** [re.compile]: the pattern parser

    The syntax read is the one the program writes (and a little more, for
    exclusion patterns given by the user): literals, [.], [^], [$], sets
    with ranges and negation, the escapes [\w \W \s \S \d \D \b], the
    control escapes [\a \f \n \r \t \v], escaped punctuation, back
    references [\1] to [\9], groups, [(?:...)], [(?=...)], [|] and the
    quantifiers [* + ? {m} {m,n}] with their lazy forms.  This is a part
    of the syntax of [re], not all of it: inline flags such as [(?i)] and
    [(?-i:...)], look-behind, negative look-ahead, named groups, comments,
    the escapes [\A \Z \B] and [\xhh] and back references of two digits
    are not read.  The parser answers [None] for what it does not read as
    it does for what [re.compile] rejects; a property that depends on the
    parser's answer speaks of the texts it reads. *)
Module Parser.
Local Open Scope N_scope.

Definition is_digit_char (c : char) : bool := (48 <=? c) && (c <=? 57).
Definition is_ascii_letter (c : char) : bool :=
  ((65 <=? c) && (c <=? 90)) || ((97 <=? c) && (c <=? 122)).

(** Escapes that stand for one character, inside and outside a set. *)
Definition control_escape (c : char) : option char :=
  if c =? ch "a" then Some 7
  else if c =? ch "f" then Some 12
  else if c =? ch "n" then Some 10
  else if c =? ch "r" then Some 13
  else if c =? ch "t" then Some 9
  else if c =? ch "v" then Some 11
  else None.

Definition category_escape (c : char) : option set_item :=
  if c =? ch "w" then Some (ItemCategory false CATEGORY_WORD)
  else if c =? ch "W" then Some (ItemCategory true CATEGORY_WORD)
  else if c =? ch "s" then Some (ItemCategory false CATEGORY_SPACE)
  else if c =? ch "S" then Some (ItemCategory true CATEGORY_SPACE)
  else if c =? ch "d" then Some (ItemCategory false CATEGORY_DIGIT)
  else if c =? ch "D" then Some (ItemCategory true CATEGORY_DIGIT)
  else None.

(** One member of a set: a character, or an escape. *)
Definition class_item (c : char) (p : str) : option (set_item * str) :=
  if c =? ch "\" then
    match p with
    | [] => None
    | e :: p' =>
        match category_escape e, control_escape e with
        | Some it, _ => Some (it, p')
        | None, Some x => Some (ItemLiteral x, p')
        | None, None =>
            if e =? ch "b" then Some (ItemLiteral 8, p')
            else if is_digit_char e || is_ascii_letter e then None
            else Some (ItemLiteral e, p')
        end
    end
  else Some (ItemLiteral c, p).

(** The members of a set, after [[] and the optional [^]: a first []]
    is a member, [x-y] is a range, a [-] before the closing bracket is a
    member. *)
Fixpoint parse_set (fuel : nat) (first : bool) (p : str)
    (acc : list set_item) : option (list set_item * str) :=
  match fuel with
  | O => None
  | S fuel =>
      match p with
      | [] => None
      | c :: p1 =>
          if (c =? ch "]") && negb first then Some (rev acc, p1)
          else
            match class_item c p1 with
            | None => None
            | Some (code1, p2) =>
                match p2 with
                | [] => None
                | d :: p3 =>
                    if d =? ch "-" then
                      match p3 with
                      | [] => None
                      | e :: p4 =>
                          if e =? ch "]" then
                            Some (rev (ItemLiteral (ch "-") :: code1 :: acc), p4)
                          else
                            match class_item e p4 with
                            | Some (ItemLiteral hi, p5) =>
                                match code1 with
                                | ItemLiteral lo =>
                                    if hi <? lo then None
                                    else parse_set fuel false p5
                                           (ItemRange lo hi :: acc)
                                | _ => None
                                end
                            | _ => None
                            end
                      end
                    else parse_set fuel false p2 (code1 :: acc)
                end
            end
      end
  end.

(** An escape outside a set; [g] is the number of groups opened so far and
    [opened] lists the groups that are not closed yet: a back reference
    names a group that is closed. *)
Definition parse_escape (p : str) (g : nat) (opened : list nat)
    : option (regex * str) :=
  match p with
  | [] => None
  | e :: p' =>
      match category_escape e, control_escape e with
      | Some it, _ => Some (In false [it], p')
      | None, Some x => Some (Literal x, p')
      | None, None =>
          if e =? ch "b" then Some (At AT_BOUNDARY, p')
          else if is_digit_char e then
            let n := N.to_nat (e - 48) in
            let two_digits :=
              match p' with
              | d :: _ => is_digit_char d
              | [] => false
              end in
            if two_digits || (n =? 0)%nat || (g <? n)%nat
               || bool_decide (n ∈ opened)
            then None
            else Some (GroupRef n, p')
          else if is_ascii_letter e then None
          else Some (Literal e, p')
      end
  end.

(** Decimal digits at the head of the pattern. *)
Fixpoint digits (p : str) (acc : option nat) : option nat * str :=
  match p with
  | c :: p' =>
      if is_digit_char c
      then digits p' (Some (10 * default 0%nat acc + N.to_nat (c - 48))%nat)
      else (acc, p)
  | [] => (acc, p)
  end.

(** [{m}], [{m,}], [{,n}], [{m,n}] after the opening brace; a brace that
    opens none of them is an ordinary character. *)
Definition parse_braces (p : str) : option (nat * option nat * str) :=
  let '(lo, p1) := digits p None in
  match p1 with
  | c :: p2 =>
      if c =? ch "," then
        let '(hi, p3) := digits p2 None in
        match p3 with
        | d :: p4 => if d =? ch "}" then Some (default 0%nat lo, hi, p4) else None
        | [] => None
        end
      else if c =? ch "}" then
        match lo with
        | Some m => Some (m, Some m, p2)
        | None => None
        end
      else None
  | [] => None
  end.

Definition lazy_mark (p : str) : bool * str :=
  match p with
  | c :: p' => if c =? ch "?" then (false, p') else (true, p)
  | [] => (true, p)
  end.

(** The pattern goes on with a quantifier. *)
Definition starts_quantifier (p : str) : bool :=
  match p with
  | c :: p1 =>
      (c =? ch "*") || (c =? ch "+") || (c =? ch "?")
      || ((c =? ch "{") && bool_decide (is_Some (parse_braces p1)))
  | [] => false
  end.

(** The quantifier after an item, if there is one.  A position ([^], [$],
    [\b]) takes none, and a quantified item takes no second one. *)
Definition parse_quantifier (item : regex) (p : str) : option (regex * str) :=
  if negb (starts_quantifier p) then Some (item, p)
  else if (match item with At _ => true | _ => false end) then None
  else
    match p with
    | c :: p1 =>
        let quantified :=
          if c =? ch "*" then Some (0%nat, None, p1)
          else if c =? ch "+" then Some (1%nat, None, p1)
          else if c =? ch "?" then Some (0%nat, Some 1%nat, p1)
          else parse_braces p1 in
        match quantified with
        | Some (lo, hi, p2) =>
            if (match hi with Some h => h <? lo | None => false end)%nat then None
            else
              let '(greedy, p3) := lazy_mark p2 in
              if starts_quantifier p3 then None
              else Some (Repeat lo hi greedy item, p3)
        | None => None
        end
    | [] => None
    end.

(** Alternatives, sequences and items.  Groups are numbered by their
    opening parenthesis, from 1; the state carries the pattern that is
    left, the number of groups opened so far and the groups still open. *)
Fixpoint parse_branch (fuel : nat) (p : str) (g : nat) (opened : list nat)
    : option (regex * str * nat) :=
  match fuel with
  | O => None
  | S fuel =>
      match parse_seq fuel p g opened with
      | Some (r1, c :: p1, g1) =>
          if c =? ch "|" then
            match parse_branch fuel p1 g1 opened with
            | Some (r2, p2, g2) => Some (Branch r1 r2, p2, g2)
            | None => None
            end
          else Some (r1, c :: p1, g1)
      | other => other
      end
  end
with parse_seq (fuel : nat) (p : str) (g : nat) (opened : list nat)
    : option (regex * str * nat) :=
  match fuel with
  | O => None
  | S fuel =>
      match p with
      | [] => Some (Empty, p, g)
      | c :: p' =>
          if (c =? ch "|") || (c =? ch ")") then Some (Empty, p, g)
          else
            match parse_item fuel c p' g opened with
            | Some (item, p1, g1) =>
                match parse_quantifier item p1 with
                | Some (q, p2) =>
                    match parse_seq fuel p2 g1 opened with
                    | Some (r, p3, g3) => Some (Seq q r, p3, g3)
                    | None => None
                    end
                | None => None
                end
            | None => None
            end
      end
  end
with parse_item (fuel : nat) (c : char) (p : str) (g : nat)
    (opened : list nat) : option (regex * str * nat) :=
  match fuel with
  | O => None
  | S fuel =>
      if c =? ch "(" then
        match p with
        | [] => None
        | q :: p1 =>
            if q =? ch "?" then
              match p1 with
              | e :: p2 =>
                  if (e =? ch "=") || (e =? ch ":") then
                    match parse_branch fuel p2 g opened with
                    | Some (r, d :: p3, g1) =>
                        if d =? ch ")" then
                          Some (if e =? ch "=" then Assert r else Subpattern None r,
                                p3, g1)
                        else None
                    | _ => None
                    end
                  else None
              | [] => None
              end
            else
              match parse_branch fuel p (S g) (S g :: opened) with
              | Some (r, d :: p3, g1) =>
                  if d =? ch ")" then Some (Subpattern (Some (S g)) r, p3, g1)
                  else None
              | _ => None
              end
        end
      else if c =? ch "[" then
        let '(negate, p1) :=
          match p with
          | d :: p' => if d =? ch "^" then (true, p') else (false, p)
          | [] => (false, p)
          end in
        match parse_set (S (length p1)) true p1 [] with
        | Some (items, p2) => Some (In negate items, p2, g)
        | None => None
        end
      else if c =? ch "\" then
        match parse_escape p g opened with
        | Some (r, p1) => Some (r, p1, g)
        | None => None
        end
      else if c =? ch "." then Some (Any, p, g)
      else if c =? ch "^" then Some (At AT_BEGINNING, p, g)
      else if c =? ch "$" then Some (At AT_END, p, g)
      else if (c =? ch "*") || (c =? ch "+") || (c =? ch "?") then None
      else Some (Literal c, p, g)
  end.
End Parser.

(** [re.compile(pattern, flags)] on the syntax that the parser reads;
    [None] stands for [re.error] and for a text outside that syntax. *)
Definition re_compile (p : str) (flags : bool) : option Pattern :=
  match Parser.parse_branch (4 * length p + 4) p 0 [] with
  | Some (r, [], g) =>
      Some {| pattern := p; ignorecase := flags; groups := g; code := r |}
  | _ => None
  end.

Definition IGNORECASE : bool := true.
Definition NOFLAG : bool := false.

(** ** [Pattern.search]: the backtracking matcher

    The matcher works as CPython's does: it walks the pattern from left to
    right over the text, takes the first alternative and the longest (or,
    for a lazy quantifier, the shortest) repetition first, and comes back
    to the last choice when the rest of the pattern fails.  The rest of the
    pattern is the continuation [k]; the marks record the span of every
    group that has matched. *)
Definition marks := list (nat * (nat * nat)).
Definition cont := nat -> marks -> option (nat * marks).

Fixpoint get_mark (g : nat) (mk : marks) : option (nat * nat) :=
  match mk with
  | [] => None
  | (g', span) :: rest => if (g' =? g)%nat then Some span else get_mark g rest
  end.

Definition set_mark (group : option nat) (span : nat * nat) (mk : marks) : marks :=
  match group with
  | Some g => (g, span) :: mk
  | None => mk
  end.

(** [s[a:b]] *)
Definition slice (s : str) (a b : nat) : str := take (b - a) (drop a s).

(** The code points from [lo] to [hi]. *)
Definition char_range (lo hi : char) : list char :=
  map N.of_nat (seq (N.to_nat lo) (N.to_nat (hi + 1 - lo))).

Section Repeat.
Variable body : nat -> marks -> cont -> option (nat * marks).

(** The [lo] repetitions a quantifier demands. *)
Fixpoint repeat_min (lo : nat) (i : nat) (mk : marks) (k : cont)
    : option (nat * marks) :=
  match lo with
  | O => k i mk
  | S lo' => body i mk (fun j mk' => repeat_min lo' j mk' k)
  end.

(** Up to [n] further repetitions.  [last] is where the previous one
    started: a repetition that matched the empty text is not followed by
    another one at the same place. *)
Fixpoint repeat_more (greedy : bool) (n : nat) (last : option nat)
    (i : nat) (mk : marks) (k : cont) : option (nat * marks) :=
  match n with
  | O => k i mk
  | S n' =>
      let again :=
        if bool_decide (last = Some i) then None
        else body i mk (fun j mk' => repeat_more greedy n' (Some i) j mk' k) in
      if greedy then
        match again with
        | Some res => Some res
        | None => k i mk
        end
      else
        match k i mk with
        | Some res => Some res
        | None => again
        end
  end.
End Repeat.

Section Matcher.
Context (U : Unicode).
Variable flag_i : bool.     (* the pattern was compiled with IGNORECASE *)
Variable string : str.      (* the text searched *)

(** A character of the pattern against a character of the text.  Under
    IGNORECASE CPython has, besides the lower-casing, a table of case
    fixes by which a few characters above U+00FF pass for Latin-1 letters
    (U+0131 for [i], U+017F for [s]); the model leaves it out, whatever
    the tables. *)
Definition char_eq (c x : char) : bool :=
  if flag_i then (sre_lower U x =? sre_lower U c)%N else (x =? c)%N.

Definition in_category (cat : category) (x : char) : bool :=
  match cat with
  | CATEGORY_WORD => is_word U x
  | CATEGORY_SPACE => is_space U x
  | CATEGORY_DIGIT => is_digit U x
  end.

Definition item_match (x : char) (it : set_item) : bool :=
  match it with
  | ItemLiteral c => char_eq c x
  | ItemRange lo hi =>
      if flag_i then existsb (fun y => char_eq y x) (char_range lo hi)
      else ((lo <=? x) && (x <=? hi))%N
  | ItemCategory negated cat => xorb negated (in_category cat x)
  end.

Definition word_at (i : nat) : bool :=
  match string !! i with
  | Some x => is_word U x
  | None => false
  end.

Definition at_position (pos : position) (i : nat) : bool :=
  let before := match i with O => false | S i' => word_at i' end in
  match pos with
  | AT_BEGINNING => (i =? 0)%nat
  | AT_END =>
      (i =? length string)%nat
      || ((S i =? length string)%nat && bool_decide (string !! i = Some LF))
  | AT_BOUNDARY => xorb before (word_at i)
  end.

(** The text of a group, again, at [i]. *)
Fixpoint same_text (a i n : nat) : bool :=
  match n with
  | O => true
  | S n' =>
      match string !! a, string !! i with
      | Some x, Some y => char_eq x y && same_text (S a) (S i) n'
      | _, _ => false
      end
  end.

Definition one_char (test : char -> bool) (i : nat) (mk : marks) (k : cont)
    : option (nat * marks) :=
  match string !! i with
  | Some x => if test x then k (S i) mk else None
  | None => None
  end.

Fixpoint sre_match (r : regex) (i : nat) (mk : marks) (k : cont)
    : option (nat * marks) :=
  match r with
  | Empty => k i mk
  | Literal c => one_char (char_eq c) i mk k
  | Any => one_char (fun x => negb (x =? LF)%N) i mk k
  | In negate items =>
      one_char (fun x => xorb negate (existsb (item_match x) items)) i mk k
  | At pos => if at_position pos i then k i mk else None
  | Seq r1 r2 => sre_match r1 i mk (fun j mk' => sre_match r2 j mk' k)
  | Branch r1 r2 =>
      match sre_match r1 i mk k with
      | Some res => Some res
      | None => sre_match r2 i mk k
      end
  | Repeat lo hi greedy r1 =>
      repeat_min (sre_match r1) lo i mk (fun j mk' =>
        let n := match hi with
                 | Some h => h - lo
                 | None => S (length string - j)
                 end in
        repeat_more (sre_match r1) greedy n None j mk' k)
  | Subpattern g r1 =>
      sre_match r1 i mk (fun j mk' => k j (set_mark g (i, j) mk'))
  | GroupRef g =>
      match get_mark g mk with
      | Some (a, b) =>
          if same_text a i (b - a) then k (i + (b - a)) mk else None
      | None => None
      end
  | Assert r1 =>
      match sre_match r1 i mk (fun j mk' => Some (j, mk')) with
      | Some (_, mk') => k i mk'
      | None => None
      end
  end.

(** The leftmost start from which the pattern matches. *)
Fixpoint search_from (r : regex) (start : nat) (tries : nat)
    : option (nat * nat * marks) :=
  match tries with
  | O => None
  | S tries' =>
      match sre_match r start [] (fun j mk => Some (j, mk)) with
      | Some (j, mk) => Some (start, j, mk)
      | None => search_from r (S start) tries'
      end
  end.

(** *** What a successful match looks like

    [run r i mk j mk'] describes one way in which [r] matches the text from
    [i] to [j] and takes the marks from [mk] to [mk']: the answer of the
    matcher is always such a run ([sre_match_sound] below).  The counts and
    the order of the choices play no part in it. *)
Inductive iter (step : nat -> marks -> nat -> marks -> Prop)
    : nat -> marks -> nat -> marks -> Prop :=
| iter_stop i mk : iter step i mk i mk
| iter_step i mk j mk' k mk'' :
    step i mk j mk' -> iter step j mk' k mk'' -> iter step i mk k mk''.

Definition run_char (test : char -> bool) (i : nat) (mk : marks)
    (j : nat) (mk' : marks) : Prop :=
  (exists x, string !! i = Some x /\ test x = true) /\ j = S i /\ mk' = mk.

Fixpoint run (r : regex) (i : nat) (mk : marks) (j : nat) (mk' : marks) : Prop :=
  match r with
  | Empty => j = i /\ mk' = mk
  | Literal c => run_char (char_eq c) i mk j mk'
  | Any => run_char (fun x => negb (x =? LF)%N) i mk j mk'
  | In negate items =>
      run_char (fun x => xorb negate (existsb (item_match x) items)) i mk j mk'
  | At pos => at_position pos i = true /\ j = i /\ mk' = mk
  | Seq r1 r2 => exists m mkm, run r1 i mk m mkm /\ run r2 m mkm j mk'
  | Branch r1 r2 => run r1 i mk j mk' \/ run r2 i mk j mk'
  | Repeat _ _ _ r1 => iter (run r1) i mk j mk'
  | Subpattern g r1 =>
      exists mk1, run r1 i mk j mk1 /\ mk' = set_mark g (i, j) mk1
  | GroupRef g =>
      exists a b, get_mark g mk = Some (a, b)
                  /\ same_text a i (b - a) = true
                  /\ j = i + (b - a) /\ mk' = mk
  | Assert r1 => exists m, run r1 i mk m mk' /\ j = i
  end.

(** A run of the items of a sequence, one after the other. *)
Fixpoint run_all (rs : list regex) (i : nat) (mk : marks) (j : nat)
    (mk' : marks) : Prop :=
  match rs with
  | [] => j = i /\ mk' = mk
  | r :: rest => exists m mkm, run r i mk m mkm /\ run_all rest m mkm j mk'
  end.
End Matcher.

(** A match object. *)
Record Match := {
  m_re : Pattern;
  m_string : str;
  m_span : nat * nat;
  m_marks : marks;
}.

Inductive exn := IndexError | ReError.

(** [pattern.search(string)]: the match, or [None]. *)
Definition search (U : Unicode) (p : Pattern) (string : str) : option Match :=
  match search_from U (ignorecase p) string (code p) 0 (S (length string)) with
  | Some (i, j, mk) =>
      Some {| m_re := p; m_string := string; m_span := (i, j); m_marks := mk |}
  | None => None
  end.

(** [match.group(n)]: the text of group [n], [None] for a group that took
    no part in the match, [IndexError] for a group the pattern has not. *)
Definition group (m : Match) (n : nat) : exn + option str :=
  if (groups (m_re m) <? n)%nat then inl IndexError
  else match n with
       | O => inr (Some (slice (m_string m) (m_span m).1 (m_span m).2))
       | _ => inr ((fun '(a, b) => slice (m_string m) a b) <$> get_mark n (m_marks m))
       end.

(** ** Python dictionaries that are walked in insertion order *)
Section Dict.
Context {K V : Type} `{EqDecision K}.

(** [d[k] = v]: a key that is present keeps its place. *)
Fixpoint dict_set (d : list (K * V)) (k : K) (v : V) : list (K * V) :=
  match d with
  | [] => [(k, v)]
  | (k', v') :: rest =>
      if decide (k' = k) then (k', v) :: rest else (k', v') :: dict_set rest k v
  end.

(** A dictionary display [{k1: v1, ..., **d, ...}], items from left to right. *)
Definition dict_of (items : list (K * V)) : list (K * V) :=
  fold_left (fun d kv => dict_set d kv.1 kv.2) items [].

(** [d.get(k, default)] *)
Fixpoint dict_get (d : list (K * V)) (k : K) (default : V) : V :=
  match d with
  | [] => default
  | (k', v) :: rest => if decide (k' = k) then v else dict_get rest k default
  end.
End Dict.

#[global] Instance category_eq_dec : EqDecision category.
Proof. solve_decision. Defined.
#[global] Instance set_item_eq_dec : EqDecision set_item.
Proof. solve_decision. Defined.
#[global] Instance position_eq_dec : EqDecision position.
Proof. solve_decision. Defined.
#[global] Instance regex_eq_dec : EqDecision regex.
Proof. solve_decision. Defined.
#[global] Instance Pattern_eq_dec : EqDecision Pattern.
Proof. solve_decision. Defined.

(** ** The module [detect_secrets/plugins/keyword.py] *)

(** A module-level [str.format] or [re.compile] that raised would stop the
    import; [module_loads] below shows that none does, so the fallback
    values are never used. *)
Definition never : Pattern :=
  {| pattern := []; ignorecase := false; groups := 0; code := In false [] |}.
Definition fmt (t : str) (kw : kwargs) : str := default [] (format t kw).
Definition compile (p : str) (flags : bool) : Pattern :=
  default never (re_compile p flags).

Definition Q : str := [DQ].            (* the double quote *)
Definition BSQ : str := [92%N; DQ].    (* a backslash and the double quote *)

Definition DENYLIST : list str := [
  u "api[_\.\-]?key";
  u "auth_?key";
  u "service_?key";
  u "account_?key";
  u "db_?key";
  u "database_?key";
  u "priv_?key";
  u "private_?key";
  u "client_?key";
  u "db_?pass";
  u "database_?pass";
  u "key_?pass";
  u "password";
  u "passwd";
  u "token";
  u "_pass\b";
  u "pwd";
  u "secret";
  u "contrase" ++ [NTILDE] ++ u "a";
  u "contrasena";
  u "recaptcha_.*key";
  u "nessus_?key"
].

Definition ALLOWLIST : list str := [
  u "publickeytoken";
  u "tokenendpoint";
  u "secretname";
  u "keyvaultsecretname";
  u "maxInvalidPasswordAttempts";
  u "PasswordType";
  u "forwardWindowsAuthToken";
  u "saveBootstrapTokens";
  u "AntiXsrfTokenKey";
  u "savePWD";
  u "userPWD";
  u "example"
].

Definition CLOSING : str := u "[]\'" ++ Q ++ u "]{0,2}".
Definition AFFIX_REGEX : str := u "\w*".
Definition DENYLIST_REGEX_0 : str := join (u "|") DENYLIST.
Definition DENYLIST_REGEX : str :=
  fmt (u "({denylist}){suffix}")
      [("denylist", DENYLIST_REGEX_0); ("suffix", AFFIX_REGEX)].
Definition DENYLIST_REGEX_WITH_PREFIX : str :=
  fmt (u "{prefix}{denylist}")
      [("prefix", AFFIX_REGEX); ("denylist", DENYLIST_REGEX)].
Definition OPTIONAL_WHITESPACE : str := u "\s*".
Definition OPTIONAL_NON_WHITESPACE : str := u "[^\s]{0,50}?".
Definition QUOTE : str := u "[\'" ++ Q ++ u "`]".
Definition SECRET : str :=
  u "(?=[^\v\'" ++ BSQ ++ u "]*)(?=[a-zA-Z0-9_!@#%^&])[^\v\'" ++ BSQ
    ++ u "]*[^\v,\'" ++ BSQ ++ u "`]".
Definition SQUARE_BRACKETS : str := u "(\[[0-9]*\])".

Definition FOLLOWED_BY_COLON_EQUAL_SIGNS_REGEX : Pattern :=
  compile
    (fmt (u "{denylist}({closing})?{whitespace}:=?{whitespace}({quote}?)({secret})(\3)")
       [("denylist", DENYLIST_REGEX); ("closing", CLOSING); ("quote", QUOTE);
        ("whitespace", OPTIONAL_WHITESPACE); ("secret", SECRET)])
    IGNORECASE.

Definition FOLLOWED_BY_COLON_REGEX : Pattern :=
  compile
    (fmt (u "{denylist}({closing})?:{whitespace}({quote}?)({secret})(\3)")
       [("denylist", DENYLIST_REGEX); ("closing", CLOSING); ("quote", QUOTE);
        ("whitespace", OPTIONAL_WHITESPACE); ("secret", SECRET)])
    IGNORECASE.

Definition FOLLOWED_BY_COLON_QUOTES_REQUIRED_REGEX : Pattern :=
  compile
    (fmt (u "{denylist}({closing})?:({whitespace})({quote})({secret})(\4)")
       [("denylist", DENYLIST_REGEX); ("closing", CLOSING); ("quote", QUOTE);
        ("whitespace", OPTIONAL_WHITESPACE); ("secret", SECRET)])
    IGNORECASE.

Definition FOLLOWED_BY_EQUAL_SIGNS_OPTIONAL_BRACKETS_OPTIONAL_AT_SIGN_QUOTES_REQUIRED_REGEX
  : Pattern :=
  compile
    (fmt (u "{denylist}({square_brackets})?{optional_whitespace}[!=]{{1,2}}{optional_whitespace}(@)?("
            ++ Q ++ u ")({secret})(\5)")
       [("denylist", DENYLIST_REGEX); ("square_brackets", SQUARE_BRACKETS);
        ("optional_whitespace", OPTIONAL_WHITESPACE); ("secret", SECRET)])
    IGNORECASE.

Definition FOLLOWED_BY_OPTIONAL_ASSIGN_QUOTES_REQUIRED_REGEX : Pattern :=
  compile
    (fmt (u "{denylist}(.assign)?\((" ++ Q ++ u ")({secret})(\3)")
       [("denylist", DENYLIST_REGEX); ("secret", SECRET)])
    NOFLAG.

Definition FOLLOWED_BY_EQUAL_SIGNS_REGEX : Pattern :=
  compile
    (fmt (u "{denylist}({closing})?{whitespace}(={{1,3}}|!==?){whitespace}({quote}?)({secret})(\4)")
       [("denylist", DENYLIST_REGEX); ("closing", CLOSING); ("quote", QUOTE);
        ("whitespace", OPTIONAL_WHITESPACE); ("secret", SECRET)])
    IGNORECASE.

Definition FOLLOWED_BY_EQUAL_SIGNS_QUOTES_REQUIRED_REGEX : Pattern :=
  compile
    (fmt (u "{denylist}({closing})?{whitespace}(={{1,3}}|!==?){whitespace}({quote})({secret})(\4)")
       [("denylist", DENYLIST_REGEX); ("closing", CLOSING); ("quote", QUOTE);
        ("whitespace", OPTIONAL_WHITESPACE); ("secret", SECRET)])
    IGNORECASE.

Definition PRECEDED_BY_EQUAL_COMPARISON_SIGNS_QUOTES_REQUIRED_REGEX : Pattern :=
  compile
    (fmt (u "({quote})({secret})(\1){whitespace}[!=]{{2,3}}{whitespace}{denylist}")
       [("denylist", DENYLIST_REGEX_WITH_PREFIX); ("quote", QUOTE);
        ("whitespace", OPTIONAL_WHITESPACE); ("secret", SECRET)])
    NOFLAG.

Definition FOLLOWED_BY_QUOTES_AND_SEMICOLON_REGEX : Pattern :=
  compile
    (fmt (u "{denylist}{nonWhitespace}{whitespace}({quote})({secret})(\2);")
       [("denylist", DENYLIST_REGEX); ("nonWhitespace", OPTIONAL_NON_WHITESPACE);
        ("quote", QUOTE); ("whitespace", OPTIONAL_WHITESPACE); ("secret", SECRET)])
    IGNORECASE.

Definition FOLLOWED_BY_ARROW_FUNCTION_SIGN_QUOTES_REQUIRED_REGEX : Pattern :=
  compile
    (fmt (u "{denylist}({closing})?{whitespace}=>?{whitespace}({quote})({secret})(\3)")
       [("denylist", DENYLIST_REGEX); ("closing", CLOSING); ("quote", QUOTE);
        ("whitespace", OPTIONAL_WHITESPACE); ("secret", SECRET)])
    IGNORECASE.

Definition DATA_PUT_PASSWORD_REGEX : Pattern :=
  compile
    (fmt (u "data\.put\({whitespace}{quote}{denylist}{quote}{whitespace},{whitespace}{quote}({secret}){quote}{whitespace}\)")
       [("denylist", DENYLIST_REGEX_WITH_PREFIX); ("quote", QUOTE);
        ("whitespace", OPTIONAL_WHITESPACE); ("secret", SECRET)])
    IGNORECASE.

(** A rule set: [Dict[Pattern, int]], from a pattern family to the number
    of the group that holds the secret. *)
Abbreviation rule_set := (list (Pattern * nat)) (only parsing).

Definition CONFIG_DENYLIST_REGEX_TO_GROUP : rule_set := dict_of [
  (FOLLOWED_BY_COLON_REGEX, 4);
  (PRECEDED_BY_EQUAL_COMPARISON_SIGNS_QUOTES_REQUIRED_REGEX, 2);
  (FOLLOWED_BY_EQUAL_SIGNS_REGEX, 5);
  (FOLLOWED_BY_QUOTES_AND_SEMICOLON_REGEX, 3)
].
Definition GOLANG_DENYLIST_REGEX_TO_GROUP : rule_set := dict_of [
  (FOLLOWED_BY_COLON_EQUAL_SIGNS_REGEX, 4);
  (PRECEDED_BY_EQUAL_COMPARISON_SIGNS_QUOTES_REQUIRED_REGEX, 2);
  (FOLLOWED_BY_EQUAL_SIGNS_REGEX, 5);
  (FOLLOWED_BY_QUOTES_AND_SEMICOLON_REGEX, 3)
].
Definition COMMON_C_DENYLIST_REGEX_TO_GROUP : rule_set := dict_of [
  (FOLLOWED_BY_EQUAL_SIGNS_OPTIONAL_BRACKETS_OPTIONAL_AT_SIGN_QUOTES_REQUIRED_REGEX, 6)
].
Definition C_PLUS_PLUS_REGEX_TO_GROUP : rule_set := dict_of [
  (FOLLOWED_BY_OPTIONAL_ASSIGN_QUOTES_REQUIRED_REGEX, 4);
  (FOLLOWED_BY_EQUAL_SIGNS_QUOTES_REQUIRED_REGEX, 5)
].
Definition QUOTES_REQUIRED_DENYLIST_REGEX_TO_GROUP : rule_set := dict_of [
  (FOLLOWED_BY_COLON_QUOTES_REQUIRED_REGEX, 5);
  (PRECEDED_BY_EQUAL_COMPARISON_SIGNS_QUOTES_REQUIRED_REGEX, 2);
  (FOLLOWED_BY_EQUAL_SIGNS_QUOTES_REQUIRED_REGEX, 5);
  (FOLLOWED_BY_QUOTES_AND_SEMICOLON_REGEX, 3);
  (FOLLOWED_BY_ARROW_FUNCTION_SIGN_QUOTES_REQUIRED_REGEX, 4);
  (DATA_PUT_PASSWORD_REGEX, 2)
].
Definition TERRAFORM_DENYLIST_REGEX_TO_GROUP : rule_set := dict_of (
  QUOTES_REQUIRED_DENYLIST_REGEX_TO_GROUP ++ [
  (FOLLOWED_BY_EQUAL_SIGNS_REGEX, 5)
]).

(** Modelled from the spec: the [FileType] enumeration of
    [detect_secrets/util/filetype.py], which is not among these sources.
    Section 6 of the specification names the categories; [OTHER] stands
    for any further category the classifier may know. *)
Inductive FileType :=
| GO | OBJECTIVE_C | C_SHARP | C | C_PLUS_PLUS | CLS | JAVA | JAVASCRIPT
| PYTHON | SWIFT | TERRAFORM | JSON | YAML | CONFIG | INI | PROPERTIES
| TOML | UNKNOWN
| OTHER (name : string).

#[global] Instance FileType_eq_dec : EqDecision FileType.
Proof. solve_decision. Defined.

Definition REGEX_BY_FILETYPE : list (FileType * rule_set) := dict_of [
  (GO, GOLANG_DENYLIST_REGEX_TO_GROUP);
  (OBJECTIVE_C, COMMON_C_DENYLIST_REGEX_TO_GROUP);
  (C_SHARP, COMMON_C_DENYLIST_REGEX_TO_GROUP);
  (C, COMMON_C_DENYLIST_REGEX_TO_GROUP);
  (C_PLUS_PLUS, C_PLUS_PLUS_REGEX_TO_GROUP);
  (CLS, QUOTES_REQUIRED_DENYLIST_REGEX_TO_GROUP);
  (JAVA, QUOTES_REQUIRED_DENYLIST_REGEX_TO_GROUP);
  (JAVASCRIPT, QUOTES_REQUIRED_DENYLIST_REGEX_TO_GROUP);
  (PYTHON, QUOTES_REQUIRED_DENYLIST_REGEX_TO_GROUP);
  (SWIFT, QUOTES_REQUIRED_DENYLIST_REGEX_TO_GROUP);
  (TERRAFORM, TERRAFORM_DENYLIST_REGEX_TO_GROUP);
  (JSON, QUOTES_REQUIRED_DENYLIST_REGEX_TO_GROUP);
  (YAML, CONFIG_DENYLIST_REGEX_TO_GROUP);
  (CONFIG, CONFIG_DENYLIST_REGEX_TO_GROUP);
  (INI, CONFIG_DENYLIST_REGEX_TO_GROUP);
  (PROPERTIES, CONFIG_DENYLIST_REGEX_TO_GROUP);
  (TOML, CONFIG_DENYLIST_REGEX_TO_GROUP)
].

(** What a generator does when it is run to its end: the values it yields,
    then a normal return or an exception. *)
Inductive generator :=
| Return
| Yield (value : option str) (rest : generator)
| Raise (e : exn).

(** [list(gen)], when the generator raises nothing. *)
Fixpoint yielded (g : generator) : list (option str) :=
  match g with
  | Return => []
  | Yield v rest => v :: yielded rest
  | Raise _ => []
  end.

(** Modelled from the spec: a Potential Secret, the result entity of
    [detect_secrets/core/potential_secret.py], which is not among these
    sources: detector type, filename, line number and the candidate value.
    Two of them are the same finding when type, filename and value agree
    (section 3). *)
Record PotentialSecret := {
  ps_type : str;
  ps_filename : str;
  ps_secret : option str;
  ps_line_number : Z;
}.

Definition same_secret (a b : PotentialSecret) : bool :=
  bool_decide (ps_type a = ps_type b /\ ps_filename a = ps_filename b
               /\ ps_secret a = ps_secret b).

(** [output.add(x)] on a set kept as a list without repeated findings. *)
Definition set_add (output : list PotentialSecret) (x : PotentialSecret)
    : list PotentialSecret :=
  if existsb (same_secret x) output then output else output ++ [x].

(** The detector object: its only attribute. *)
Record KeywordDetector := { keyword_exclude : option Pattern }.

Definition secret_type : str := u "Secret Keyword".

Section Detector.
Context (U : Unicode).
(** The file-type classifier [determine_file_type] and the entries that
    [BasePlugin.json] contributes are defined outside these sources. *)
Variable determine_file_type : str -> FileType.
Variable BasePlugin_json : gmap string str.

(** [KeywordDetector(keyword_exclude)], with [re.compile] as a parameter:
    [compile text flags] is [None] where [re.compile] raises [re.error].
    The constructor looks at nothing but that answer, so what is proved
    of it for every [compile] holds for every exclusion text, whatever
    syntax of [re] it is written in. *)
Definition __init__with (compile : str -> bool -> option Pattern)
    (keyword_exclude : option str) : exn + KeywordDetector :=
  match keyword_exclude with
  | Some (c :: text) =>
      match compile (c :: text) IGNORECASE with
      | Some p => inr {| keyword_exclude := Some p |}
      | None => inl ReError
      end
  | Some [] | None => inr {| keyword_exclude := None |}
  end.

(** [KeywordDetector(keyword_exclude)] over the pattern parser above;
    [inl ReError] when the parser has no answer for the exclusion text. *)
Definition __init__ (keyword_exclude : option str) : exn + KeywordDetector :=
  match keyword_exclude with
  | Some (c :: text) =>
      match re_compile (c :: text) IGNORECASE with
      | Some p => inr {| keyword_exclude := Some p |}
      | None => inl ReError
      end
  | Some [] | None => inr {| keyword_exclude := None |}
  end.

(** The inner [for] loop of [analyze_string], over the items of one rule
    set; [after] is the code that follows the loop. *)
Fixpoint for_items (string : str) (items : rule_set) (has_results : bool)
    (after : bool -> generator) : generator :=
  match items with
  | [] => after has_results
  | (denylist_regex, group_number) :: rest =>
      match search U denylist_regex string with
      | Some m =>
          match group m group_number with
          | inr value => Yield value (for_items string rest true after)
          | inl e => Raise e
          end
      | None => for_items string rest has_results after
      end
  end.

(** The outer [for] loop, over the rule sets to try. *)
Fixpoint for_attempts (string : str) (attempts : list rule_set)
    (has_results : bool) : generator :=
  match attempts with
  | [] => Return
  | denylist_regex_to_group :: rest =>
      for_items string denylist_regex_to_group has_results
        (fun has_results =>
           if has_results then Return      (* break *)
           else for_attempts string rest has_results)
  end.

Definition allowlisted (string : str) : bool :=
  existsb (fun allowed => contains (str_lower U allowed) (str_lower U string))
          ALLOWLIST.

Definition excluded (self : KeywordDetector) (string : str) : bool :=
  match keyword_exclude self with
  | Some p => bool_decide (is_Some (search U p string))
  | None => false
  end.

Definition analyze_string (self : KeywordDetector) (string : str)
    (denylist_regex_to_group : option rule_set) : generator :=
  if allowlisted string then Return
  else if excluded self string then Return
  else
    let attempts :=
      match denylist_regex_to_group with
      | None => [QUOTES_REQUIRED_DENYLIST_REGEX_TO_GROUP]
      | Some d => [d]
      end in
    for_attempts string attempts false.

(** Modelled from the spec: [BasePlugin.analyze_line] of
    [detect_secrets/plugins/base.py], which is not among these sources
    (section 4.4): it runs [analyze_string] on the line with the keyword
    arguments it was given and wraps every candidate into a Potential
    Secret tagged with the detector's type, the filename and the line
    number; the result is a set.  [analyze_line] hands [context] and
    [raw_context] on to the base class untouched; the model is a call on
    one line, with both at their default [None]. *)
Fixpoint wrap_all (filename : str) (line_number : Z) (g : generator)
    (output : list PotentialSecret) : exn + list PotentialSecret :=
  match g with
  | Return => inr output
  | Yield value rest =>
      wrap_all filename line_number rest
        (set_add output {| ps_type := secret_type; ps_filename := filename;
                           ps_secret := value; ps_line_number := line_number |})
  | Raise e => inl e
  end.

Definition BasePlugin_analyze_line (self : KeywordDetector) (filename line : str)
    (line_number : Z) (denylist_regex_to_group : option rule_set)
    : exn + list PotentialSecret :=
  wrap_all filename line_number
    (analyze_string self line denylist_regex_to_group) [].

Definition analyze_line (self : KeywordDetector) (filename line : str)
    (line_number : Z) : exn + list PotentialSecret :=
  let filetype := determine_file_type filename in
  let denylist_regex_to_group :=
    dict_get REGEX_BY_FILETYPE filetype QUOTES_REQUIRED_DENYLIST_REGEX_TO_GROUP in
  BasePlugin_analyze_line self filename line line_number
    (Some denylist_regex_to_group).

(** [json()]: the entry of this class, then the entries of the base class
    (a later entry of a dictionary display replaces an earlier one). *)
Definition json (self : KeywordDetector) : gmap string str :=
  BasePlugin_json ∪
  {[ "keyword_exclude"%string :=
       match keyword_exclude self with
       | Some p => pattern p
       | None => []
       end ]}.
End Detector.

(** ** Verification (section 4.5 of the specification)

    [IbmCloudIamDetector.verify] is not among these sources; only its test
    is.  The definitions below follow the specification. *)
Inductive VerifiedResult := VERIFIED_TRUE | VERIFIED_FALSE | UNVERIFIED.

(** What the verification transport observes for its single request
    (section 6): a status code, or no answer at all. *)
Inductive response :=
| Status (code : Z)
| Unreachable
| TimedOut.

(** The class of a status code: success, authentication failure, or
    anything else. *)
Inductive status_class := SUCCESS | AUTH_FAILURE | UNEXPECTED.

(** The candidate under test: text, or a raw byte sequence. *)
Inductive candidate := Text (s : str) | Raw (b : list Byte.byte).

Section Verification.
Variable decode : list Byte.byte -> str.     (* bytes to text *)
Variable post : str -> response.             (* the transport *)
Variable classify : Z -> status_class.

Definition credential (secret : candidate) : str :=
  match secret with
  | Text s => s
  | Raw b => decode b
  end.

(** Modelled from the spec: [verify] of a format-specific detector, which
    is not among these sources.  One request is made with the candidate as
    the credential; a success answer gives VERIFIED_TRUE, an
    authentication failure gives VERIFIED_FALSE, and a network failure, a
    timeout or an unexpected status gives UNVERIFIED. *)
Definition verify (secret : candidate) : VerifiedResult :=
  match post (credential secret) with
  | Status code =>
      match classify code with
      | SUCCESS => VERIFIED_TRUE
      | AUTH_FAILURE => VERIFIED_FALSE
      | UNEXPECTED => UNVERIFIED
      end
  | Unreachable | TimedOut => UNVERIFIED
  end.
End Verification.

(** The classes used by the examples: 2xx is success, 4xx is the
    authority's rejection (the test of the IBM detector answers 400). *)
Definition http_class (code : Z) : status_class :=
  if ((200 <=? code) && (code <? 300))%Z then SUCCESS
  else if ((400 <=? code) && (code <? 500))%Z then AUTH_FAILURE
  else UNEXPECTED.

(** ** Values used in the examples *)

(** The tables of the examples. *)
Definition L : Unicode := Latin1.tables.

(** A detector without an exclusion pattern, as [KeywordDetector()] builds it. *)
Definition plain : KeywordDetector := {| keyword_exclude := None |}.

(** A classifier by file name suffix, for the examples: [.go] is Go,
    [.json] is JSON, [.cpp] is C++, [.php] is a category the table does
    not have, everything else is unknown. *)
Definition endswith (suffix s : str) : bool := startswith (rev suffix) (rev s).
Definition by_suffix (filename : str) : FileType :=
  if endswith (u ".go") filename then GO
  else if endswith (u ".json") filename then JSON
  else if endswith (u ".cpp") filename then C_PLUS_PLUS
  else if endswith (u ".php") filename then OTHER "PHP"
  else UNKNOWN.

(** The entries of the base class in the examples: the detector's name. *)
Definition base_entries : gmap string str :=
  {[ "name"%string := u "KeywordDetector" ]}.

(** Lines of the examples. *)
Definition line_colon_equals : str :=      (* my_password := "hunter2" *)
  u "my_password := " ++ Q ++ u "hunter2" ++ Q.
Definition line_statement : str :=         (* password="bar"; *)
  u "password=" ++ Q ++ u "bar" ++ Q ++ u ";".
Definition line_two_values : str :=        (* "foo" == password = "bar" *)
  Q ++ u "foo" ++ Q ++ u " == password = " ++ Q ++ u "bar" ++ Q.
Definition line_token_endpoint : str := u "tokenEndpoint=verysecretvalue".

Definition line_reversed : str :=             (* "bar" == password *)
  Q ++ u "bar" ++ Q ++ u " == password".
Definition line_reversed_upper : str :=       (* "bar" == PASSWORD *)
  Q ++ u "bar" ++ Q ++ u " == PASSWORD".
Definition line_constructor : str :=          (* secret("bar") *)
  u "secret(" ++ Q ++ u "bar" ++ Q ++ u ")".
Definition line_constructor_upper : str :=    (* SECRET("bar") *)
  u "SECRET(" ++ Q ++ u "bar" ++ Q ++ u ")".
Definition line_assign : str :=               (* password = "bar" *)
  u "password = " ++ Q ++ u "bar" ++ Q.
Definition line_assign_upper : str :=         (* PASSWORD = "bar" *)
  u "PASSWORD = " ++ Q ++ u "bar" ++ Q.
(** [data.put] with the key between double quotes and the value between
    a double quote and a single quote. *)
Definition line_data_put : str :=
  u "data.put(" ++ Q ++ u "password" ++ Q ++ u ", " ++ Q ++ u "bar')".
(** [api_key:] and a value between a double quote and a single quote. *)
Definition line_mixed_quotes : str :=
  u "api_key: " ++ Q ++ u "value'".
Definition line_with_newline : str :=         (* password = abc, then a line feed *)
  u "password = abc" ++ [LF].
Definition line_quoted_newline : str :=       (* password = "abc", abc then a line feed *)
  u "password = " ++ Q ++ u "abc" ++ [LF] ++ Q.

(** The key of the IBM detector's test, as text and as bytes, and the
    decoding of bytes below 0x80. *)
Definition CLOUD_IAM_KEY : str := u "ukYEEX38RiGgq1BPf2m-nIeTM_lEGizKKn49RRoC_6fn".
Definition CLOUD_IAM_KEY_BYTES : list Byte.byte :=
  list_byte_of_string "ukYEEX38RiGgq1BPf2m-nIeTM_lEGizKKn49RRoC_6fn".
Definition decode_ascii (b : list Byte.byte) : str := map Byte.to_N b.

(** The pattern families of the module, in the order of their definition. *)
Definition families : list Pattern := [
  FOLLOWED_BY_COLON_EQUAL_SIGNS_REGEX;
  FOLLOWED_BY_COLON_REGEX;
  FOLLOWED_BY_COLON_QUOTES_REQUIRED_REGEX;
  FOLLOWED_BY_EQUAL_SIGNS_OPTIONAL_BRACKETS_OPTIONAL_AT_SIGN_QUOTES_REQUIRED_REGEX;
  FOLLOWED_BY_OPTIONAL_ASSIGN_QUOTES_REQUIRED_REGEX;
  FOLLOWED_BY_EQUAL_SIGNS_REGEX;
  FOLLOWED_BY_EQUAL_SIGNS_QUOTES_REQUIRED_REGEX;
  PRECEDED_BY_EQUAL_COMPARISON_SIGNS_QUOTES_REQUIRED_REGEX;
  FOLLOWED_BY_QUOTES_AND_SEMICOLON_REGEX;
  FOLLOWED_BY_ARROW_FUNCTION_SIGN_QUOTES_REQUIRED_REGEX;
  DATA_PUT_PASSWORD_REGEX
].

(** The span of the leftmost match of a pattern text and the spans of
    its groups, for the examples of the matcher. *)
Definition spans (text : str) (flags : bool) (string : str)
    : option (option (list (option (nat * nat)))) :=
  match re_compile text flags with
  | Some p =>
      Some (match search L p string with
            | Some m =>
                Some (Some (m_span m)
                      :: map (fun g => get_mark g (m_marks m)) (seq 1 (groups p)))
            | None => None
            end)
  | None => None
  end.

(** ** What the properties speak about *)

(** Group [g] is opened somewhere in the pattern. *)
Fixpoint occurs (g : nat) (r : regex) : bool :=
  match r with
  | Seq r1 r2 | Branch r1 r2 => occurs g r1 || occurs g r2
  | Repeat _ _ _ r1 | Assert r1 => occurs g r1
  | Subpattern g' r1 => bool_decide (g' = Some g) || occurs g r1
  | _ => false
  end.

(** The body of group [g] when the group stands on the spine of the
    pattern (in a sequence, possibly inside other groups, never under an
    alternative, a quantifier or a lookahead) and is opened once. *)
Fixpoint body_of (g : nat) (r : regex) : option regex :=
  match r with
  | Seq r1 r2 =>
      if occurs g r2 then (if occurs g r1 then None else body_of g r2)
      else body_of g r1
  | Subpattern g' r1 =>
      if bool_decide (g' = Some g)
      then (if occurs g r1 then None else Some r1)
      else body_of g r1
  | _ => None
  end.

(** The compiled secret-body fragment and its three sets: the first
    character, the characters that may not occur, the characters that may
    not end it. *)
Definition SECRET_code : regex :=
  default Empty (code <$> re_compile SECRET NOFLAG).
Definition SECRET_FIRST : list set_item :=
  [ItemRange (ch "a") (ch "z"); ItemRange (ch "A") (ch "Z");
   ItemRange (ch "0") (ch "9"); ItemLiteral (ch "_"); ItemLiteral (ch "!");
   ItemLiteral (ch "@"); ItemLiteral (ch "#"); ItemLiteral (ch "%");
   ItemLiteral (ch "^"); ItemLiteral (ch "&")].
Definition VT : char := 11%N.
Definition SECRET_NEVER : list char := [VT; ch "'"; DQ].
Definition SECRET_NEVER_LAST : list char := [VT; ch ","; ch "'"; DQ; ch "`"].

(** What the fragment makes of a candidate: it is not empty, its first
    character is in the first set, it holds no vertical tab and no single
    or double quote, and it does not end in a vertical tab, a comma, a
    backtick or a quote. *)
Definition secret_shape (U : Unicode) (flags : bool) (s : str) : Prop :=
  s <> []
  /\ (exists x, head s = Some x
                /\ existsb (item_match U flags x) SECRET_FIRST = true)
  /\ Forall (fun x => x ∉ SECRET_NEVER) s
  /\ (exists y, last s = Some y /\ y ∉ SECRET_NEVER_LAST).

(** The items of a sequence, from left to right. *)
Fixpoint spine (r : regex) : list regex :=
  match r with
  | Empty => []
  | Seq r1 r2 => r1 :: spine r2
  | _ => [r]
  end.

(** A group of one character: the set it is taken from. *)
Definition one_of (r : regex) : option (list set_item) :=
  match r with
  | Seq (In false items) Empty => Some items
  | Seq (Literal c) Empty => Some [ItemLiteral c]
  | _ => None
  end.

(** At place [k] of the spine stand a group of one character [(q)], the
    group [g] and a group that refers back to [q], and [g] is opened
    nowhere else: the set that [q] is taken from. *)
Definition bracket (k g : nat) (r : regex) : option (list set_item) :=
  match drop k (spine r) with
  | Subpattern (Some q) rq :: Subpattern (Some g') body
      :: Subpattern h (Seq (GroupRef q') Empty) :: rest =>
      if bool_decide (g' = g) && bool_decide (q' = q)
         && negb (bool_decide (q = g)) && negb (bool_decide (h = Some g))
         && negb (occurs q body) && forallb (fun r' => negb (occurs g r')) rest
      then one_of rq
      else None
  | _ => None
  end.

(** The quote set of the bracket around group [g], if there is one. *)
Definition quote_of (g : nat) (r : regex) : option (list set_item) :=
  head (omap (fun k => bracket k g r) (seq 0 (length (spine r)))).

(** The quote characters. *)
Definition QUOTES : list char := [ch "'"; DQ; ch "`"].

(** The designated group of the item stands in a bracket of quotes: it
    follows a group of one quote character and is followed by a back
    reference to that group. *)
Definition closes_quote (item : Pattern * nat) : bool :=
  match quote_of item.2 (code item.1) with
  | Some items =>
      forallb (fun it => match it with
                         | ItemLiteral c => bool_decide (c ∈ QUOTES)
                         | _ => false
                         end) items
  | None => false
  end && (0 <? item.2)%nat && (item.2 <=? groups item.1)%nat.

(** Two characters that differ in case at most: the same lower-case
    form, the same classes. *)
Definition case_variant (U : Unicode) (x x' : char) : Prop :=
  sre_lower U x = sre_lower U x'
  /\ is_word U x = is_word U x' /\ is_space U x = is_space U x'
  /\ is_digit U x = is_digit U x' /\ (x = LF <-> x' = LF).

Definition same_classes (x x' : char) : bool :=
  eqb (Latin1.word x) (Latin1.word x') && eqb (Latin1.space x) (Latin1.space x')
  && eqb (Latin1.digit x) (Latin1.digit x') && eqb (x =? LF)%N (x' =? LF)%N.

(** The first character of a candidate, spelled out: an ASCII letter or
    digit, or one of the seven symbols. *)
Definition secret_first_char (x : char) : bool :=
  Parser.is_ascii_letter x || Parser.is_digit_char x
  || bool_decide (x ∈ u "_!@#%^&").

(** The code points of the Latin-1 range. *)
Definition latin1_range : list char := N.of_nat <$> seq 0 256.

(** The rule sets of the module and their items. *)
Definition rule_sets : list rule_set := [
  CONFIG_DENYLIST_REGEX_TO_GROUP; GOLANG_DENYLIST_REGEX_TO_GROUP;
  COMMON_C_DENYLIST_REGEX_TO_GROUP; C_PLUS_PLUS_REGEX_TO_GROUP;
  QUOTES_REQUIRED_DENYLIST_REGEX_TO_GROUP; TERRAFORM_DENYLIST_REGEX_TO_GROUP
].
Definition rule_items : list (Pattern * nat) := mjoin rule_sets.

(** The designated group of the item is a group of the pattern, stands on
    its spine and holds the secret-body fragment. *)
Definition holds_secret (item : Pattern * nat) : bool :=
  bool_decide (body_of item.2 (code item.1) = Some SECRET_code)
  && (0 <? item.2)%nat && (item.2 <=? groups item.1)%nat.

(** The rule set that [analyze_line] hands on for a file category. *)
Definition rule_set_for (filetype : FileType) : rule_set :=
  dict_get REGEX_BY_FILETYPE filetype QUOTES_REQUIRED_DENYLIST_REGEX_TO_GROUP.

(** Every group number of the rule set is a group of its pattern. *)
Definition well_indexed (rs : rule_set) : bool :=
  forallb (fun item => (item.2 <=? groups item.1)%nat) rs.

(** The family matches the line. *)
Definition family_matches (U : Unicode) (string : str) (item : Pattern * nat)
    : bool :=
  bool_decide (is_Some (search U item.1 string)).

(** The candidate a family contributes for a line: its designated group
    at the leftmost match, when there is a match. *)
Definition candidate_of (U : Unicode) (string : str) (item : Pattern * nat)
    : option (option str) :=
  match search U item.1 string with
  | Some m =>
      match group m item.2 with
      | inr value => Some value
      | inl _ => None
      end
  | None => None
  end.

(** A generator that yields the values of a list and returns. *)
Definition yields (values : list (option str)) : generator :=
  foldr Yield Return values.

(** The detector [KeywordDetector(keyword_exclude=text)] for a pattern
    that compiles. *)
Definition excluding (text : str) : KeywordDetector :=
  {| keyword_exclude := re_compile text IGNORECASE |}.

(** What the constructor and [json] rely on in [re.compile]: a compiled
    pattern keeps the text it was compiled from, as [Pattern.pattern]. *)
Definition keeps_pattern (compile : str -> bool -> option Pattern) : Prop :=
  forall text flags p, compile text flags = Some p -> pattern p = text.

(** *** Keywords, quotes and lines of the further properties *)

(** The literal characters a pattern begins with. *)
Fixpoint literal_prefix (r : regex) : str :=
  match r with
  | Literal c => [c]
  | Seq (Literal c) r2 => c :: literal_prefix r2
  | _ => []
  end.

(** Whatever the pattern matches holds one of the stems, spelled by
    literals of the pattern: the pattern begins with a stem, or a part
    that every match goes through does (an item of a sequence, the body of
    a group, every alternative of a branch). *)
Fixpoint needs (stems : list str) (r : regex) : bool :=
  existsb (fun stem => startswith stem (literal_prefix r)) stems
  || match r with
     | Seq r1 r2 => needs stems r1 || needs stems r2
     | Branch r1 r2 => needs stems r1 && needs stems r2
     | Subpattern _ r1 => needs stems r1
     | _ => false
     end.

(** Six texts of which every entry of [DENYLIST] spells one. *)
Definition KEYWORD_STEMS : list str :=
  [u "key"; u "pass"; u "token"; u "pwd"; u "secret"; u "contrase"].

(** The lower-cased line holds one of the stems. *)
Definition names_keyword (U : Unicode) (string : str) : bool :=
  existsb (fun stem => contains stem (str_lower U string)) KEYWORD_STEMS.

(** The characters of the text lie in the range of the Latin-1 tables. *)
Definition latin1 (s : str) : bool := forallb (fun x => (x <? 256)%N) s.

(** At place [k] of the spine the group [g] stands between two sets of
    one character, and [g] is opened nowhere later: the two sets. *)
Definition enclosed (k g : nat) (r : regex)
    : option (list set_item * list set_item) :=
  match drop k (spine r) with
  | In false opening :: Subpattern (Some g') body :: In false closing :: rest =>
      if bool_decide (g' = g) && forallb (fun r' => negb (occurs g r')) rest
      then Some (opening, closing)
      else None
  | _ => None
  end.

(** A set of quote characters. *)
Definition quote_set (items : list set_item) : bool :=
  forallb (fun it => match it with
                     | ItemLiteral c => bool_decide (c ∈ QUOTES)
                     | _ => false
                     end) items.

(** The designated group of the item holds the secret-body fragment and
    stands between quotes: in a bracket that refers back to the opening
    quote, or between two quote sets. *)
Definition asks_quotes (item : Pattern * nat) : bool :=
  holds_secret item
  && (closes_quote item
      || existsb (fun k => match enclosed k item.2 (code item.1) with
                           | Some (opening, closing) =>
                               quote_set opening && quote_set closing
                           | None => false
                           end) (seq 0 (length (spine (code item.1))))).

(** The rule sets all of whose families demand quotes: the default one and
    the two of the C family. *)
Definition quoted_rule_sets : list rule_set := [
  QUOTES_REQUIRED_DENYLIST_REGEX_TO_GROUP; COMMON_C_DENYLIST_REGEX_TO_GROUP;
  C_PLUS_PLUS_REGEX_TO_GROUP
].

(** More lines of the examples. *)
Definition line_no_keyword : str :=           (* username = "hunter2" *)
  u "username = " ++ Q ++ u "hunter2" ++ Q.
Definition line_fake : str :=                 (* password = "fake" *)
  u "password = " ++ Q ++ u "fake" ++ Q.
Definition line_fake_upper : str :=           (* password = "FAKE" *)
  u "password = " ++ Q ++ u "FAKE" ++ Q.

(** *** Ways through a pattern

    [path r i mk j mk'] is a way through [r] from [i] to [j] that keeps to
    the counts of the quantifiers: a repetition takes its [lo] rounds and
    then at most as many more as the matcher allows, none of them empty;
    a lookahead holds no group.  Where there is such a way, followed by
    something that the rest of the pattern accepts, the matcher finds a
    match ([sre_match_complete] below). *)

(** No group is opened in the pattern. *)
Fixpoint groupless (r : regex) : bool :=
  match r with
  | Seq r1 r2 | Branch r1 r2 => groupless r1 && groupless r2
  | Repeat _ _ _ r1 | Assert r1 => groupless r1
  | Subpattern g r1 => bool_decide (g = None) && groupless r1
  | _ => true
  end.

Section Path.
Context (U : Unicode) (flag_i : bool) (string : str).

(** [n] steps, one after the other. *)
Fixpoint times (step : nat -> marks -> nat -> marks -> Prop) (n : nat)
    (i : nat) (mk : marks) (j : nat) (mk' : marks) : Prop :=
  match n with
  | O => j = i /\ mk' = mk
  | S n' => exists m mkm, step i mk m mkm /\ times step n' m mkm j mk'
  end.

(** A way through [r]: as a run, but for the repetitions and the
    lookaheads. *)
Fixpoint path (r : regex) (i : nat) (mk : marks) (j : nat) (mk' : marks) : Prop :=
  match r with
  | Seq r1 r2 => exists m mkm, path r1 i mk m mkm /\ path r2 m mkm j mk'
  | Branch r1 r2 => path r1 i mk j mk' \/ path r2 i mk j mk'
  | Repeat lo hi _ r1 =>
      exists m mkm n,
        times (path r1) lo i mk m mkm
        /\ times (fun a ma b mb => path r1 a ma b mb /\ a < b) n m mkm j mk'
        /\ n <= match hi with
                | Some h => h - lo
                | None => S (length string - m)
                end
  | Subpattern g r1 =>
      exists mk1, path r1 i mk j mk1 /\ mk' = set_mark g (i, j) mk1
  | Assert r1 =>
      groupless r1 = true /\ (exists m mk1, path r1 i mk m mk1)
      /\ j = i /\ mk' = mk
  | _ => run U flag_i string r i mk j mk'
  end.
End Path.

(** *** Assignments *)

(** The compiled alternation of the keywords, [DENYLIST] joined by bars. *)
Definition DENYLIST_code : regex :=
  default Empty (code <$> re_compile DENYLIST_REGEX_0 IGNORECASE).

(** The entries of [DENYLIST] that are plain words: [password], [passwd],
    [token], [pwd], [secret] and the two spellings of the Spanish word. *)
Definition plain_word (kw : str) : bool :=
  forallb (fun c => Parser.is_ascii_letter c || (c =? NTILDE)%N) kw.
Definition PLAIN_KEYWORDS : list str :=
  filter (fun kw => plain_word kw = true) DENYLIST.

(** A text that the secret-body fragment takes as a whole: it begins with
    a character of the first set, holds no vertical tab and no single or
    double quote, and does not end in a comma or a backtick. *)
Definition is_secret_text (v : str) : bool :=
  match head v, last v with
  | Some x, Some y =>
      secret_first_char x
      && forallb (fun z => negb (bool_decide (z ∈ SECRET_NEVER))) v
      && negb (bool_decide (y ∈ SECRET_NEVER_LAST))
  | _, _ => false
  end.

(** White space of the Latin-1 range. *)
Definition white (sp : str) : bool := forallb Latin1.space sp.

(** No quote character stands in the text. *)
Definition quote_free (s : str) : bool :=
  forallb (fun x => negb (bool_decide (x ∈ QUOTES))) s.

(** [pre kw sp1 = sp2 q v q post]: a keyword, an equals sign between
    white space, a value between two quotes [q], and the text before and
    after. *)
Definition assignment (pre kw sp1 sp2 : str) (q : char) (v post : str) : str :=
  pre ++ kw ++ sp1 ++ u "=" ++ sp2 ++ [q] ++ v ++ [q] ++ post.

(** [pre kw sp1 = sp2 v post]: the same without quotes. *)
Definition bare_assignment (pre kw sp1 sp2 v post : str) : str :=
  pre ++ kw ++ sp1 ++ u "=" ++ sp2 ++ v ++ post.

(** The pieces of the equals families. *)
Definition WORDS : regex :=
  Repeat 0 None true (In false [ItemCategory false CATEGORY_WORD]).
Definition SPACES : regex :=
  Repeat 0 None true (In false [ItemCategory false CATEGORY_SPACE]).
Definition QUOTE_SET : list set_item :=
  [ItemLiteral (ch "'"); ItemLiteral DQ; ItemLiteral (ch "`")].

(** The opening quote [rq] in group [gq], the secret in group [g] and the
    reference back to the quote in group [h]. *)
Definition value_shape (rq : regex) (gq g h : nat) : regex :=
  Seq (Subpattern (Some gq) rq)
    (Seq (Subpattern (Some g) SECRET_code)
       (Seq (Subpattern (Some h) (Seq (GroupRef gq) Empty)) Empty)).

(** The keyword, what may follow it, an equals operator between white
    space, and the rest. *)
Definition equals_shape (rest : regex) : regex :=
  Seq (Subpattern (Some 1) DENYLIST_code)
    (Seq WORDS
       (Seq (Repeat 0 (Some 1) true
               (Subpattern (Some 2)
                  (Seq (Repeat 0 (Some 2) true
                          (In false [ItemLiteral (ch "]"); ItemLiteral (ch "'");
                                     ItemLiteral DQ]))
                     Empty)))
          (Seq SPACES
             (Seq (Subpattern (Some 3)
                     (Branch
                        (Seq (Repeat 1 (Some 3) true (Literal (ch "="))) Empty)
                        (Seq (Literal (ch "!"))
                           (Seq (Literal (ch "="))
                              (Seq (Repeat 0 (Some 1) true (Literal (ch "=")))
                                 Empty)))))
                (Seq SPACES rest))))).

Definition brackets_shape (rest : regex) : regex :=
  Seq (Subpattern (Some 1) DENYLIST_code)
    (Seq WORDS
       (Seq (Repeat 0 (Some 1) true
               (Subpattern (Some 2)
                  (Seq (Subpattern (Some 3)
                          (Seq (Literal (ch "["))
                             (Seq (Repeat 0 None true
                                     (In false [ItemRange (ch "0") (ch "9")]))
                                (Seq (Literal (ch "]")) Empty))))
                     Empty)))
          (Seq SPACES
             (Seq (Repeat 1 (Some 2) true
                     (In false [ItemLiteral (ch "!"); ItemLiteral (ch "=")]))
                (Seq SPACES
                   (Seq (Repeat 0 (Some 1) true
                           (Subpattern (Some 4) (Seq (Literal (ch "@")) Empty)))
                      rest)))))).

(** The families with an equals sign that stand in the rule sets of the
    module, and the one of a rule set. *)
Definition EQUALS_FAMILIES : list Pattern := [
  FOLLOWED_BY_EQUAL_SIGNS_QUOTES_REQUIRED_REGEX;
  FOLLOWED_BY_EQUAL_SIGNS_REGEX;
  FOLLOWED_BY_EQUAL_SIGNS_OPTIONAL_BRACKETS_OPTIONAL_AT_SIGN_QUOTES_REQUIRED_REGEX
].
Definition equals_family (rs : rule_set) : option (Pattern * nat) :=
  head (filter (fun item => item.1 ∈ EQUALS_FAMILIES) rs).

(** The rule sets with the family of the unquoted equals sign: those of
    the configuration formats, of Go and of Terraform. *)
Definition unquoted_rule_sets : list rule_set := [
  CONFIG_DENYLIST_REGEX_TO_GROUP; GOLANG_DENYLIST_REGEX_TO_GROUP;
  TERRAFORM_DENYLIST_REGEX_TO_GROUP
].

(** The families compiled without IGNORECASE. *)
Definition CASE_SENSITIVE_FAMILIES : list Pattern :=
  filter (fun p => ignorecase p = false) families.

(** The line, as it is written, holds one of the stems. *)
Definition spells_keyword (string : str) : bool :=
  existsb (fun stem => contains stem string) KEYWORD_STEMS.

(** More lines of the examples. *)
Definition line_padded : str :=        (* let my_Token= 's3cr3t!'; // rotate *)
  assignment (u "let my_") (u "Token") [] (u " ") (ch "'") (u "s3cr3t!")
    (u "; // rotate").
Definition line_yaml : str :=          (*   db_PASSWORD=hunter2 # prod *)
  bare_assignment (u "  db_") (u "PASSWORD") [] [] (u "hunter2") (u " # prod").
Definition line_call : str :=          (* login(password = `hunter2`) *)
  u "login(password = `hunter2`)".
Definition line_unquoted : str := u "password = hunter2".

(** * Properties *)

(** ** Text *)
Lemma startswith_spec (prefix s : str) :
  startswith prefix s = true <-> exists rest, s = prefix ++ rest.
Proof.
  revert s. induction prefix as [|a prefix IH]; intros s; simpl.
  - split; [intros _; by exists s | done].
  - destruct s as [|b s].
    + split; [done | intros [rest H]; discriminate].
    + rewrite andb_true_iff, N.eqb_eq, IH. split.
      * intros [-> [rest ->]]. by exists rest.
      * intros [rest H]. injection H as -> ->. eauto.
Qed.

Lemma contains_spec (needle haystack : str) :
  contains needle haystack = true
  <-> exists before after, haystack = before ++ needle ++ after.
Proof.
  induction haystack as [|a h IH]; simpl.
  - rewrite orb_false_r, startswith_spec. split.
    + intros [rest H]. by exists [], rest.
    + intros (before & after & H). symmetry in H.
      apply app_eq_nil in H as [-> H]. apply app_eq_nil in H as [-> ->].
      by exists [].
  - rewrite orb_true_iff, startswith_spec, IH. split.
    + intros [[rest H] | (before & after & ->)].
      * by exists [], rest.
      * by exists (a :: before), after.
    + intros (before & after & H). destruct before as [|b before].
      * left. by exists after.
      * right. injection H as -> ->. eauto.
Qed.

(** ** Dictionaries *)
Lemma dict_get_missing {K V : Type} `{EqDecision K}
    (d : list (K * V)) (k : K) (default : V) :
  k ∉ d.*1 -> dict_get d k default = default.
Proof.
  induction d as [|[k' v] d IH]; simpl; [done|].
  intros Hk. apply not_elem_of_cons in Hk as [Hne Hk].
  destruct (decide (k' = k)); [congruence | auto].
Qed.

(** ** The loops of [analyze_string] *)
Lemma search_re (U : Unicode) (p : Pattern) (string : str) (m : Match) :
  search U p string = Some m -> m_re m = p.
Proof.
  unfold search. destruct search_from as [[[i j] mk]|]; [|done].
  by intros [= <-].
Qed.

Lemma group_in_range (m : Match) (n : nat) :
  n <= groups (m_re m) -> exists value, group m n = inr value.
Proof.
  intros Hn. unfold group.
  destruct (Nat.ltb_spec (groups (m_re m)) n) as [Hlt|_]; [lia|].
  destruct n; eauto.
Qed.

Lemma for_items_yields (U : Unicode) (string : str) (rs : rule_set)
    (has_results : bool) (after : bool -> generator) :
  well_indexed rs = true ->
  for_items U string rs has_results after
  = foldr Yield
      (after (has_results || existsb (family_matches U string) rs))
      (omap (candidate_of U string) rs).
Proof.
  revert has_results. induction rs as [|[p n] rs IH]; intros has_results; simpl.
  - by rewrite orb_false_r.
  - intros [Hn Hrs]%andb_true_iff. apply Nat.leb_le in Hn. simpl in Hn.
    unfold family_matches at 1, candidate_of at 1. simpl.
    destruct (search U p string) as [m|] eqn:Hs; simpl.
    + destruct (group_in_range m n) as [value Hv].
      { by rewrite (search_re _ _ _ _ Hs). }
      rewrite Hv. simpl. rewrite (IH true Hrs).
      by rewrite orb_true_r.
    + by rewrite (IH has_results Hrs).
Qed.

Lemma matching_families_count (U : Unicode) (string : str) (rs : rule_set) :
  well_indexed rs = true ->
  length (omap (candidate_of U string) rs)
  = length (filter (fun item => family_matches U string item = true) rs).
Proof.
  induction rs as [|[p n] rs IH]; [done|].
  intros [Hn Hrs]%andb_true_iff. apply Nat.leb_le in Hn. simpl in Hn.
  rewrite filter_cons. cbn [omap list_omap].
  destruct (decide (family_matches U string (p, n) = true)) as [Hm|Hm];
    unfold family_matches in Hm; simpl in Hm;
    unfold candidate_of at 1; simpl.
  - apply bool_decide_eq_true in Hm as [m Hs]. rewrite Hs.
    destruct (group_in_range m n) as [value Hv].
    { by rewrite (search_re _ _ _ _ Hs). }
    rewrite Hv. simpl. by rewrite IH.
  - destruct (search U p string) as [m|] eqn:Hs; [|by rewrite IH].
    exfalso. apply Hm. apply bool_decide_eq_true_2. eauto.
Qed.

(** ** The matcher answers with a run *)
Section Sound.
Context (U : Unicode) (flag_i : bool) (string : str).

Local Abbreviation run := (run U flag_i string).
Local Abbreviation sre_match := (sre_match U flag_i string).

Lemma iter_app step i mk j mk' k mk'' :
  iter step i mk j mk' -> iter step j mk' k mk'' -> iter step i mk k mk''.
Proof. induction 1; eauto using iter. Qed.

Lemma one_char_sound test i mk k res :
  one_char string test i mk k = Some res ->
  exists j mk', run_char string test i mk j mk' /\ k j mk' = Some res.
Proof.
  unfold one_char, run_char.
  destruct (string !! i) as [x|] eqn:Hx; [|done].
  destruct (test x) eqn:Ht; [|done]. eauto 10.
Qed.

Section Body.
Variable body : nat -> marks -> cont -> option (nat * marks).
Variable step : nat -> marks -> nat -> marks -> Prop.
Hypothesis body_sound : forall i mk k res,
  body i mk k = Some res -> exists j mk', step i mk j mk' /\ k j mk' = Some res.

Lemma repeat_min_sound lo : forall i mk k res,
  repeat_min body lo i mk k = Some res ->
  exists j mk', iter step i mk j mk' /\ k j mk' = Some res.
Proof.
  induction lo as [|lo IH]; simpl; intros i mk k res H.
  - eauto using iter.
  - apply body_sound in H as (j & mk' & Hstep & H).
    apply IH in H as (j' & mk'' & Hiter & H). eauto 6 using iter.
Qed.

Lemma repeat_more_sound greedy n : forall last i mk k res,
  repeat_more body greedy n last i mk k = Some res ->
  exists j mk', iter step i mk j mk' /\ k j mk' = Some res.
Proof.
  induction n as [|n IH]; simpl; intros last i mk k res H.
  - eauto using iter.
  - assert (forall again,
        (if bool_decide (last = Some i) then None
         else body i mk (fun j mk' => repeat_more body greedy n (Some i) j mk' k))
        = Some again ->
        exists j mk', iter step i mk j mk' /\ k j mk' = Some again) as Hagain.
    { intros again Ha. destruct (bool_decide (last = Some i)); [done|].
      apply body_sound in Ha as (j & mk' & Hstep & Ha).
      apply IH in Ha as (j' & mk'' & Hiter & Ha). eauto 6 using iter. }
    destruct greedy.
    + destruct (if bool_decide (last = Some i) then None else _) as [again|] eqn:Ha.
      * injection H as <-. eauto.
      * eauto using iter.
    + destruct (k i mk) as [r0|] eqn:Hk.
      * injection H as <-. eauto using iter.
      * eauto.
Qed.
End Body.

Lemma sre_match_sound r : forall i mk k res,
  sre_match r i mk k = Some res ->
  exists j mk', run r i mk j mk' /\ k j mk' = Some res.
Proof.
  induction r as [|c| |negate items|pos|r1 IH1 r2 IH2|r1 IH1 r2 IH2
                 |lo hi greedy r1 IH1|g r1 IH1|g|r1 IH1];
    simpl; intros i mk k res H.
  - eauto.
  - by apply one_char_sound.
  - by apply one_char_sound.
  - by apply one_char_sound.
  - destruct (at_position U string pos i) eqn:Hp; [eauto 6|done].
  - apply IH1 in H as (m & mkm & H1 & H). apply IH2 in H as (j & mk' & H2 & H).
    eauto 8.
  - destruct (sre_match r1 i mk k) as [res1|] eqn:H1.
    + injection H as <-. apply IH1 in H1 as (j & mk' & H1 & Hk). eauto.
    + apply IH2 in H as (j & mk' & H2 & Hk). eauto.
  - apply (repeat_min_sound _ _ IH1) in H as (m & mkm & Hmin & H).
    apply (repeat_more_sound _ _ IH1) in H as (j & mk' & Hmore & H).
    eauto using iter_app.
  - apply IH1 in H as (j & mk1 & H1 & Hk). eauto 6.
  - destruct (get_mark g mk) as [[a b]|] eqn:Hg; [|done].
    destruct (same_text U flag_i string a i (b - a)) eqn:Ht; [|done].
    eauto 10.
  - destruct (sre_match r1 i mk (fun j mk' => Some (j, mk')))
      as [[m mk1]|] eqn:H1; [|done].
    apply IH1 in H1 as (j & mk' & H1 & [= -> ->]). eauto 6.
Qed.

Lemma search_from_sound r tries : forall start i j mk,
  search_from U flag_i string r start tries = Some (i, j, mk) ->
  start <= i /\ run r i [] j mk.
Proof.
  induction tries as [|tries IH]; simpl; intros start i j mk H; [done|].
  destruct (sre_match r start [] (fun j mk => Some (j, mk)))
    as [[j' mk']|] eqn:Hm.
  - injection H as <- <- <-.
    apply sre_match_sound in Hm as (j & mk & Hrun & [= -> ->]). eauto.
  - apply IH in H as [Hle Hrun]. split; [lia | done].
Qed.
End Sound.

Lemma search_sound (U : Unicode) (p : Pattern) (string : str) (m : Match) :
  search U p string = Some m ->
  m_re m = p /\ m_string m = string
  /\ run U (ignorecase p) string (code p) (m_span m).1 [] (m_span m).2 (m_marks m).
Proof.
  unfold search.
  destruct search_from as [[[i j] mk]|] eqn:Hs; [|done].
  intros [= <-]. simpl. by apply search_from_sound in Hs as [_ Hrun].
Qed.

(** ** Where a group gets its mark *)
Section Marks.
Context (U : Unicode) (flag_i : bool) (string : str).

Local Abbreviation run := (run U flag_i string).

Lemma get_mark_set_other (g : nat) (g' : option nat) (span : nat * nat)
    (mk : marks) :
  g' <> Some g -> get_mark g (set_mark g' span mk) = get_mark g mk.
Proof.
  intros Hne. destruct g' as [g'|]; simpl; [|done].
  destruct (Nat.eqb_spec g' g); [congruence | done].
Qed.

Lemma get_mark_set_same (g : nat) (span : nat * nat) (mk : marks) :
  get_mark g (set_mark (Some g) span mk) = Some span.
Proof. simpl. by rewrite Nat.eqb_refl. Qed.

(** A pattern that does not open group [g] leaves its mark alone. *)
Lemma run_frame (g : nat) (r : regex) : forall i mk j mk',
  occurs g r = false -> run r i mk j mk' -> get_mark g mk' = get_mark g mk.
Proof.
  induction r as [|c| |negate items|pos|r1 IH1 r2 IH2|r1 IH1 r2 IH2
                 |lo hi greedy r1 IH1|g' r1 IH1|g'|r1 IH1];
    simpl; intros i mk j mk' Hocc Hrun.
  - by destruct Hrun as [_ ->].
  - by destruct Hrun as (_ & _ & ->).
  - by destruct Hrun as (_ & _ & ->).
  - by destruct Hrun as (_ & _ & ->).
  - by destruct Hrun as (_ & _ & ->).
  - apply orb_false_iff in Hocc as [Ho1 Ho2].
    destruct Hrun as (m & mkm & H1 & H2).
    by rewrite (IH2 _ _ _ _ Ho2 H2), (IH1 _ _ _ _ Ho1 H1).
  - apply orb_false_iff in Hocc as [Ho1 Ho2]. destruct Hrun; eauto.
  - induction Hrun as [|i mk j mk' k mk'' Hstep _ IH]; [done|].
    by rewrite IH, (IH1 _ _ _ _ Hocc Hstep).
  - apply orb_false_iff in Hocc as [Hg Ho1].
    apply bool_decide_eq_false in Hg.
    destruct Hrun as (mk1 & H1 & ->).
    rewrite get_mark_set_other by done. eauto.
  - by destruct Hrun as (a & b & _ & _ & _ & ->).
  - destruct Hrun as (m & H1 & _). eauto.
Qed.

(** A group on the spine holds, at the end, the span of a run of its body. *)
Lemma body_of_run (g : nat) (r : regex) : forall body i mk j mk',
  body_of g r = Some body -> run r i mk j mk' ->
  exists a b mka mkb,
    run body a mka b mkb /\ get_mark g mk' = Some (a, b).
Proof.
  induction r as [|c| |negate items|pos|r1 IH1 r2 IH2|r1 IH1 r2 IH2
                 |lo hi greedy r1 IH1|g' r1 IH1|g'|r1 IH1];
    simpl; intros body i mk j mk' Hbody Hrun; try done.
  - destruct Hrun as (m & mkm & H1 & H2).
    destruct (occurs g r2) eqn:Ho2.
    + destruct (occurs g r1) eqn:Ho1; [done|].
      eauto.
    + destruct (IH1 _ _ _ _ _ Hbody H1) as (a & b & mka & mkb & Hb & Hg).
      exists a, b, mka, mkb. by rewrite (run_frame g r2 _ _ _ _ Ho2 H2).
  - destruct Hrun as (mk1 & H1 & ->).
    destruct (bool_decide (g' = Some g)) eqn:Hg.
    + apply bool_decide_eq_true in Hg as ->.
      destruct (occurs g r1); [done|]. injection Hbody as <-.
      exists i, j, mk, mk1. by rewrite get_mark_set_same.
    + apply bool_decide_eq_false in Hg.
      destruct (IH1 _ _ _ _ _ Hbody H1) as (a & b & mka & mkb & Hb & Hm).
      exists a, b, mka, mkb. by rewrite get_mark_set_other.
Qed.
End Marks.

(** ** The module loads

    The text of every family is its template with the fragments in place,
    every text compiles, the families are pairwise different (so every
    dictionary display keeps all its items, in order), and every rule set
    names groups that exist. *)
Lemma denylist_text :
  DENYLIST_REGEX
  = u "(api[_\.\-]?key|auth_?key|service_?key|account_?key|db_?key|database_?key|priv_?key|private_?key|client_?key|db_?pass|database_?pass|key_?pass|password|passwd|token|_pass\b|pwd|secret|contrase"
    ++ [NTILDE] ++ u "a|contrasena|recaptcha_.*key|nessus_?key)\w*"
  /\ DENYLIST_REGEX_WITH_PREFIX = u "\w*" ++ DENYLIST_REGEX.
Proof. split; by vm_compute. Qed.

Lemma family_texts :
  pattern FOLLOWED_BY_COLON_EQUAL_SIGNS_REGEX
  = DENYLIST_REGEX ++ u "(" ++ CLOSING ++ u ")?\s*:=?\s*(" ++ QUOTE ++ u "?)("
    ++ SECRET ++ u ")(\3)"
  /\ pattern FOLLOWED_BY_COLON_REGEX
     = DENYLIST_REGEX ++ u "(" ++ CLOSING ++ u ")?:\s*(" ++ QUOTE ++ u "?)("
       ++ SECRET ++ u ")(\3)"
  /\ pattern FOLLOWED_BY_COLON_QUOTES_REQUIRED_REGEX
     = DENYLIST_REGEX ++ u "(" ++ CLOSING ++ u ")?:(\s*)(" ++ QUOTE ++ u ")("
       ++ SECRET ++ u ")(\4)"
  /\ pattern FOLLOWED_BY_EQUAL_SIGNS_OPTIONAL_BRACKETS_OPTIONAL_AT_SIGN_QUOTES_REQUIRED_REGEX
     = DENYLIST_REGEX ++ u "((\[[0-9]*\]))?\s*[!=]{1,2}\s*(@)?(" ++ Q ++ u ")("
       ++ SECRET ++ u ")(\5)"
  /\ pattern FOLLOWED_BY_OPTIONAL_ASSIGN_QUOTES_REQUIRED_REGEX
     = DENYLIST_REGEX ++ u "(.assign)?\((" ++ Q ++ u ")(" ++ SECRET ++ u ")(\3)"
  /\ pattern FOLLOWED_BY_EQUAL_SIGNS_REGEX
     = DENYLIST_REGEX ++ u "(" ++ CLOSING ++ u ")?\s*(={1,3}|!==?)\s*(" ++ QUOTE
       ++ u "?)(" ++ SECRET ++ u ")(\4)"
  /\ pattern FOLLOWED_BY_EQUAL_SIGNS_QUOTES_REQUIRED_REGEX
     = DENYLIST_REGEX ++ u "(" ++ CLOSING ++ u ")?\s*(={1,3}|!==?)\s*(" ++ QUOTE
       ++ u ")(" ++ SECRET ++ u ")(\4)"
  /\ pattern PRECEDED_BY_EQUAL_COMPARISON_SIGNS_QUOTES_REQUIRED_REGEX
     = u "(" ++ QUOTE ++ u ")(" ++ SECRET ++ u ")(\1)\s*[!=]{2,3}\s*"
       ++ DENYLIST_REGEX_WITH_PREFIX
  /\ pattern FOLLOWED_BY_QUOTES_AND_SEMICOLON_REGEX
     = DENYLIST_REGEX ++ u "[^\s]{0,50}?\s*(" ++ QUOTE ++ u ")(" ++ SECRET
       ++ u ")(\2);"
  /\ pattern FOLLOWED_BY_ARROW_FUNCTION_SIGN_QUOTES_REQUIRED_REGEX
     = DENYLIST_REGEX ++ u "(" ++ CLOSING ++ u ")?\s*=>?\s*(" ++ QUOTE ++ u ")("
       ++ SECRET ++ u ")(\3)"
  /\ pattern DATA_PUT_PASSWORD_REGEX
     = u "data\.put\(\s*" ++ QUOTE ++ DENYLIST_REGEX_WITH_PREFIX ++ QUOTE
       ++ u "\s*,\s*" ++ QUOTE ++ u "(" ++ SECRET ++ u ")" ++ QUOTE ++ u "\s*\)".
Proof. repeat split; by vm_compute. Qed.

Lemma module_loads :
  Forall (fun p => re_compile (pattern p) (ignorecase p) = Some p) families
  /\ NoDup families
  /\ map groups families = [5; 5; 6; 7; 5; 6; 6; 4; 4; 5; 2]
  /\ Forall (fun rs => well_indexed rs = true)
       [CONFIG_DENYLIST_REGEX_TO_GROUP; GOLANG_DENYLIST_REGEX_TO_GROUP;
        COMMON_C_DENYLIST_REGEX_TO_GROUP; C_PLUS_PLUS_REGEX_TO_GROUP;
        QUOTES_REQUIRED_DENYLIST_REGEX_TO_GROUP;
        TERRAFORM_DENYLIST_REGEX_TO_GROUP]
  /\ TERRAFORM_DENYLIST_REGEX_TO_GROUP
     = QUOTES_REQUIRED_DENYLIST_REGEX_TO_GROUP
       ++ [(FOLLOWED_BY_EQUAL_SIGNS_REGEX, 5)]
  /\ REGEX_BY_FILETYPE.*1
     = [GO; OBJECTIVE_C; C_SHARP; C; C_PLUS_PLUS; CLS; JAVA; JAVASCRIPT; PYTHON;
        SWIFT; TERRAFORM; JSON; YAML; CONFIG; INI; PROPERTIES; TOML].
Proof.
  split; [|split; [|split; [|split; [|split]]]].
  - repeat constructor; by vm_compute.
  - apply (bool_decide_unpack _). by vm_compute.
  - by vm_compute.
  - repeat constructor; by vm_compute.
  - by vm_compute.
  - by vm_compute.
Qed.

(** ** The matcher on small patterns

    What CPython answers for the same patterns and texts: the span of the
    match, then the span of every group. *)
Example vertical_tab_only :
  spans (u "[^\v]") false [LF] = Some (Some [Some (0, 1)])
  /\ spans (u "[^\v]") false [11%N] = Some None.
Proof. split; by vm_compute. Qed.

Example back_reference_case :
  spans (u "(a)\1") true (u "aA") = Some (Some [Some (0, 2); Some (0, 1)])
  /\ spans (u "(a)\1") false (u "aA") = Some None.
Proof. split; by vm_compute. Qed.

Example first_alternative_first :
  spans (u "(?:a|ab)(c|bcd)(d*)") false (u "abcd")
  = Some (Some [Some (0, 4); Some (1, 4); Some (4, 4)]).
Proof. by vm_compute. Qed.

Example empty_repetition :
  spans (u "(a*)*b") false (u "aab") = Some (Some [Some (0, 3); Some (2, 2)])
  /\ spans (u "(a?)*?b") false (u "ab") = Some (Some [Some (0, 2); Some (0, 1)])
  /\ spans (u "x([]']{0,2})?b") false (u "xb")
     = Some (Some [Some (0, 2); Some (1, 1)]).
Proof. repeat split; by vm_compute. Qed.

Example word_boundary :
  spans (u "_pass\b") true (u "db_PASS = 1") = Some (Some [Some (2, 7)])
  /\ spans (u "_pass\b") true (u "db_password") = Some None.
Proof. split; by vm_compute. Qed.

Example rejected_patterns :
  re_compile (u "(a") false = None
  /\ re_compile (u "a)") false = None
  /\ re_compile (u "*a") false = None
  /\ re_compile (u "(a\1)") false = None
  /\ re_compile (u "[b-a]") false = None.
Proof. repeat split; by vm_compute. Qed.

(** ** The Latin-1 tables *)
(** With the Latin-1 tables the first set holds exactly the characters it
    lists, with or without IGNORECASE. *)
Lemma char_range_bounds (lo hi y : char) :
  List.In y (char_range lo hi) -> (lo <= y <= hi)%N.
Proof.
  unfold char_range. rewrite in_map_iff. intros (n & <- & Hn%in_seq). lia.
Qed.

Lemma latin1_lower_bounds (c : char) :
  (c <= Latin1.lower c)%N /\ ((c < 256)%N -> (Latin1.lower c < 256)%N).
Proof.
  unfold Latin1.lower, Latin1.between.
  destruct (N.leb_spec 65 c), (N.leb_spec c 90), (N.leb_spec 192 c),
           (N.leb_spec c 222), (N.eqb_spec c 215); simpl; lia.
Qed.

Lemma latin1_lower_big (x : char) : (256 <= x)%N -> Latin1.lower x = x.
Proof.
  intros Hx. unfold Latin1.lower, Latin1.between.
  destruct (N.leb_spec 65 x), (N.leb_spec x 90), (N.leb_spec 192 x),
           (N.leb_spec x 222), (N.eqb_spec x 215); simpl; lia.
Qed.

Lemma latin1_char_eq_small (flags : bool) (c x : char) :
  char_eq L flags c x = true -> (c < 256)%N -> (x < 256)%N.
Proof.
  unfold char_eq. destruct flags; intros H%N.eqb_eq Hc; [|lia].
  simpl in H. pose proof (latin1_lower_bounds x) as [Hx _].
  pose proof (latin1_lower_bounds c) as [_ Hc']. specialize (Hc' Hc). lia.
Qed.

Lemma latin1_range_spec (x : char) : (x < 256)%N -> List.In x latin1_range.
Proof.
  intros Hx. unfold latin1_range. apply in_map_iff. exists (N.to_nat x).
  split; [lia|]. apply in_seq. lia.
Qed.

Lemma first_set_latin1 (flags : bool) (x : char) :
  existsb (item_match L flags x) SECRET_FIRST = true ->
  secret_first_char x = true.
Proof.
  intros Hx.
  assert (x < 256)%N as Hsmall.
  { apply existsb_exists in Hx as (it & Hin & Hm).
    assert (match it with
            | ItemLiteral c => (c < 256)%N
            | ItemRange lo hi => (hi < 256)%N
            | ItemCategory _ _ => False
            end) as Hit.
    { simpl in Hin. repeat destruct Hin as [<-|Hin]; try done. }
    destruct it as [c|lo hi|]; [| |done]; simpl in Hm.
    - by eapply latin1_char_eq_small.
    - destruct flags.
      + apply existsb_exists in Hm as (y & Hy%char_range_bounds & Hm).
        eapply latin1_char_eq_small; [done | lia].
      + apply andb_true_iff in Hm as [_ Hm%N.leb_le]. lia. }
  revert x Hsmall Hx.
  assert (forallb (fun x => implb (existsb (item_match L flags x) SECRET_FIRST)
                                  (secret_first_char x)) latin1_range = true)
    as Hall by (destruct flags; by vm_compute).
  intros x Hsmall Hx. rewrite forallb_forall in Hall.
  specialize (Hall x (latin1_range_spec x Hsmall)).
  by rewrite Hx in Hall.
Qed.

(** With the Latin-1 tables a quote character is matched by itself alone. *)
Lemma latin1_quote_eq (flags : bool) (c x : char) :
  c ∈ QUOTES -> char_eq L flags c x = true -> x = c.
Proof.
  intros Hc Hx.
  assert (c < 256)%N as Hcs.
  { unfold QUOTES in Hc. rewrite !elem_of_cons, elem_of_nil in Hc.
    destruct Hc as [->|[->|[->|[]]]]; by vm_compute. }
  pose proof (latin1_char_eq_small _ _ _ Hx Hcs) as Hxs.
  assert (forallb (fun c => forallb (fun x => implb (char_eq L flags c x) (x =? c)%N)
                              latin1_range) QUOTES = true) as Hall
    by (destruct flags; by vm_compute).
  rewrite forallb_forall in Hall.
  apply list_elem_of_In, Hall in Hc. rewrite forallb_forall in Hc.
  specialize (Hc x (latin1_range_spec x Hxs)). rewrite Hx in Hc.
  by apply N.eqb_eq in Hc.
Qed.

Lemma latin1_case_variant (x x' : char) :
  Latin1.lower x = Latin1.lower x' -> case_variant L x x'.
Proof.
  intros Hl.
  destruct (N.lt_ge_cases x 256) as [Hx|Hx].
  - assert (x' < 256)%N as Hx'.
    { pose proof (latin1_lower_bounds x) as [_ H1].
      pose proof (latin1_lower_bounds x') as [H2 _]. specialize (H1 Hx). lia. }
    assert (forallb (fun x => forallb (fun x' =>
              implb (Latin1.lower x =? Latin1.lower x')%N (same_classes x x'))
              latin1_range) latin1_range = true) as Hall by by vm_compute.
    rewrite forallb_forall in Hall.
    specialize (Hall x (latin1_range_spec x Hx)). rewrite forallb_forall in Hall.
    specialize (Hall x' (latin1_range_spec x' Hx')).
    rewrite Hl, N.eqb_refl in Hall. simpl in Hall. unfold same_classes in Hall.
    repeat (apply andb_true_iff in Hall as [Hall ?]).
    repeat match goal with H : eqb _ _ = true |- _ => apply eqb_prop in H end.
    split; [done|]. repeat split; try done.
    + intros ->. apply N.eqb_eq. rewrite <- H. apply N.eqb_refl.
    + intros ->. apply N.eqb_eq. rewrite H. apply N.eqb_refl.
  - assert (256 <= x')%N as Hx'.
    { destruct (N.lt_ge_cases x' 256) as [Hlt|]; [|done].
      pose proof (latin1_lower_bounds x') as [_ H1]. specialize (H1 Hlt).
      rewrite <- Hl, latin1_lower_big in H1 by done. lia. }
    rewrite !latin1_lower_big in Hl by done. subst x'. unfold case_variant. tauto.
Qed.

Lemma latin1_same_lower (s s' : str) :
  str_lower L s = str_lower L s' -> Forall2 (case_variant L) s s'.
Proof.
  simpl. revert s'. induction s as [|x s IH]; intros [|x' s'] H; try done.
  injection H as Hx Hs. constructor; [by apply latin1_case_variant | eauto].
Qed.

(** ** What [analyze_string] yields comes from a family *)
Lemma for_items_candidates (U : Unicode) (string : str) (rs : rule_set)
    (after : bool -> generator) (value : option str) :
  (forall has_results, yielded (after has_results) = []) ->
  forall has_results,
    value ∈ yielded (for_items U string rs has_results after) ->
    exists item, item ∈ rs /\ candidate_of U string item = Some value.
Proof.
  intros Hafter. induction rs as [|[p n] rs IH]; simpl; intros has_results Hv.
  - rewrite Hafter in Hv. by apply elem_of_nil in Hv.
  - destruct (search U p string) as [m|] eqn:Hs.
    + destruct (group m n) as [e|v] eqn:Hg; simpl in Hv.
      * by apply elem_of_nil in Hv.
      * apply elem_of_cons in Hv as [->|Hv].
        -- exists (p, n). split; [left|]. unfold candidate_of. simpl.
           by rewrite Hs, Hg.
        -- destruct (IH _ Hv) as (item & Hin & Hc). exists item.
           split; [by right | done].
    + destruct (IH _ Hv) as (item & Hin & Hc). exists item.
      split; [by right | done].
Qed.

Lemma analyze_string_candidates (U : Unicode) (self : KeywordDetector)
    (string : str) (rs : option rule_set) (value : option str) :
  value ∈ yielded (analyze_string U self string rs) ->
  exists item,
    item ∈ default QUOTES_REQUIRED_DENYLIST_REGEX_TO_GROUP rs
    /\ candidate_of U string item = Some value.
Proof.
  unfold analyze_string.
  destruct (allowlisted U string); [by intros ?%elem_of_nil|].
  destruct (excluded U self string); [by intros ?%elem_of_nil|].
  assert (forall r, value ∈ yielded (for_attempts U string [r] false) ->
            exists item, item ∈ r /\ candidate_of U string item = Some value)
    as Hone.
  { intros r. cbn [for_attempts]. apply for_items_candidates. by intros []. }
  destruct rs as [r|].
  - exact (Hone r).
  - exact (Hone QUOTES_REQUIRED_DENYLIST_REGEX_TO_GROUP).
Qed.

(** ** C1: which families contribute a candidate *)

(** C1, as the specification states it, fails on the code: the statement
    [password="bar";] satisfies three families of the quote-required rule
    set (equals, semicolon-terminated, arrow), and [analyze_string] yields
    a candidate for each of them, not only for the first. *)
Lemma first_match_wins_counterexample :
  filter (fun item => family_matches L line_statement item = true)
         QUOTES_REQUIRED_DENYLIST_REGEX_TO_GROUP
  = [(FOLLOWED_BY_EQUAL_SIGNS_QUOTES_REQUIRED_REGEX, 5);
     (FOLLOWED_BY_QUOTES_AND_SEMICOLON_REGEX, 3);
     (FOLLOWED_BY_ARROW_FUNCTION_SIGN_QUOTES_REQUIRED_REGEX, 4)]
  /\ analyze_string L plain line_statement
       (Some QUOTES_REQUIRED_DENYLIST_REGEX_TO_GROUP)
     = Yield (Some (u "bar")) (Yield (Some (u "bar")) (Yield (Some (u "bar")) Return))
  /\ analyze_string L plain line_statement
       (Some QUOTES_REQUIRED_DENYLIST_REGEX_TO_GROUP)
     <> Yield (Some (u "bar")) Return.
Proof. split; [|split]; [by vm_compute | by vm_compute |]. by vm_compute. Qed.

(** C1, amended: for a line that is neither allowlisted nor excluded,
    [analyze_string] yields, in the order of the rule set, the designated
    group of every family whose expression matches the line: one candidate
    per matching family, and no family is skipped because an earlier one
    matched. *)
Theorem analyze_string_every_matching_family
    (U : Unicode) (self : KeywordDetector) (string : str) (rs : rule_set) :
  allowlisted U string = false ->
  excluded U self string = false ->
  well_indexed rs = true ->
  analyze_string U self string (Some rs)
  = yields (omap (candidate_of U string) rs)
  /\ length (yielded (analyze_string U self string (Some rs)))
     = length (filter (fun item => family_matches U string item = true) rs).
Proof.
  intros Hallow Hexcl Hrs.
  assert (analyze_string U self string (Some rs)
          = yields (omap (candidate_of U string) rs)) as Heq.
  { unfold analyze_string. rewrite Hallow, Hexcl. simpl.
    rewrite for_items_yields by done. unfold yields.
    by destruct (existsb _ rs). }
  split; [done|]. rewrite Heq, <- matching_families_count by done.
  unfold yields. generalize (omap (candidate_of U string) rs) as values.
  induction values; simpl; congruence.
Qed.

Lemma analyze_string_every_matching_family_witness :
  analyze_string L plain line_two_values
    (Some QUOTES_REQUIRED_DENYLIST_REGEX_TO_GROUP)
  = yields [Some (u "foo"); Some (u "bar"); Some (u "bar")]
  /\ length (yielded (analyze_string L plain line_two_values
                        (Some QUOTES_REQUIRED_DENYLIST_REGEX_TO_GROUP)))
     = 3.
Proof.
  exact (analyze_string_every_matching_family L plain line_two_values
           QUOTES_REQUIRED_DENYLIST_REGEX_TO_GROUP
           ltac:(vm_compute; reflexivity) ltac:(vm_compute; reflexivity)
           ltac:(vm_compute; reflexivity)).
Defined.

(** ** C2: the allowlist veto *)

Lemma allowlisted_spec (U : Unicode) (string : str) :
  allowlisted U string = true
  <-> exists allowed before after,
        allowed ∈ ALLOWLIST
        /\ str_lower U string = before ++ str_lower U allowed ++ after.
Proof.
  unfold allowlisted. rewrite existsb_exists. split.
  - intros (allowed & Hin & Hc). apply contains_spec in Hc as (b & a & Hc).
    exists allowed, b, a. by rewrite list_elem_of_In.
  - intros (allowed & b & a & Hin & Hc). exists allowed.
    rewrite <- list_elem_of_In, contains_spec. eauto.
Qed.

(** C2: a line whose lower-cased text contains a lower-cased allowlist
    entry, at any place, gives no candidate: [analyze_string] returns at
    once, for every detector and every rule set, and [analyze_line] gives
    the empty set. *)
Theorem allowlist_veto
    (U : Unicode) (determine_file_type : str -> FileType)
    (self : KeywordDetector) (rs : option rule_set)
    (filename line : str) (line_number : Z) (allowed before after : str) :
  allowed ∈ ALLOWLIST ->
  str_lower U line = before ++ str_lower U allowed ++ after ->
  analyze_string U self line rs = Return
  /\ analyze_line U determine_file_type self filename line line_number = inr [].
Proof.
  intros Hin Hline.
  assert (allowlisted U line = true) as Hveto.
  { apply allowlisted_spec. eauto 6. }
  assert (forall rs', analyze_string U self line rs' = Return) as Hret.
  { intros rs'. unfold analyze_string. by rewrite Hveto. }
  split; [done|].
  unfold analyze_line, BasePlugin_analyze_line. by rewrite Hret.
Qed.

Lemma allowlist_veto_witness :
  analyze_string L plain line_token_endpoint
    (Some CONFIG_DENYLIST_REGEX_TO_GROUP) = Return
  /\ analyze_line L by_suffix plain (u "settings.ini") line_token_endpoint 7
     = inr [].
Proof.
  apply (allowlist_veto L by_suffix plain (Some CONFIG_DENYLIST_REGEX_TO_GROUP)
           (u "settings.ini") line_token_endpoint 7
           (u "tokenendpoint") [] (u "=verysecretvalue")).
  - vm_compute. right. left.
  - vm_compute. reflexivity.
Defined.

(** ** C3: the rule set of a file *)

Lemma unmapped_default (filetype : FileType) :
  filetype ∉ (REGEX_BY_FILETYPE.*1) ->
  rule_set_for filetype = QUOTES_REQUIRED_DENYLIST_REGEX_TO_GROUP.
Proof. apply dict_get_missing. Qed.

Lemma UNKNOWN_unmapped : UNKNOWN ∉ (REGEX_BY_FILETYPE.*1).
Proof. apply (bool_decide_unpack _). by vm_compute. Qed.

(** C3: the rule set [analyze_line] works with is [rule_set_for] applied
    to the category of the file, a function that never sees the line; a
    category that is not a key of the table, as UNKNOWN is not, gets the
    quote-required rule set, the one UNKNOWN gets. *)
Theorem rule_set_by_category
    (U : Unicode) (determine_file_type : str -> FileType)
    (self : KeywordDetector) (filename line : str) (line_number : Z) :
  analyze_line U determine_file_type self filename line line_number
  = BasePlugin_analyze_line U self filename line line_number
      (Some (rule_set_for (determine_file_type filename)))
  /\ (UNKNOWN ∉ (REGEX_BY_FILETYPE.*1))
  /\ (determine_file_type filename ∉ (REGEX_BY_FILETYPE.*1) ->
      rule_set_for (determine_file_type filename)
      = QUOTES_REQUIRED_DENYLIST_REGEX_TO_GROUP
      /\ rule_set_for (determine_file_type filename) = rule_set_for UNKNOWN
      /\ analyze_line U determine_file_type self filename line line_number
         = analyze_line U (fun _ => UNKNOWN) self filename line line_number).
Proof.
  split; [done|]. split; [apply UNKNOWN_unmapped|]. intros Hmiss.
  unfold analyze_line.
  fold (rule_set_for (determine_file_type filename)) (rule_set_for UNKNOWN).
  by rewrite (unmapped_default _ Hmiss), (unmapped_default _ UNKNOWN_unmapped).
Qed.

Lemma rule_set_by_category_witness :
  by_suffix (u "index.php") = OTHER "PHP"
  /\ rule_set_for (by_suffix (u "index.php"))
     = QUOTES_REQUIRED_DENYLIST_REGEX_TO_GROUP
  /\ analyze_line L by_suffix plain (u "index.php") line_statement 3
     = analyze_line L (fun _ => UNKNOWN) plain (u "index.php") line_statement 3.
Proof.
  assert (by_suffix (u "index.php") ∉ (REGEX_BY_FILETYPE.*1)) as Hmiss.
  { apply (bool_decide_unpack _). by vm_compute. }
  destruct (rule_set_by_category L by_suffix plain (u "index.php")
              line_statement 3) as (_ & _ & H).
  destruct (H Hmiss) as (H1 & _ & H3).
  split; [by vm_compute|]. split; [exact H1 | exact H3].
Defined.

(** ** C4: the case of the keyword *)

(** C4 fails for the two families compiled without IGNORECASE.  The
    right-to-left comparison family finds [bar] before [password] and
    nothing before [PASSWORD]; the constructor family finds [bar] after
    [secret(] and nothing after [SECRET(]; a family compiled with
    IGNORECASE, such as the equals family, accepts the upper-case
    keyword. *)
Lemma keyword_case_in_two_families :
  ignorecase PRECEDED_BY_EQUAL_COMPARISON_SIGNS_QUOTES_REQUIRED_REGEX = false
  /\ ignorecase FOLLOWED_BY_OPTIONAL_ASSIGN_QUOTES_REQUIRED_REGEX = false
  /\ analyze_string L plain line_reversed None = Yield (Some (u "bar")) Return
  /\ analyze_string L plain line_reversed_upper None = Return
  /\ analyze_string L plain line_constructor (Some (rule_set_for C_PLUS_PLUS))
     = Yield (Some (u "bar")) Return
  /\ analyze_string L plain line_constructor_upper (Some (rule_set_for C_PLUS_PLUS))
     = Return
  /\ analyze_string L plain line_assign_upper (Some (rule_set_for C_PLUS_PLUS))
     = Yield (Some (u "bar")) Return.
Proof. repeat split; by vm_compute. Qed.

(** *** The families compiled with IGNORECASE *)
Section Case.
Context (U : Unicode) (s s' : str).
Hypothesis Hs : Forall2 (case_variant U) s s'.

Local Abbreviation cont_eq := (fun k k' : cont => forall j m, k j m = k' j m).

Lemma variant_length : length s = length s'.
Proof. by eapply Forall2_length. Qed.

Lemma variant_lookup (i : nat) :
  match s !! i, s' !! i with
  | Some x, Some x' => case_variant U x x'
  | None, None => True
  | _, _ => False
  end.
Proof.
  destruct (s !! i) as [x|] eqn:Hx.
  - destruct (Forall2_lookup_l _ _ _ _ _ Hs Hx) as (x' & -> & Hv). done.
  - apply lookup_ge_None in Hx. rewrite variant_length in Hx.
    apply lookup_ge_None in Hx. by rewrite Hx.
Qed.

Lemma variant_char_eq (c x x' : char) :
  case_variant U x x' -> char_eq U true c x = char_eq U true c x'.
Proof. intros (Hl & _). unfold char_eq. by rewrite Hl. Qed.

Lemma variant_item_match (it : set_item) (x x' : char) :
  case_variant U x x' -> item_match U true x it = item_match U true x' it.
Proof.
  intros Hv. destruct it as [c|lo hi|negated cat]; simpl.
  - by apply variant_char_eq.
  - induction (char_range lo hi) as [|y l IH]; simpl; [done|].
    rewrite IH. f_equal. by apply (variant_char_eq y x x').
  - destruct Hv as (_ & Hw & Hsp & Hd & _).
    destruct cat; simpl; congruence.
Qed.

Lemma variant_one_char (test : char -> bool) i mk (k k' : cont) :
  (forall x x', case_variant U x x' -> test x = test x') ->
  cont_eq k k' ->
  one_char s test i mk k = one_char s' test i mk k'.
Proof.
  intros Ht Hk. unfold one_char. pose proof (variant_lookup i) as Hi.
  destruct (s !! i) as [x|], (s' !! i) as [x'|]; try done.
  rewrite (Ht x x' Hi), Hk. done.
Qed.

Lemma variant_word_at i : word_at U s i = word_at U s' i.
Proof.
  unfold word_at. pose proof (variant_lookup i) as Hi.
  destruct (s !! i) as [x|], (s' !! i) as [x'|]; try done.
  by destruct Hi as (_ & Hw & _).
Qed.

Lemma variant_at_position pos i : at_position U s pos i = at_position U s' pos i.
Proof.
  unfold at_position. rewrite variant_length, !variant_word_at.
  destruct pos; try done.
  - f_equal. f_equal. pose proof (variant_lookup i) as Hi.
    destruct (s !! i) as [x|], (s' !! i) as [x'|]; try done.
    destruct Hi as (_ & _ & _ & _ & Hlf).
    apply bool_decide_ext. split; intros [= ->]; f_equal; tauto.
  - by destruct i; rewrite ?variant_word_at.
Qed.

Lemma variant_same_text n : forall a i,
  same_text U true s a i n = same_text U true s' a i n.
Proof.
  induction n as [|n IH]; simpl; intros a i; [done|].
  pose proof (variant_lookup a) as Ha. pose proof (variant_lookup i) as Hi.
  destruct (s !! a) as [x|], (s' !! a) as [x'|]; try done;
    destruct (s !! i) as [y|], (s' !! i) as [y'|]; try done.
  rewrite IH. f_equal. unfold char_eq.
  destruct Ha as [-> _], Hi as [-> _]. done.
Qed.

Section Bodies.
Variables body body' : nat -> marks -> cont -> option (nat * marks).
Hypothesis Hbody : forall i mk k k', cont_eq k k' -> body i mk k = body' i mk k'.

Lemma variant_repeat_min lo : forall i mk k k',
  cont_eq k k' -> repeat_min body lo i mk k = repeat_min body' lo i mk k'.
Proof.
  induction lo as [|lo IH]; simpl; intros i mk k k' Hk; [apply Hk|].
  apply Hbody. intros j m. by apply IH.
Qed.

Lemma variant_repeat_more greedy n : forall last i mk k k',
  cont_eq k k' ->
  repeat_more body greedy n last i mk k = repeat_more body' greedy n last i mk k'.
Proof.
  induction n as [|n IH]; simpl; intros last i mk k k' Hk; [apply Hk|].
  rewrite (Hk i mk).
  rewrite (Hbody i mk _ (fun j mk' => repeat_more body' greedy n (Some i) j mk' k')).
  - done.
  - intros j m. by apply IH.
Qed.
End Bodies.

Lemma variant_sre_match (r : regex) : forall i mk k k',
  cont_eq k k' -> sre_match U true s r i mk k = sre_match U true s' r i mk k'.
Proof.
  induction r as [|c| |negate items|pos|r1 IH1 r2 IH2|r1 IH1 r2 IH2
                 |lo hi greedy r1 IH1|g r1 IH1|g|r1 IH1];
    simpl; intros i mk k k' Hk.
  - apply Hk.
  - apply variant_one_char; [|done]. intros x x'. apply variant_char_eq.
  - apply variant_one_char; [|done]. intros x x' (_ & _ & _ & _ & Hlf).
    f_equal. destruct (N.eqb_spec x LF), (N.eqb_spec x' LF); tauto.
  - apply variant_one_char; [|done]. intros x x' Hv. f_equal.
    induction items as [|it items IH]; simpl; [done|].
    rewrite IH. f_equal. by apply variant_item_match.
  - rewrite variant_at_position, Hk. done.
  - apply IH1. intros j m. by apply IH2.
  - rewrite (IH1 i mk k k' Hk), (IH2 i mk k k' Hk). done.
  - apply (variant_repeat_min _ _ IH1). intros j m. rewrite variant_length.
    by apply (variant_repeat_more _ _ IH1).
  - apply IH1. intros j m. apply Hk.
  - destruct (get_mark g mk) as [[a b]|]; [|done].
    by rewrite variant_same_text, Hk.
  - rewrite (IH1 i mk _ (fun j mk' => Some (j, mk'))) by done.
    destruct (sre_match U true s' r1 i mk _) as [[? ?]|]; [apply Hk | done].
Qed.

Lemma variant_search_from (r : regex) tries : forall start,
  search_from U true s r start tries = search_from U true s' r start tries.
Proof.
  induction tries as [|tries IH]; simpl; intros start; [done|].
  rewrite (variant_sre_match r start [] _ (fun j mk => Some (j, mk))) by done.
  by rewrite IH.
Qed.
End Case.

Lemma variant_search (U : Unicode) (p : Pattern) (s s' : str) :
  ignorecase p = true -> Forall2 (case_variant U) s s' ->
  search U p s'
  = (fun m => {| m_re := m_re m; m_string := s'; m_span := m_span m;
                 m_marks := m_marks m |}) <$> search U p s.
Proof.
  intros Hp Hs. unfold search.
  rewrite Hp, <- (variant_search_from U s s' Hs), <- (variant_length U s s' Hs).
  by destruct search_from as [[[i j] mk]|].
Qed.

(** A family compiled with IGNORECASE finds its candidate at the same
    place in two lines that differ in case only. *)
Lemma ignorecase_family_ignores_case (U : Unicode) (s s' : str)
    (item : Pattern * nat) :
  ignorecase item.1 = true ->
  Forall2 (case_variant U) s s' ->
  match candidate_of U s item, candidate_of U s' item with
  | Some (Some c), Some (Some c') =>
      exists a b, c = slice s a b /\ c' = slice s' a b
  | Some None, Some None | None, None => True
  | _, _ => False
  end.
Proof.
  intros Hp Hs. unfold candidate_of. rewrite (variant_search U _ s s' Hp Hs).
  destruct (search U item.1 s) as [m|] eqn:Hm; simpl; [|done].
  apply search_re in Hm as Hre. apply search_sound in Hm as (_ & Hstr & _).
  unfold group. simpl. destruct (_ <? _)%nat; [done|].
  destruct item.2 as [|n]; simpl.
  - rewrite Hstr. eauto.
  - destruct (get_mark (S n) (m_marks m)) as [[a b]|]; simpl; [|done].
    rewrite Hstr. eauto.
Qed.

(** On lines of Latin-1 characters, where lower-casing goes character by
    character: a family of the module compiled with IGNORECASE gives, for
    a line whose case was altered, the candidate at the same place; when
    the characters of the candidate were not altered, the same
    candidate. *)
Theorem keyword_case_ignored (s s' : str) (item : Pattern * nat) (c : str) :
  item ∈ rule_items ->
  ignorecase item.1 = true ->
  latin1 s = true -> latin1 s' = true ->
  str_lower L s = str_lower L s' ->
  candidate_of L s item = Some (Some c) ->
  exists a b,
    c = slice s a b
    /\ candidate_of L s' item = Some (Some (slice s' a b))
    /\ ((forall p, a <= p < b -> s' !! p = s !! p) ->
        candidate_of L s' item = Some (Some c)).
Proof.
  intros _ Hp _ _ Hs%latin1_same_lower Hc.
  pose proof (ignorecase_family_ignores_case L s s' item Hp Hs) as H.
  rewrite Hc in H.
  destruct (candidate_of L s' item) as [[c'|]|]; try done.
  destruct H as (a & b & -> & ->). exists a, b. split; [done|]. split; [done|].
  intros Hsame. do 2 f_equal. unfold slice.
  apply list_eq. intros k.
  destruct (decide (k < b - a)) as [Hk|Hk].
  - rewrite !lookup_take_lt, !lookup_drop by done. apply Hsame. lia.
  - by rewrite !lookup_take_ge by lia.
Qed.

Lemma keyword_case_ignored_witness :
  exists a b,
    u "bar" = slice line_assign a b
    /\ candidate_of L line_assign_upper
         (FOLLOWED_BY_EQUAL_SIGNS_QUOTES_REQUIRED_REGEX, 5)
       = Some (Some (slice line_assign_upper a b)).
Proof.
  destruct (keyword_case_ignored line_assign line_assign_upper
              (FOLLOWED_BY_EQUAL_SIGNS_QUOTES_REQUIRED_REGEX, 5) (u "bar")
              ltac:(apply list_elem_of_In; vm_compute; tauto)
              ltac:(vm_compute; reflexivity) ltac:(vm_compute; reflexivity)
              ltac:(vm_compute; reflexivity) ltac:(vm_compute; reflexivity)
              ltac:(vm_compute; reflexivity))
    as (a & b & Ha & Hb & _).
  exists a, b. split; [exact Ha | exact Hb].
Defined.

(** ** C5: the two quotes of a value *)

(** C5 fails for the [data.put] family, which asks for a quote on either
    side of the value without asking for the same one: a value opened by a
    double quote and closed by a single quote is a candidate.  The colon
    family, which refers back to the opening quote, rejects such a value. *)
Lemma data_put_mixed_quotes :
  filter (fun item => family_matches L line_data_put item = true)
         QUOTES_REQUIRED_DENYLIST_REGEX_TO_GROUP
  = [(DATA_PUT_PASSWORD_REGEX, 2)]
  /\ analyze_string L plain line_data_put None = Yield (Some (u "bar")) Return
  /\ analyze_string L plain line_mixed_quotes None = Return.
Proof. repeat split; by vm_compute. Qed.

(** *** The families that refer back to the opening quote *)
Section Quotes.
Context (U : Unicode) (flag_i : bool) (string : str).

Local Abbreviation run := (run U flag_i string).
Local Abbreviation run_all := (run_all U flag_i string).

Lemma run_spine (r : regex) : forall i mk j mk',
  run r i mk j mk' -> run_all (spine r) i mk j mk'.
Proof.
  induction r as [|c| |negate items|pos|r1 _ r2 IH2|r1 _ r2 _
                 |lo hi greedy r1 _|g r1 _|g|r1 _];
    intros i mk j mk' H; try (by exists j, mk').
  - done.
  - destruct H as (m & mkm & H1 & H2). exists m, mkm. eauto.
Qed.

Lemma run_all_app (l1 l2 : list regex) : forall i mk j mk',
  run_all (l1 ++ l2) i mk j mk' ->
  exists m mkm, run_all l1 i mk m mkm /\ run_all l2 m mkm j mk'.
Proof.
  induction l1 as [|r l1 IH]; simpl; intros i mk j mk' H; [eauto|].
  destruct H as (m & mkm & Hr & H).
  destruct (IH _ _ _ _ H) as (m' & mkm' & H1 & H2). eauto 8.
Qed.

Lemma run_all_frame (g : nat) (l : list regex) : forall i mk j mk',
  forallb (fun r => negb (occurs g r)) l = true ->
  run_all l i mk j mk' -> get_mark g mk' = get_mark g mk.
Proof.
  induction l as [|r l IH]; simpl; intros i mk j mk' Hocc H.
  - by destruct H as [_ ->].
  - apply andb_true_iff in Hocc as [Hr%negb_true_iff Hl].
    destruct H as (m & mkm & H1 & H2).
    by rewrite (IH _ _ _ _ Hl H2), (run_frame U flag_i string g r _ _ _ _ Hr H1).
Qed.

Lemma one_of_run (rq : regex) (items : list set_item) i mk j mk' :
  one_of rq = Some items -> run rq i mk j mk' ->
  j = S i /\ mk' = mk
  /\ exists x, string !! i = Some x
               /\ existsb (item_match U flag_i x) items = true.
Proof.
  destruct rq as [| | | | |r1 r2| | | | |]; try done.
  destruct r1 as [|c| |negate its| | | | | | |]; try done.
  - destruct r2; try done. intros [= <-] (m & mkm & ((x & Hx & Hc) & -> & ->) & -> & ->).
    split; [done|]. split; [done|]. exists x. simpl. by rewrite Hc.
  - destruct negate; [done|]. destruct r2; try done.
    intros [= <-] (m & mkm & ((x & Hx & Hc) & -> & ->) & -> & ->). eauto.
Qed.

Lemma same_text_one (a i : nat) (x : char) :
  string !! a = Some x -> same_text U flag_i string a i 1 = true ->
  exists y, string !! i = Some y /\ char_eq U flag_i x y = true.
Proof.
  simpl. intros ->. destruct (string !! i) as [y|]; [|done].
  rewrite andb_true_r. eauto.
Qed.

Lemma bracket_inv (k g : nat) (r : regex) (items : list set_item) :
  bracket k g r = Some items ->
  exists q rq body h rest,
    drop k (spine r)
    = Subpattern (Some q) rq :: Subpattern (Some g) body
        :: Subpattern h (Seq (GroupRef q) Empty) :: rest
    /\ q <> g /\ h <> Some g /\ occurs q body = false
    /\ forallb (fun r' => negb (occurs g r')) rest = true
    /\ one_of rq = Some items.
Proof.
  unfold bracket. intros Hb.
  destruct (drop k (spine r)) as [|r1 [|r2 [|r3 rest]]]; try done;
    destruct r1 as [| | | | | | | |[q|] rq| |]; try done;
    destruct r2 as [| | | | | | | |[g'|] body| |]; try done;
    destruct r3 as [| | | | | | | |h rr| |]; try done.
  destruct rr as [| | | | |rr1 rr2| | | | |]; try done.
  destruct rr1 as [| | | | | | | | |q'|]; try done.
  destruct rr2; try done.
  destruct (_ && _) eqn:Hc in Hb; [|done].
  repeat (apply andb_true_iff in Hc as [Hc ?]).
  repeat match goal with
         | H : bool_decide _ = true |- _ => apply bool_decide_eq_true in H
         | H : negb _ = true |- _ => apply negb_true_iff in H
         end.
  repeat match goal with
         | H : bool_decide _ = false |- _ => apply bool_decide_eq_false in H
         end.
  subst. eauto 15.
Qed.

Lemma bracket_run (k g : nat) (r : regex) (items : list set_item) i mk j mk' :
  bracket k g r = Some items -> run r i mk j mk' ->
  exists a b x y,
    get_mark g mk' = Some (S a, b)
    /\ string !! a = Some x /\ existsb (item_match U flag_i x) items = true
    /\ string !! b = Some y /\ char_eq U flag_i x y = true.
Proof.
  intros (q & rq & body & h & rest & Hd & Hqg & Hh & Hocc & Hrest & Hone)%bracket_inv
         Hrun%run_spine.
  rewrite <- (take_drop k (spine r)), Hd in Hrun.
  apply run_all_app in Hrun as (m0 & mk0 & _ & Hrun).
  destruct Hrun as (m1 & mk1 & (mkq & Hq & ->) & m2 & mk2 & (mkb & Hbody & ->)
                    & m3 & mk3 & (mkr & Href & ->) & Hrun).
  destruct Href as (m & mkm & (a & b & Hmark & Hsame & -> & ->) & -> & ->).
  destruct (one_of_run _ _ _ _ _ _ Hone Hq) as (-> & -> & x & Hx & Hix).
  assert (get_mark q mkb = Some (m0, S m0)) as Hmq.
  { rewrite (run_frame U flag_i string q _ _ _ _ _ Hocc Hbody).
    apply get_mark_set_same. }
  rewrite get_mark_set_other in Hmark by congruence.
  rewrite Hmq in Hmark. injection Hmark as <- <-.
  replace (S m0 - m0) with 1 in Hsame by lia.
  destruct (same_text_one _ _ _ Hx Hsame) as (y & Hy & Hxy).
  exists m0, m2, x, y. split; [|done].
  rewrite (run_all_frame g _ _ _ _ _ Hrest Hrun).
  rewrite get_mark_set_other by done. apply get_mark_set_same.
Qed.

Lemma quote_of_bracket (g : nat) (r : regex) (items : list set_item) :
  quote_of g r = Some items -> exists k, bracket k g r = Some items.
Proof.
  unfold quote_of. intros H.
  destruct (omap _ _) as [|it l] eqn:Ho; [done|]. injection H as ->.
  assert (items ∈ omap (fun k => bracket k g r) (seq 0 (length (spine r))))
    as Hin by (rewrite Ho; left).
  apply list_elem_of_omap in Hin as (k & _ & Hk). eauto.
Qed.
End Quotes.

(** The families that ask for a quote and refer back to it: every family
    of the module but the three that make the quote optional and the
    [data.put] family. *)
Lemma closing_families :
  filter (fun p => existsb (fun g => closes_quote (p, g)) (seq 0 8) = true) families
  = [FOLLOWED_BY_COLON_QUOTES_REQUIRED_REGEX;
     FOLLOWED_BY_EQUAL_SIGNS_OPTIONAL_BRACKETS_OPTIONAL_AT_SIGN_QUOTES_REQUIRED_REGEX;
     FOLLOWED_BY_OPTIONAL_ASSIGN_QUOTES_REQUIRED_REGEX;
     FOLLOWED_BY_EQUAL_SIGNS_QUOTES_REQUIRED_REGEX;
     PRECEDED_BY_EQUAL_COMPARISON_SIGNS_QUOTES_REQUIRED_REGEX;
     FOLLOWED_BY_QUOTES_AND_SEMICOLON_REGEX;
     FOLLOWED_BY_ARROW_FUNCTION_SIGN_QUOTES_REQUIRED_REGEX]
  /\ filter (fun item => closes_quote item = false)
            QUOTES_REQUIRED_DENYLIST_REGEX_TO_GROUP
     = [(DATA_PUT_PASSWORD_REGEX, 2)].
Proof. split; by vm_compute. Qed.



(** ** C6: the colon-equals line under Go and under JSON *)

(** C6: for a file of category GO the line [my_password := "hunter2"]
    gives exactly one candidate, [hunter2], and the colon-equals family is
    the only family of the Go rule set that matches; for a file of category
    JSON, whose rule set has no colon-equals family, the same line gives no
    candidate.  This holds for every detector whose exclusion pattern does
    not match the line. *)
Theorem colon_equals_go_not_json
    (determine_file_type : str -> FileType) (self : KeywordDetector)
    (go_file json_file : str) (line_number : Z) :
  determine_file_type go_file = GO ->
  determine_file_type json_file = JSON ->
  excluded L self line_colon_equals = false ->
  analyze_string L self line_colon_equals (Some (rule_set_for GO))
  = Yield (Some (u "hunter2")) Return
  /\ filter (fun item => family_matches L line_colon_equals item = true)
            (rule_set_for GO)
     = [(FOLLOWED_BY_COLON_EQUAL_SIGNS_REGEX, 4)]
  /\ analyze_line L determine_file_type self go_file line_colon_equals line_number
     = inr [{| ps_type := secret_type; ps_filename := go_file;
               ps_secret := Some (u "hunter2");
               ps_line_number := line_number |}]
  /\ (FOLLOWED_BY_COLON_EQUAL_SIGNS_REGEX ∉ ((rule_set_for JSON).*1))
  /\ analyze_string L self line_colon_equals (Some (rule_set_for JSON)) = Return
  /\ analyze_line L determine_file_type self json_file line_colon_equals line_number
     = inr [].
Proof.
  intros Hgo Hjson Hexcl.
  assert (forall rs, analyze_string L self line_colon_equals (Some rs)
                     = for_attempts L line_colon_equals [rs] false) as Hrun.
  { intros rs. unfold analyze_string. rewrite Hexcl.
    by replace (allowlisted L line_colon_equals) with false by by vm_compute. }
  unfold analyze_line, BasePlugin_analyze_line.
  fold (rule_set_for (determine_file_type go_file))
       (rule_set_for (determine_file_type json_file)).
  rewrite Hgo, Hjson, !Hrun.
  repeat split; try by vm_compute.
  apply (bool_decide_unpack _). by vm_compute.
Qed.

Lemma colon_equals_go_not_json_witness :
  analyze_line L by_suffix plain (u "main.go") line_colon_equals 12
  = inr [{| ps_type := secret_type; ps_filename := u "main.go";
            ps_secret := Some (u "hunter2"); ps_line_number := 12 |}]
  /\ analyze_line L by_suffix plain (u "config.json") line_colon_equals 12
     = inr [].
Proof.
  destruct (colon_equals_go_not_json by_suffix plain (u "main.go")
              (u "config.json") 12
              ltac:(vm_compute; reflexivity) ltac:(vm_compute; reflexivity)
              ltac:(vm_compute; reflexivity))
    as (_ & _ & Hgo & _ & _ & Hjson).
  split; [exact Hgo | exact Hjson].
Defined.

(** ** C7: the characters of a candidate *)

(** C7 fails for line feeds: [\v] in a pattern of [re] is the vertical
    tab alone, so the secret body accepts a line feed, inside and as its
    last character.  A configuration line read with its line end gives a
    candidate that ends in the line feed. *)
Lemma candidate_with_line_feed :
  analyze_string L plain line_with_newline (Some (rule_set_for YAML))
  = Yield (Some (u "abc" ++ [LF])) Return
  /\ last (u "abc" ++ [LF]) = Some LF
  /\ analyze_string L plain line_quoted_newline None
     = Yield (Some (u "abc" ++ [LF])) (Yield (Some (u "abc" ++ [LF])) Return).
Proof. repeat split; by vm_compute. Qed.

(** *** The shape that the secret-body fragment gives *)
Section Shape.
Context (U : Unicode) (flag_i : bool) (string : str).

Local Abbreviation runs := (run U flag_i string).

Lemma char_eq_refl (c : char) : char_eq U flag_i c c = true.
Proof. unfold char_eq. destruct flag_i; apply N.eqb_refl. Qed.

(** A negated set of literals rejects each of them. *)
Lemma negated_set_rejects (x : char) (cs : list char) :
  xorb true (existsb (item_match U flag_i x) (ItemLiteral <$> cs)) = true ->
  x ∉ cs.
Proof.
  intros Hx Hin. apply negb_true_iff, not_true_iff_false in Hx. apply Hx.
  apply existsb_exists. exists (ItemLiteral x). split.
  - apply list_elem_of_In, list_elem_of_fmap. eauto.
  - apply char_eq_refl.
Qed.

Lemma iter_set (negate : bool) (items : list set_item) i mk j mk' :
  iter (runs (In negate items)) i mk j mk' ->
  mk' = mk /\ i <= j
  /\ forall p, i <= p < j ->
       exists x, string !! p = Some x
                 /\ xorb negate (existsb (item_match U flag_i x) items) = true.
Proof.
  induction 1 as [|i mk j mk' k mk'' Hstep _ IH].
  - split; [done|]. split; [done|]. intros p Hp. lia.
  - destruct Hstep as ((x & Hx & Ht) & -> & ->).
    destruct IH as (-> & Hle & IH). split; [done|]. split; [lia|].
    intros p Hp. destruct (decide (p = i)) as [->|Hne]; [eauto|].
    apply IH. lia.
Qed.

Lemma secret_run a mka b mkb :
  runs SECRET_code a mka b mkb ->
  a < b
  /\ (exists x, string !! a = Some x
                /\ existsb (item_match U flag_i x) SECRET_FIRST = true)
  /\ (forall p, a <= p < b -> exists x, string !! p = Some x /\ x ∉ SECRET_NEVER)
  /\ (exists y, string !! (b - 1) = Some y /\ y ∉ SECRET_NEVER_LAST).
Proof.
  replace SECRET_code with
    (Seq (Assert (Seq (Repeat 0 None true
                         (In true (ItemLiteral <$> SECRET_NEVER))) Empty))
       (Seq (Assert (Seq (In false SECRET_FIRST) Empty))
          (Seq (Repeat 0 None true (In true (ItemLiteral <$> SECRET_NEVER)))
             (Seq (In true (ItemLiteral <$> SECRET_NEVER_LAST)) Empty))))
    by by vm_compute.
  cbn [run].
  intros (m1 & mk1 & (_ & _ & ->) & m2 & mk2 & Hfirst & m3 & mk3 & Hinner
          & m4 & mk4 & Hlast & -> & ->).
  destruct Hfirst as (m & (m' & mk' & ((x & Hx & Hfx) & _ & _) & _) & ->).
  apply iter_set in Hinner as (-> & Hle & Hinner).
  destruct Hlast as ((y & Hy & Hly) & -> & ->).
  simpl in Hfx. split; [lia|]. split; [eauto|]. split.
  - intros p Hp. destruct (decide (p = m3)) as [->|Hne].
    + exists y. split; [done|]. intros Hin.
      apply (negated_set_rejects _ _ Hly).
      revert Hin. unfold SECRET_NEVER, SECRET_NEVER_LAST.
      rewrite !elem_of_cons, !elem_of_nil. tauto.
    + destruct (Hinner p) as (z & Hz & Hnz); [lia|].
      exists z. split; [done|]. by apply negated_set_rejects.
  - exists y. replace (S m3 - 1) with m3 by lia.
    split; [done|]. by apply negated_set_rejects.
Qed.

Lemma slice_lookup (a b k : nat) :
  k < b - a -> slice string a b !! k = string !! (a + k).
Proof.
  intros Hk. unfold slice. by rewrite lookup_take_lt, lookup_drop.
Qed.

Lemma slice_length (a b : nat) :
  b <= length string -> length (slice string a b) = b - a.
Proof. intros Hb. unfold slice. rewrite length_take, length_drop. lia. Qed.

Lemma secret_slice a mka b mkb :
  runs SECRET_code a mka b mkb -> secret_shape U flag_i (slice string a b).
Proof.
  intros (Hab & (x & Hx & Hfx) & Hall & (y & Hy & Hly))%secret_run.
  assert (b <= length string) as Hb.
  { apply lookup_lt_Some in Hy. lia. }
  assert (length (slice string a b) = b - a) as Hlen by by apply slice_length.
  split; [|split; [|split]].
  - intros Hnil. rewrite Hnil in Hlen. simpl in Hlen. lia.
  - exists x. split; [|done].
    rewrite head_lookup, slice_lookup by lia. by rewrite Nat.add_0_r.
  - apply Forall_lookup. intros k z Hk.
    assert (k < b - a) as Hlt.
    { apply lookup_lt_Some in Hk. lia. }
    rewrite slice_lookup in Hk by done.
    destruct (Hall (a + k)) as (z' & Hz' & Hnz); [lia|]. congruence.
  - exists y. split; [|done].
    rewrite last_lookup, Hlen, slice_lookup by lia.
    rewrite <- Hy. f_equal. lia.
Qed.
End Shape.

Lemma rule_items_hold_secret :
  Forall (fun item => holds_secret item = true) rule_items.
Proof.
  apply Forall_forall. intros item Hin%list_elem_of_In. revert item Hin.
  apply forallb_forall. by vm_compute.
Qed.

(** Every candidate of every family of the module has the shape the
    secret-body fragment gives it, whatever the line. *)
Lemma candidate_shape (U : Unicode) (string : str) (item : Pattern * nat)
    (value : option str) :
  item ∈ rule_items ->
  candidate_of U string item = Some value ->
  exists s, value = Some s /\ secret_shape U (ignorecase item.1) s.
Proof.
  intros Hin Hc.
  pose proof rule_items_hold_secret as Hall.
  rewrite Forall_forall in Hall. apply Hall in Hin as Hitem. clear Hall.
  destruct item as [p n]. unfold holds_secret in Hitem. simpl in *.
  apply andb_true_iff in Hitem as [[Hbody Hpos]%andb_true_iff Hle].
  apply bool_decide_eq_true in Hbody. apply Nat.ltb_lt in Hpos.
  apply Nat.leb_le in Hle.
  unfold candidate_of in Hc. simpl in Hc.
  destruct (search U p string) as [m|] eqn:Hs; [|done].
  apply search_sound in Hs as (Hre & Hstr & Hrun).
  destruct (body_of_run U (ignorecase p) string n (code p) _ _ _ _ _ Hbody Hrun)
    as (a & b & mka & mkb & Hsecret & Hmark).
  unfold group in Hc. rewrite Hre in Hc.
  destruct (Nat.ltb_spec (groups p) n) as [?|_]; [lia|].
  destruct n as [|n]; [lia|]. rewrite Hmark, Hstr in Hc. simpl in Hc.
  injection Hc as <-. eexists. split; [done|].
  by eapply secret_slice.
Qed.

(** Whatever the tables, the detector, the line and the rule set of the
    module: every value that [analyze_string] yields is a text, and the
    text has the shape of the secret-body fragment. *)
Lemma candidates_have_secret_shape (U : Unicode) (self : KeywordDetector)
    (string : str) (rs : option rule_set) (value : option str) :
  default QUOTES_REQUIRED_DENYLIST_REGEX_TO_GROUP rs ∈ rule_sets ->
  value ∈ yielded (analyze_string U self string rs) ->
  exists s flags, value = Some s /\ secret_shape U flags s.
Proof.
  intros Hrs (item & Hin & Hc)%analyze_string_candidates.
  destruct (candidate_shape U string item value) as (s & -> & Hs); [|done|eauto].
  apply list_elem_of_join. eauto.
Qed.

(** On a line of Latin-1 characters: a candidate is not empty, begins
    with an ASCII letter, a digit or one of [_ ! @ # % ^ &] (so never with
    a dollar sign), holds no vertical tab and no single or double quote,
    and does not end in a vertical tab, a comma, a backtick or a quote.
    (Above Latin-1 the first character can also be one that
    [re.IGNORECASE] takes for a letter, such as U+212A.) *)
Theorem candidates_well_shaped (self : KeywordDetector) (string : str)
    (rs : option rule_set) (value : option str) :
  default QUOTES_REQUIRED_DENYLIST_REGEX_TO_GROUP rs ∈ rule_sets ->
  latin1 string = true ->
  value ∈ yielded (analyze_string L self string rs) ->
  exists s,
    value = Some s
    /\ s <> []
    /\ (exists x, head s = Some x /\ secret_first_char x = true
                  /\ x <> ch "$")
    /\ Forall (fun x => x ∉ SECRET_NEVER) s
    /\ (exists y, last s = Some y /\ y ∉ SECRET_NEVER_LAST).
Proof.
  intros Hrs _ Hv.
  destruct (candidates_have_secret_shape L self string rs value Hrs Hv)
    as (s & flags & -> & Hne & (x & Hx & Hfx) & Hall & Hlast).
  exists s. repeat split; try done.
  apply first_set_latin1 in Hfx. exists x. repeat split; try done.
  intros ->. by vm_compute in Hfx.
Qed.

Lemma candidates_well_shaped_witness :
  exists s,
    Some (u "hunter2") = Some s
    /\ s <> []
    /\ (exists x, head s = Some x /\ secret_first_char x = true
                  /\ x <> ch "$")
    /\ Forall (fun x => x ∉ SECRET_NEVER) s
    /\ (exists y, last s = Some y /\ y ∉ SECRET_NEVER_LAST).
Proof.
  apply (candidates_well_shaped plain line_colon_equals
           (Some GOLANG_DENYLIST_REGEX_TO_GROUP)).
  - vm_compute. right. left.
  - vm_compute. reflexivity.
  - vm_compute. left.
Defined.

(** ** C8 and C10: the exclusion pattern *)

Lemma re_compile_fields (text : str) (flags : bool) (p : Pattern) :
  re_compile text flags = Some p -> pattern p = text /\ ignorecase p = flags.
Proof.
  unfold re_compile.
  destruct Parser.parse_branch as [[[r [|? ?]] g]|]; [|done..].
  by intros [= <-].
Qed.

Lemma json_keyword_exclude (base : gmap string str) (self : KeywordDetector) :
  base !! "keyword_exclude"%string = None ->
  json base self !! "keyword_exclude"%string
  = Some (match keyword_exclude self with Some p => pattern p | None => [] end).
Proof.
  intros Hbase. unfold json.
  by rewrite lookup_union_r, lookup_singleton_eq.
Qed.

(** The constructor over the parser of this development is the general
    constructor at that compile function, which keeps the pattern text. *)
Lemma init_over_parser (text : option str) :
  __init__ text = __init__with re_compile text.
Proof. done. Qed.

Lemma re_compile_keeps_pattern : keeps_pattern re_compile.
Proof. intros text flags p Hp. by destruct (re_compile_fields _ _ _ Hp). Qed.

(** What the constructor has built when it succeeds: with a text that is
    not empty, the detector holds the pattern compiled from that text;
    with the empty text or none, it holds no pattern. *)
Lemma init_with_built (compile : str -> bool -> option Pattern)
    (text : option str) (self : KeywordDetector) :
  keeps_pattern compile ->
  __init__with compile text = inr self ->
  match keyword_exclude self with
  | Some p => text = Some (pattern p) /\ pattern p <> []
              /\ compile (pattern p) IGNORECASE = Some p
  | None => default [] text = []
  end.
Proof.
  intros Hk Hinit. destruct text as [[|c text]|]; simpl in Hinit.
  - by injection Hinit as <-.
  - destruct (compile (c :: text) IGNORECASE) as [p|] eqn:Hp; [|done].
    injection Hinit as <-. simpl. by rewrite (Hk _ _ _ Hp).
  - by injection Hinit as <-.
Qed.

(** C8: a detector built by the constructor is rebuilt from the
    [keyword_exclude] entry of its [json()]: the constructor accepts the
    entry and gives the same detector again, which therefore yields the
    same candidates on every line and rule set.  This holds for every
    exclusion text the constructor accepts, in whatever syntax of [re] it
    is written: of [re.compile] the proof uses only that the compiled
    pattern keeps its text. *)
Theorem json_round_trip
    (compile : str -> bool -> option Pattern) (U : Unicode)
    (base : gmap string str) (text : option str) (self : KeywordDetector) :
  keeps_pattern compile ->
  base !! "keyword_exclude"%string = None ->
  __init__with compile text = inr self ->
  exists again,
    __init__with compile (json base self !! "keyword_exclude"%string)
    = inr again
    /\ again = self
    /\ forall string rs,
         analyze_string U again string rs = analyze_string U self string rs.
Proof.
  intros Hk Hbase Hinit. exists self. split; [|done].
  rewrite json_keyword_exclude by done.
  pose proof (init_with_built compile text self Hk Hinit) as Hbuilt.
  destruct self as [[p|]]; simpl in *; [|done].
  destruct Hbuilt as (_ & Hne & Hp).
  destruct (pattern p) as [|c rest]; [done|]. by rewrite Hp.
Qed.

Lemma json_round_trip_witness :
  exists again,
    __init__with re_compile
      (json base_entries (excluding (u "fake|dummy"))
         !! "keyword_exclude"%string) = inr again
    /\ again = excluding (u "fake|dummy")
    /\ forall string rs,
         analyze_string L again string rs
         = analyze_string L (excluding (u "fake|dummy")) string rs.
Proof.
  apply (json_round_trip re_compile L base_entries (Some (u "fake|dummy"))).
  - exact re_compile_keeps_pattern.
  - vm_compute. reflexivity.
  - vm_compute. reflexivity.
Defined.

(** C10: the constructor gives the same detector for the empty string as
    for no exclusion pattern: [keyword_exclude] is None, the exclusion
    check suppresses no line, [analyze_string] agrees on every input, and
    [json()] writes the empty string. *)
Theorem empty_exclusion_is_none
    (U : Unicode) (base : gmap string str) (empty absent : KeywordDetector) :
  base !! "keyword_exclude"%string = None ->
  __init__ (Some []) = inr empty ->
  __init__ None = inr absent ->
  empty = absent
  /\ keyword_exclude empty = None
  /\ keyword_exclude absent = None
  /\ (forall string, excluded U empty string = false)
  /\ (forall string rs,
        analyze_string U empty string rs = analyze_string U absent string rs)
  /\ json base empty !! "keyword_exclude"%string = Some []
  /\ json base absent !! "keyword_exclude"%string = Some [].
Proof.
  intros Hbase [= <-] [= <-].
  rewrite json_keyword_exclude by done. by repeat split.
Qed.

Lemma empty_exclusion_is_none_witness :
  keyword_exclude plain = None
  /\ (forall string rs,
        analyze_string L plain string rs = analyze_string L plain string rs)
  /\ json base_entries plain !! "keyword_exclude"%string = Some [].
Proof.
  destruct (empty_exclusion_is_none L base_entries plain plain
              ltac:(vm_compute; reflexivity) eq_refl eq_refl)
    as (_ & H1 & _ & _ & H2 & H3 & _).
  split; [exact H1|]. split; [exact H2 | exact H3].
Defined.

(** ** C9: verification *)

(** C9: [verify] gives VERIFIED_FALSE exactly when the authority answered
    with a status of the authentication-failure class; an unreachable
    authority, a timeout and an unexpected status give UNVERIFIED; and a
    candidate given as bytes is judged as its text is. *)
Theorem verify_false_needs_rejection
    (decode : list Byte.byte -> str) (post : str -> response)
    (classify : Z -> status_class) (secret : candidate) :
  (verify decode post classify secret = VERIFIED_FALSE
   <-> exists code, post (credential decode secret) = Status code
                    /\ classify code = AUTH_FAILURE)
  /\ (post (credential decode secret) = Unreachable
      \/ post (credential decode secret) = TimedOut
      \/ (exists code, post (credential decode secret) = Status code
                       /\ classify code = UNEXPECTED) ->
      verify decode post classify secret = UNVERIFIED)
  /\ (forall b, verify decode post classify (Raw b)
                = verify decode post classify (Text (decode b))).
Proof.
  unfold verify. split; [|split].
  - destruct (post (credential decode secret)) as [code| |] eqn:Hp.
    + destruct (classify code) eqn:Hc; split; try done.
      * intros (code' & [= <-] & Hc'). congruence.
      * intros _. eauto.
      * intros (code' & [= <-] & Hc'). congruence.
    + split; [done | intros (code & ? & _); done].
    + split; [done | intros (code & ? & _); done].
  - intros [-> | [-> | (code & -> & ->)]]; done.
  - done.
Qed.

Lemma verify_false_needs_rejection_witness :
  verify decode_ascii (fun _ => Status 400) http_class (Text CLOUD_IAM_KEY)
  = VERIFIED_FALSE
  /\ verify decode_ascii (fun _ => Status 400) http_class (Raw CLOUD_IAM_KEY_BYTES)
     = VERIFIED_FALSE
  /\ verify decode_ascii (fun _ => Unreachable) http_class (Text CLOUD_IAM_KEY)
     = UNVERIFIED
  /\ verify decode_ascii (fun _ => Status 503) http_class (Text CLOUD_IAM_KEY)
     = UNVERIFIED.
Proof.
  split; [|split; [|split]].
  - apply (proj1 (verify_false_needs_rejection decode_ascii
                    (fun _ => Status 400) http_class (Text CLOUD_IAM_KEY))).
    exists 400%Z. by vm_compute.
  - apply (proj1 (verify_false_needs_rejection decode_ascii
                    (fun _ => Status 400) http_class (Raw CLOUD_IAM_KEY_BYTES))).
    exists 400%Z. by vm_compute.
  - apply (proj1 (proj2 (verify_false_needs_rejection decode_ascii
                    (fun _ => Unreachable) http_class (Text CLOUD_IAM_KEY)))).
    by left.
  - apply (proj1 (proj2 (verify_false_needs_rejection decode_ascii
                    (fun _ => Status 503) http_class (Text CLOUD_IAM_KEY)))).
    right. right. exists 503%Z. by vm_compute.
Defined.

(** * Further properties of the detector *)

(** ** A line without a keyword gives nothing *)
Section Needs.
Context (U : Unicode) (flag_i : bool) (string : str).

Local Abbreviation runs := (run U flag_i string).

Lemma literal_prefix_run (r : regex) : forall i mk j mk' k c,
  runs r i mk j mk' -> literal_prefix r !! k = Some c ->
  exists x, string !! (i + k) = Some x /\ char_eq U flag_i c x = true.
Proof.
  induction r as [|c0| |negate items|pos|r1 _ r2 IH2|r1 _ r2 _
                 |lo hi greedy r1 _|g r1 _|g|r1 _];
    intros i mk j mk' k c Hrun Hk; try done.
  - destruct k as [|k]; [|done]. injection Hk as <-.
    destruct Hrun as ((x & Hx & Hc) & _). rewrite Nat.add_0_r. eauto.
  - destruct r1 as [|c1| | | | | | | | |]; try done.
    destruct Hrun as (m & mkm & ((x & Hx & Hc) & -> & ->) & H2).
    destruct k as [|k]; simpl in Hk.
    + injection Hk as <-. rewrite Nat.add_0_r. eauto.
    + replace (i + S k) with (S i + k) by lia. eauto.
Qed.

Lemma needs_eq (stems : list str) (r : regex) :
  needs stems r
  = existsb (fun stem => startswith stem (literal_prefix r)) stems
    || match r with
       | Seq r1 r2 => needs stems r1 || needs stems r2
       | Branch r1 r2 => needs stems r1 && needs stems r2
       | Subpattern _ r1 => needs stems r1
       | _ => false
       end.
Proof. by destruct r. Qed.

(** A run of a pattern that needs a stem goes over the stem, character by
    character. *)
Lemma needs_run (stems : list str) (r : regex) : forall i mk j mk',
  needs stems r = true -> runs r i mk j mk' ->
  exists stem a,
    stem ∈ stems
    /\ forall k c, stem !! k = Some c ->
         exists x, string !! (a + k) = Some x /\ char_eq U flag_i c x = true.
Proof.
  assert (forall r i mk j mk',
            existsb (fun stem => startswith stem (literal_prefix r)) stems = true ->
            runs r i mk j mk' ->
            exists stem a,
              stem ∈ stems
              /\ forall k c, stem !! k = Some c ->
                   exists x, string !! (a + k) = Some x
                             /\ char_eq U flag_i c x = true) as Hprefix.
  { intros r0 i mk j mk' (stem & Hin & [rest Hst]%startswith_spec)%existsb_exists Hrun.
    exists stem, i. split; [by apply list_elem_of_In|].
    intros k c Hk. eapply literal_prefix_run; [done|].
    rewrite Hst. by apply lookup_app_l_Some. }
  induction r as [|c0| |negate items|pos|r1 IH1 r2 IH2|r1 IH1 r2 IH2
                 |lo hi greedy r1 _|g r1 IH1|g|r1 _];
    intros i mk j mk'; rewrite needs_eq;
    intros [Hp|Hn]%orb_true_iff Hrun; eauto; try done.
  - destruct Hrun as (m & mkm & H1 & H2).
    apply orb_true_iff in Hn as [Hn|Hn]; eauto.
  - apply andb_true_iff in Hn as [Hn1 Hn2]. destruct Hrun; eauto.
  - destruct Hrun as (mk1 & H1 & _). eauto.
Qed.
End Needs.

Lemma latin1_char_eq_lower (flags : bool) (c x : char) :
  Latin1.lower c = c -> char_eq L flags c x = true -> Latin1.lower x = c.
Proof.
  unfold char_eq. destruct flags; intros Hc H%N.eqb_eq; simpl in *; congruence.
Qed.

Lemma startswith_at (stem l : str) : forall a,
  (forall k c, stem !! k = Some c -> l !! (a + k) = Some c) ->
  exists rest, drop a l = stem ++ rest.
Proof.
  induction stem as [|c stem IH]; intros a H; [by exists (drop a l)|].
  destruct (IH (S a)) as [rest Hrest].
  { intros k c' Hk. replace (S a + k) with (a + S k) by lia. by apply H. }
  exists rest. rewrite (drop_S l c a).
  - by rewrite Hrest.
  - rewrite <- (Nat.add_0_r a). by apply H.
Qed.

Lemma keyword_stems_lower :
  Forall (Forall (fun c => Latin1.lower c = c)) KEYWORD_STEMS.
Proof. repeat constructor. Qed.

(** Every family of the module needs a stem. *)
Lemma rule_items_need_keyword :
  Forall (fun item => needs KEYWORD_STEMS (code item.1) = true) rule_items.
Proof.
  apply Forall_forall. intros item Hin%list_elem_of_In. revert item Hin.
  apply forallb_forall. by vm_compute.
Qed.

Lemma family_names_keyword (string : str) (item : Pattern * nat) :
  item ∈ rule_items -> is_Some (search L item.1 string) ->
  names_keyword L string = true.
Proof.
  intros Hin [m Hm].
  pose proof rule_items_need_keyword as Hall.
  rewrite Forall_forall in Hall. apply Hall in Hin as Hneeds. clear Hall.
  apply search_sound in Hm as (_ & _ & Hrun).
  destruct (needs_run L _ string _ _ _ _ _ _ Hneeds Hrun) as (stem & a & Hstem & Hat).
  unfold names_keyword. apply existsb_exists. exists stem.
  split; [by apply list_elem_of_In|].
  apply contains_spec.
  destruct (startswith_at stem (str_lower L string) a) as [rest Hrest].
  { intros k c Hk. destruct (Hat k c Hk) as (x & Hx & Hc).
    simpl. rewrite list_lookup_fmap, Hx. simpl. f_equal.
    apply (latin1_char_eq_lower _ _ _) in Hc; [done|].
    pose proof keyword_stems_lower as Hlow.
    rewrite Forall_forall in Hlow. specialize (Hlow stem Hstem).
    rewrite Forall_forall in Hlow. apply Hlow. by eapply list_elem_of_lookup_2. }
  exists (take a (str_lower L string)), rest.
  by rewrite <- Hrest, take_drop.
Qed.

Lemma for_items_none (U : Unicode) (string : str) (rs : rule_set)
    (has_results : bool) (after : bool -> generator) :
  (forall item, item ∈ rs -> search U item.1 string = None) ->
  for_items U string rs has_results after = after has_results.
Proof.
  induction rs as [|[p n] rs IH]; intros Hall; [done|]. cbn [for_items].
  assert (search U p string = None) as -> by (apply (Hall (p, n)); left).
  apply IH. intros item Hin. apply Hall. by right.
Qed.

(** Whatever the detector and the rule set of the module: a line of
    Latin-1 characters that, lower-cased, holds none of [key], [pass],
    [token], [pwd], [secret], [contrase] yields nothing. *)
Theorem no_keyword_no_candidate (self : KeywordDetector) (string : str)
    (rs : option rule_set) :
  default QUOTES_REQUIRED_DENYLIST_REGEX_TO_GROUP rs ∈ rule_sets ->
  latin1 string = true ->
  names_keyword L string = false ->
  analyze_string L self string rs = Return.
Proof.
  intros Hrs _ Hno. unfold analyze_string.
  destruct (allowlisted L string); [done|].
  destruct (excluded L self string); [done|].
  assert (forall r, r ∈ rule_sets -> for_attempts L string [r] false = Return)
    as Hone.
  { intros r Hr. cbn [for_attempts]. rewrite for_items_none; [done|].
    intros item Hin.
    destruct (search L item.1 string) as [m|] eqn:Hm; [|done].
    rewrite (family_names_keyword string item) in Hno; [done| |by rewrite Hm].
    apply list_elem_of_join. eauto. }
  destruct rs as [r|]; by apply Hone.
Qed.

Lemma no_keyword_no_candidate_witness :
  analyze_string L plain line_no_keyword None = Return.
Proof.
  apply no_keyword_no_candidate.
  - vm_compute. do 4 right. left.
  - vm_compute. reflexivity.
  - vm_compute. reflexivity.
Defined.

(** ** A group number that the pattern has not *)

Lemma for_items_app (U : Unicode) (string : str)
    (before rest : rule_set) (after : bool -> generator) :
  well_indexed before = true ->
  forall has_results,
    for_items U string (before ++ rest) has_results after
    = foldr Yield
        (for_items U string rest
           (has_results || existsb (family_matches U string) before) after)
        (omap (candidate_of U string) before).
Proof.
  induction before as [|[p n] before IH]; intros Hwi has_results.
  - simpl. by rewrite orb_false_r.
  - apply andb_true_iff in Hwi as [Hn%Nat.leb_le Hwi]. simpl in Hn.
    cbn [app for_items existsb omap list_omap].
    unfold family_matches at 1, candidate_of at 1. cbn [fst snd].
    destruct (search U p string) as [m|] eqn:Hs.
    + destruct (group_in_range m n) as [value Hv].
      { by rewrite (search_re _ _ _ _ Hs). }
      rewrite Hv. cbn [foldr]. rewrite (IH Hwi true).
      rewrite bool_decide_eq_true_2 by eauto. by rewrite orb_true_r.
    + rewrite (IH Hwi has_results).
      rewrite bool_decide_eq_false_2 by (by intros [? ?]). done.
Qed.

Lemma group_out_of_range (m : Match) (n : nat) :
  groups (m_re m) < n -> group m n = inl IndexError.
Proof.
  intros Hn. unfold group.
  by destruct (Nat.ltb_spec (groups (m_re m)) n) as [_|?]; [|lia].
Qed.

(** A rule set given by the caller with a group number that its pattern
    has not: on a line that the pattern matches, [analyze_string] yields
    the candidates of the families before it and raises IndexError, and
    the families after it are not tried; on a line that the pattern does
    not match, the wrong number goes unnoticed. *)
Theorem group_out_of_range_raises
    (U : Unicode) (self : KeywordDetector) (string : str)
    (before after : rule_set) (p : Pattern) (n : nat) :
  allowlisted U string = false ->
  excluded U self string = false ->
  well_indexed before = true ->
  groups p < n ->
  (family_matches U string (p, n) = true ->
   analyze_string U self string (Some (before ++ (p, n) :: after))
   = foldr Yield (Raise IndexError) (omap (candidate_of U string) before))
  /\ (family_matches U string (p, n) = false ->
      analyze_string U self string (Some (before ++ (p, n) :: after))
      = analyze_string U self string (Some (before ++ after))).
Proof.
  intros Hallow Hexcl Hwi Hn. unfold analyze_string. rewrite Hallow, Hexcl.
  cbn [for_attempts]. rewrite !for_items_app by done.
  unfold family_matches at 1 3. cbn [fst snd for_items].
  split; intros Hm.
  - apply bool_decide_eq_true in Hm as [m Hm]. rewrite Hm.
    rewrite group_out_of_range; [done|]. by rewrite (search_re _ _ _ _ Hm).
  - apply bool_decide_eq_false in Hm.
    destruct (search U p string) as [m|]; [|done].
    exfalso. apply Hm. eauto.
Qed.

Lemma group_out_of_range_raises_witness :
  analyze_string L plain line_statement
    (Some [(FOLLOWED_BY_EQUAL_SIGNS_QUOTES_REQUIRED_REGEX, 5);
           (FOLLOWED_BY_QUOTES_AND_SEMICOLON_REGEX, 9);
           (FOLLOWED_BY_ARROW_FUNCTION_SIGN_QUOTES_REQUIRED_REGEX, 4)])
  = Yield (Some (u "bar")) (Raise IndexError).
Proof.
  pose proof (proj1 (group_out_of_range_raises L plain line_statement
                [(FOLLOWED_BY_EQUAL_SIGNS_QUOTES_REQUIRED_REGEX, 5)]
                [(FOLLOWED_BY_ARROW_FUNCTION_SIGN_QUOTES_REQUIRED_REGEX, 4)]
                FOLLOWED_BY_QUOTES_AND_SEMICOLON_REGEX 9
                ltac:(vm_compute; reflexivity) ltac:(vm_compute; reflexivity)
                ltac:(vm_compute; reflexivity) ltac:(vm_compute; lia))
              ltac:(vm_compute; reflexivity)) as H.
  cbn [app] in H. rewrite H. by vm_compute.
Defined.

(** ** The exclusion pattern and the case of the line *)

(** The exclusion pattern is compiled with IGNORECASE.  For an exclusion
    text of Latin-1 characters in the syntax that the parser reads, which
    has no inline flag to switch the case of a part back on, and two lines
    of Latin-1 characters that differ in the case of their letters only:
    the detector excludes both or neither, and an excluded line yields
    nothing.  (A text such as [(?-i:fake)], outside that syntax, excludes
    [fake] and not [FAKE].) *)
Theorem exclusion_ignores_case (text : option str) (self : KeywordDetector)
    (s s' : str) (rs : option rule_set) :
  __init__ text = inr self ->
  latin1 (default [] text) = true ->
  latin1 s = true -> latin1 s' = true ->
  str_lower L s = str_lower L s' ->
  excluded L self s' = excluded L self s
  /\ (excluded L self s = true -> analyze_string L self s' rs = Return).
Proof.
  intros Hinit _ _ _ Hs.
  assert (excluded L self s' = excluded L self s) as Heq.
  { unfold excluded.
    destruct (keyword_exclude self) as [p|] eqn:Hp; [|done].
    assert (ignorecase p = true) as Hi.
    { destruct text as [[|c text]|]; simpl in Hinit;
        try (injection Hinit as <-; discriminate).
      destruct (re_compile (c :: text) IGNORECASE) as [p'|] eqn:Hc; [|done].
      injection Hinit as <-. injection Hp as ->.
      by destruct (re_compile_fields _ _ _ Hc) as [_ ->]. }
    rewrite (variant_search L p s s' Hi (latin1_same_lower s s' Hs)).
    by destruct (search L p s). }
  split; [done|]. intros He. unfold analyze_string.
  destruct (allowlisted L s'); [done|]. by rewrite Heq, He.
Qed.

Lemma exclusion_ignores_case_witness :
  excluded L (excluding (u "fake|dummy")) line_fake_upper = true
  /\ analyze_string L (excluding (u "fake|dummy")) line_fake_upper None = Return.
Proof.
  destruct (exclusion_ignores_case (Some (u "fake|dummy"))
              (excluding (u "fake|dummy")) line_fake line_fake_upper None
              ltac:(vm_compute; reflexivity) ltac:(vm_compute; reflexivity)
              ltac:(vm_compute; reflexivity) ltac:(vm_compute; reflexivity)
              ltac:(vm_compute; reflexivity))
    as [H1 H2].
  split.
  - rewrite H1. by vm_compute.
  - apply H2. by vm_compute.
Defined.

(** ** The Terraform rule set *)

Lemma yielded_foldr (values : list (option str)) (g : generator) :
  yielded (foldr Yield g values) = values ++ yielded g.
Proof. induction values as [|v values IH]; simpl; congruence. Qed.

Lemma yielded_for_items_flag (U : Unicode) (string : str)
    (rs : rule_set) (after : bool -> generator) :
  (forall has_results, yielded (after has_results) = []) ->
  forall has_results,
    yielded (for_items U string rs has_results after)
    = yielded (for_items U string rs false after).
Proof.
  intros Hafter. induction rs as [|[p n] rs IH]; intros has_results.
  - simpl. by rewrite !Hafter.
  - cbn [for_items]. destruct (search U p string) as [m|]; [|apply IH].
    destruct (group m n) as [e|value]; [done|]. cbn [yielded].
    by rewrite (IH true).
Qed.

(** The candidates of two rule sets put one after the other. *)
Lemma analyze_string_app (U : Unicode) (self : KeywordDetector) (string : str)
    (rs1 rs2 : rule_set) :
  well_indexed rs1 = true ->
  yielded (analyze_string U self string (Some (rs1 ++ rs2)))
  = yielded (analyze_string U self string (Some rs1))
    ++ yielded (analyze_string U self string (Some rs2)).
Proof.
  intros Hwi. unfold analyze_string.
  destruct (allowlisted U string); [done|].
  destruct (excluded U self string); [done|].
  cbn [for_attempts].
  rewrite (for_items_app U string _ _ _ Hwi).
  rewrite (for_items_yields U string _ _ _ Hwi).
  rewrite !yielded_foldr, <- app_assoc. f_equal.
  rewrite yielded_for_items_flag by (by intros []).
  by destruct (false || _).
Qed.

(** The Terraform rule set is the default rule set with the family of the
    unquoted equals sign added at its end: on every line a Terraform file
    gives the candidates of the default rule set, in the same order, and
    after them the candidate of that family. *)
Theorem terraform_extends_default (U : Unicode) (self : KeywordDetector)
    (string : str) :
  yielded (analyze_string U self string (Some TERRAFORM_DENYLIST_REGEX_TO_GROUP))
  = yielded (analyze_string U self string None)
    ++ yielded (analyze_string U self string
                  (Some [(FOLLOWED_BY_EQUAL_SIGNS_REGEX, 5)])).
Proof.
  destruct module_loads as (_ & _ & _ & Hwi & -> & _).
  apply Forall_cons in Hwi as [_ Hwi]. apply Forall_cons in Hwi as [_ Hwi].
  apply Forall_cons in Hwi as [_ Hwi]. apply Forall_cons in Hwi as [_ Hwi].
  apply Forall_cons in Hwi as [Hwi _].
  exact (analyze_string_app U self string _ _ Hwi).
Qed.

(** ** What [json()] reports *)

(** [json()] reports the exclusion text as the constructor was given it
    (the empty text for none), under the key of this class; an entry of
    the base class is reported as the base class gives it, also under that
    key.  This holds for every exclusion text the constructor accepts, in
    whatever syntax of [re] it is written: of [re.compile] the proof uses
    only that the compiled pattern keeps its text. *)
Theorem json_reports_exclusion (compile : str -> bool -> option Pattern)
    (base : gmap string str) (text : option str) (self : KeywordDetector) :
  keeps_pattern compile ->
  __init__with compile text = inr self ->
  (base !! "keyword_exclude"%string = None ->
   json base self !! "keyword_exclude"%string = Some (default [] text))
  /\ (forall k v, base !! k = Some v -> json base self !! k = Some v)
  /\ (forall k, k <> "keyword_exclude"%string -> json base self !! k = base !! k).
Proof.
  intros Hkeeps Hinit. split; [|split].
  - intros Hbase. rewrite json_keyword_exclude by done. f_equal.
    pose proof (init_with_built compile text self Hkeeps Hinit) as Hbuilt.
    destruct (keyword_exclude self) as [p|].
    + by destruct Hbuilt as (-> & _).
    + done.
  - intros k v Hk. unfold json. by apply lookup_union_Some_l.
  - intros k Hk. unfold json.
    destruct (base !! k) as [v|] eqn:Hb.
    + by apply lookup_union_Some_l.
    + rewrite lookup_union_r by done. by apply lookup_singleton_ne.
Qed.

Lemma json_reports_exclusion_witness :
  json base_entries (excluding (u "fake|dummy")) !! "keyword_exclude"%string
  = Some (u "fake|dummy")
  /\ json base_entries (excluding (u "fake|dummy")) !! "name"%string
     = Some (u "KeywordDetector").
Proof.
  destruct (json_reports_exclusion re_compile base_entries
              (Some (u "fake|dummy")) (excluding (u "fake|dummy"))
              re_compile_keeps_pattern ltac:(vm_compute; reflexivity))
    as (H1 & H2 & _).
  split.
  - apply H1. by vm_compute.
  - apply H2. by vm_compute.
Defined.

(** ** A candidate is a piece of the line *)

Lemma slice_part (s : str) (a b : nat) :
  s = take a s ++ slice s a b ++ drop (a + (b - a)) s.
Proof.
  unfold slice. rewrite <- drop_drop, take_drop. by rewrite take_drop.
Qed.

Lemma group_part (m : Match) (n : nat) (c : str) :
  group m n = inr (Some c) ->
  exists a b, c = slice (m_string m) a b.
Proof.
  unfold group. destruct (_ <? _)%nat; [done|].
  destruct n as [|n].
  - intros [= <-]. eauto.
  - destruct (get_mark (S n) (m_marks m)) as [[a b]|]; simpl; [|done].
    intros [= <-]. eauto.
Qed.

(** Whatever the tables, the detector and the rule set (one of the module
    or one given by the caller): a text that [analyze_string] yields
    stands in the line as it is yielded, character for character. *)
Theorem candidate_is_part_of_line (U : Unicode) (self : KeywordDetector)
    (string : str) (rs : option rule_set) (c : str) :
  Some c ∈ yielded (analyze_string U self string rs) ->
  exists before after, string = before ++ c ++ after.
Proof.
  intros (item & _ & Hc)%analyze_string_candidates.
  unfold candidate_of in Hc.
  destruct (search U item.1 string) as [m|] eqn:Hm; [|done].
  apply search_sound in Hm as (_ & Hstr & _).
  destruct (group m item.2) as [e|value] eqn:Hg; [done|].
  injection Hc as ->. apply group_part in Hg as (a & b & ->).
  rewrite Hstr. eexists _, _. apply slice_part.
Qed.

Lemma candidate_is_part_of_line_witness :
  exists before after, line_colon_equals = before ++ u "hunter2" ++ after.
Proof.
  apply (candidate_is_part_of_line L plain line_colon_equals
           (Some GOLANG_DENYLIST_REGEX_TO_GROUP)).
  vm_compute. left.
Defined.

(** ** The quotes around a candidate *)
Section Enclosed.
Context (U : Unicode) (flag_i : bool) (string : str).

Local Abbreviation runs := (run U flag_i string).

Lemma enclosed_run (k g : nat) (r : regex) (opening closing : list set_item)
    i mk j mk' :
  enclosed k g r = Some (opening, closing) -> runs r i mk j mk' ->
  exists a b x y,
    get_mark g mk' = Some (S a, b)
    /\ string !! a = Some x /\ existsb (item_match U flag_i x) opening = true
    /\ string !! b = Some y /\ existsb (item_match U flag_i y) closing = true.
Proof.
  unfold enclosed. intros He Hrun%run_spine.
  rewrite <- (take_drop k (spine r)) in Hrun.
  apply run_all_app in Hrun as (m0 & mk0 & _ & Hrun).
  destruct (drop k (spine r)) as [|r1 [|r2 [|r3 rest]]]; try done;
    destruct r1 as [| | |[] o| | | | | | |]; try done;
    destruct r2 as [| | | | | | | |[g'|] body| |]; try done;
    destruct r3 as [| | |[] c| | | | | | |]; try done.
  destruct (_ && _) eqn:Hc in He; [|done]. injection He as -> ->.
  apply andb_true_iff in Hc as [->%bool_decide_eq_true Hrest].
  destruct Hrun as (m1 & mk1 & ((x & Hx & Hix) & -> & ->)
                    & m2 & mk2 & (mkb & Hbody & ->)
                    & m3 & mk3 & ((y & Hy & Hiy) & -> & ->) & Hrun).
  exists m0, m2, x, y. split; [|done].
  rewrite (run_all_frame U flag_i string g _ _ _ _ _ Hrest Hrun).
  apply get_mark_set_same.
Qed.
End Enclosed.

Lemma latin1_quote_set (flags : bool) (items : list set_item) (x : char) :
  quote_set items = true -> existsb (item_match L flags x) items = true ->
  x ∈ QUOTES.
Proof.
  intros Hq (it & Hit & Hm)%existsb_exists.
  unfold quote_set in Hq. rewrite forallb_forall in Hq. specialize (Hq it Hit).
  destruct it as [c| |]; [|done..]. apply bool_decide_eq_true in Hq.
  simpl in Hm. by apply (latin1_quote_eq _ _ _ Hq) in Hm as ->.
Qed.

(** Every family of the default rule set and of the two rule sets of the C
    family asks for quotes around its designated group. *)
Lemma quoted_items :
  Forall (fun item => asks_quotes item = true) (mjoin quoted_rule_sets).
Proof.
  apply Forall_forall. intros item Hin%list_elem_of_In. revert item Hin.
  apply forallb_forall. by vm_compute.
Qed.

Lemma candidate_between_quotes (string : str) (item : Pattern * nat)
    (value : option str) :
  asks_quotes item = true ->
  candidate_of L string item = Some value ->
  exists a b q q',
    value = Some (slice string (S a) b) /\ S a < b
    /\ q ∈ QUOTES /\ q' ∈ QUOTES
    /\ string !! a = Some q /\ string !! b = Some q'.
Proof.
  destruct item as [p n]. unfold asks_quotes, holds_secret, candidate_of.
  cbn [fst snd].
  intros [[[Hbody%bool_decide_eq_true Hpos%Nat.ltb_lt]%andb_true_iff
            Hle%Nat.leb_le]%andb_true_iff Hq]%andb_true_iff Hc.
  destruct (search L p string) as [m|] eqn:Hs; [|done].
  apply search_sound in Hs as (Hre & Hstr & Hrun).
  destruct (body_of_run L (ignorecase p) string n (code p) _ _ _ _ _ Hbody Hrun)
    as (a' & b' & mka & mkb & Hsecret & Hmark').
  apply secret_run in Hsecret as (Hab & _).
  assert (exists a b q q',
            get_mark n (m_marks m) = Some (S a, b)
            /\ q ∈ QUOTES /\ q' ∈ QUOTES
            /\ string !! a = Some q /\ string !! b = Some q')
    as (a & b & q & q' & Hmark & Hq1 & Hq2 & Ha & Hb).
  { apply orb_true_iff in Hq as [Hq|Hq].
    - unfold closes_quote in Hq. cbn [fst snd] in Hq.
      apply andb_true_iff in Hq as [[Hq _]%andb_true_iff _].
      destruct (quote_of n (code p)) as [items|] eqn:Hquote; [|done].
      apply quote_of_bracket in Hquote as [k Hk].
      destruct (bracket_run L (ignorecase p) string k n (code p) items
                  _ _ _ _ Hk Hrun)
        as (a & b & x & y & Hmark & Hx & Hix & Hy & Hxy).
      pose proof (latin1_quote_set _ _ _ Hq Hix) as Hxq.
      apply (latin1_quote_eq _ _ _ Hxq) in Hxy as ->.
      exists a, b, x, x. done.
    - apply existsb_exists in Hq as (k & _ & Hk).
      destruct (enclosed k n (code p)) as [[opening closing]|] eqn:He; [|done].
      apply andb_true_iff in Hk as [Ho Hcl].
      destruct (enclosed_run L (ignorecase p) string k n (code p) _ _
                  _ _ _ _ He Hrun)
        as (a & b & x & y & Hmark & Hx & Hix & Hy & Hiy).
      exists a, b, x, y. split; [done|].
      split; [exact (latin1_quote_set _ _ _ Ho Hix)|].
      split; [exact (latin1_quote_set _ _ _ Hcl Hiy) | done]. }
  rewrite Hmark in Hmark'. injection Hmark' as <- <-.
  unfold group in Hc. rewrite Hre in Hc.
  destruct (Nat.ltb_spec (groups p) n) as [?|_]; [lia|].
  destruct n as [|n]; [lia|]. rewrite Hmark, Hstr in Hc. simpl in Hc.
  injection Hc as <-. exists a, b, q, q'. done.
Qed.



(** ** The matcher finds a match where there is a way through the pattern *)
(** Soundness says that an answer of the matcher is a run; the converse
    holds for ways that keep to the counts: the matcher tries the
    alternatives and the numbers of repetitions one after the other, and
    gives up only when none of them leads to the end. *)
Section Complete.
Context (U : Unicode) (flag_i : bool) (string : str).

Local Abbreviation runs := (run U flag_i string).
Local Abbreviation paths := (path U flag_i string).
Local Abbreviation matches := (sre_match U flag_i string).

Lemma groupless_run (r : regex) : forall i mk j mk',
  groupless r = true -> runs r i mk j mk' -> mk' = mk.
Proof.
  induction r as [|c| |negate items|pos|r1 IH1 r2 IH2|r1 IH1 r2 IH2
                 |lo hi greedy r1 IH1|g' r1 IH1|g'|r1 IH1];
    simpl; intros i mk j mk' Hg Hrun.
  - by destruct Hrun as [_ ->].
  - by destruct Hrun as (_ & _ & ->).
  - by destruct Hrun as (_ & _ & ->).
  - by destruct Hrun as (_ & _ & ->).
  - by destruct Hrun as (_ & _ & ->).
  - apply andb_true_iff in Hg as [Hg1 Hg2].
    destruct Hrun as (m & mkm & H1 & H2).
    by rewrite (IH2 _ _ _ _ Hg2 H2), (IH1 _ _ _ _ Hg1 H1).
  - apply andb_true_iff in Hg as [Hg1 Hg2]. destruct Hrun; eauto.
  - induction Hrun as [|i mk j mk' k mk'' Hstep _ IH]; [done|].
    by rewrite IH, (IH1 _ _ _ _ Hg Hstep).
  - apply andb_true_iff in Hg as [->%bool_decide_eq_true Hg1].
    destruct Hrun as (mk1 & H1 & ->). simpl. eauto.
  - by destruct Hrun as (a & b & _ & _ & _ & ->).
  - destruct Hrun as (m & H1 & _). eauto.
Qed.

Lemma one_char_complete test i mk j mk' (k : cont) :
  run_char string test i mk j mk' -> is_Some (k j mk') ->
  is_Some (one_char string test i mk k).
Proof.
  intros ((x & Hx & Ht) & -> & ->) Hk. unfold one_char. by rewrite Hx, Ht.
Qed.

Section Loops.
Variable body : nat -> marks -> cont -> option (nat * marks).
Variable step : nat -> marks -> nat -> marks -> Prop.
Hypothesis body_complete : forall i mk j mk' (k : cont),
  step i mk j mk' -> is_Some (k j mk') -> is_Some (body i mk k).

Lemma repeat_min_complete lo : forall i mk j mk' (k : cont),
  times step lo i mk j mk' -> is_Some (k j mk') ->
  is_Some (repeat_min body lo i mk k).
Proof.
  induction lo as [|lo IH]; simpl; intros i mk j mk' k Ht Hk.
  - by destruct Ht as [-> ->].
  - destruct Ht as (m & mkm & Hstep & Ht).
    eapply body_complete; [done|]. simpl. eauto.
Qed.

Lemma repeat_more_complete greedy fuel : forall n last i mk j mk' (k : cont),
  n <= fuel ->
  times (fun a ma b mb => step a ma b mb /\ a < b) n i mk j mk' ->
  last <> Some i -> is_Some (k j mk') ->
  is_Some (repeat_more body greedy fuel last i mk k).
Proof.
  induction fuel as [|fuel IH]; intros n last i mk j mk' k Hn Ht Hlast Hk.
  - destruct n; [|lia]. destruct Ht as [-> ->]. done.
  - simpl. rewrite bool_decide_eq_false_2 by done.
    destruct n as [|n].
    + destruct Ht as [-> ->].
      destruct greedy.
      * by destruct (body i mk _).
      * destruct (k i mk); [done|]. by destruct Hk.
    + destruct Ht as (m & mkm & [Hstep Hlt] & Ht).
      assert (is_Some (body i mk (fun j mk' =>
                repeat_more body greedy fuel (Some i) j mk' k))) as [res Hres].
      { eapply body_complete; [done|]. simpl.
        apply (IH n (Some i) m mkm j mk'); [lia|done| |done].
        intros [= ->]. lia. }
      rewrite Hres. destruct greedy; [done|]. by destruct (k i mk).
Qed.
End Loops.

(** Where there is a way through [r] whose end the rest of the pattern
    accepts, the matcher answers with a match. *)
Lemma sre_match_complete (r : regex) : forall i mk j mk' (k : cont),
  paths r i mk j mk' -> is_Some (k j mk') -> is_Some (matches r i mk k).
Proof.
  induction r as [|c| |negate items|pos|r1 IH1 r2 IH2|r1 IH1 r2 IH2
                 |lo hi greedy r1 IH1|g r1 IH1|g|r1 IH1];
    simpl; intros i mk j mk' k Hp Hk.
  - by destruct Hp as [-> ->].
  - by eapply one_char_complete.
  - by eapply one_char_complete.
  - by eapply one_char_complete.
  - destruct Hp as (-> & -> & ->). done.
  - destruct Hp as (m & mkm & H1 & H2). eapply IH1; [done|]. simpl. eauto.
  - destruct (matches r1 i mk k) eqn:H1; [done|].
    destruct Hp as [Hp|Hp]; [|eauto].
    destruct (IH1 _ _ _ _ k Hp Hk) as [res Hres]. congruence.
  - destruct Hp as (m & mkm & n & Hmin & Hmore & Hn).
    eapply (repeat_min_complete _ _ IH1); [done|]. simpl.
    eapply (repeat_more_complete _ _ IH1); [done|done|done|done].
  - destruct Hp as (mk1 & H1 & ->). eapply IH1; [done|]. done.
  - destruct Hp as (a & b & -> & -> & -> & ->). done.
  - destruct Hp as (Hg & (m & mk1 & H1) & -> & ->).
    destruct (IH1 i mk m mk1 (fun j mk' => Some (j, mk')) H1) as [[m' mk'] Hres];
      [done|].
    rewrite Hres.
    apply sre_match_sound in Hres as (j' & mk'' & Hrun & [= -> ->]).
    by rewrite (groupless_run _ _ _ _ _ Hg Hrun).
Qed.

Lemma search_from_complete (r : regex) (s j : nat) (mk' : marks) :
  paths r s [] j mk' ->
  forall tries start, start <= s < start + tries ->
    is_Some (search_from U flag_i string r start tries).
Proof.
  intros Hp. induction tries as [|tries IH]; intros start Hs; [lia|]. simpl.
  destruct (matches r start [] (fun j mk => Some (j, mk))) as [[j' mk'']|] eqn:Hm;
    [done|].
  apply IH. destruct (decide (s = start)) as [->|]; [|lia].
  destruct (sre_match_complete r start [] j mk' (fun j mk => Some (j, mk)) Hp)
    as [res Hres]; [done|]. congruence.
Qed.
End Complete.

(** A way through the pattern from some place of the line: [search]
    finds a match (there, or further left). *)
Lemma search_complete (U : Unicode) (p : Pattern) (string : str)
    (s j : nat) (mk' : marks) :
  s <= length string ->
  path U (ignorecase p) string (code p) s [] j mk' ->
  is_Some (search U p string).
Proof.
  intros Hs Hp. unfold search.
  destruct (search_from_complete U _ string (code p) s j mk' Hp
              (S (length string)) 0) as [[[i j'] mk] ->]; [lia|done].
Qed.

(** ** Building a way through a pattern *)
(** The steps of which a way is put together. *)
Section Walk.
Context (U : Unicode) (flag_i : bool) (string : str).
Local Abbreviation paths := (path U flag_i string).

Lemma path_seq r1 r2 i mk m mkm j mk' :
  paths r1 i mk m mkm -> paths r2 m mkm j mk' -> paths (Seq r1 r2) i mk j mk'.
Proof. simpl. eauto. Qed.

Lemma path_left r1 r2 i mk j mk' :
  paths r1 i mk j mk' -> paths (Branch r1 r2) i mk j mk'.
Proof. simpl. eauto. Qed.

Lemma path_right r1 r2 i mk j mk' :
  paths r2 i mk j mk' -> paths (Branch r1 r2) i mk j mk'.
Proof. simpl. eauto. Qed.

Lemma path_group g r i mk j mk1 :
  paths r i mk j mk1 -> paths (Subpattern g r) i mk j (set_mark g (i, j) mk1).
Proof. simpl. eauto. Qed.

Lemma path_empty i mk : paths Empty i mk i mk.
Proof. done. Qed.

Lemma path_skip hi greedy r i mk : paths (Repeat 0 hi greedy r) i mk i mk.
Proof. exists i, mk, 0. simpl. split; [done|]. split; [done|lia]. Qed.

Lemma path_option_once h greedy r i mk j mk' :
  paths r i mk j mk' -> i < j -> paths (Repeat 0 (Some (S h)) greedy r) i mk j mk'.
Proof.
  intros Hp Hlt. exists i, mk, 1. simpl. split; [done|].
  split; [|lia]. exists j, mk'. done.
Qed.

Lemma path_first hi greedy r i mk j mk' :
  paths r i mk j mk' -> paths (Repeat 1 hi greedy r) i mk j mk'.
Proof.
  intros Hp. exists j, mk', 0. simpl. split; [eauto|]. split; [done|lia].
Qed.

Lemma path_literal c i x mk :
  string !! i = Some x -> char_eq U flag_i c x = true ->
  paths (Literal c) i mk (S i) mk.
Proof. intros Hx Hc. simpl. unfold run_char. eauto. Qed.

Lemma path_in negate items i x mk :
  string !! i = Some x ->
  xorb negate (existsb (item_match U flag_i x) items) = true ->
  paths (In negate items) i mk (S i) mk.
Proof. intros Hx Hc. simpl. unfold run_char. eauto. Qed.

Lemma lookup_after (front l : str) (k : nat) :
  (front ++ l) !! (k + length front) = l !! k.
Proof.
  rewrite lookup_app_r by lia. f_equal. lia.
Qed.

(** A run of characters of a set, one repetition for each. *)
Lemma path_chars negate items (w : str) : forall front rest mk,
  string = front ++ w ++ rest ->
  Forall (fun x => xorb negate (existsb (item_match U flag_i x) items) = true) w ->
  times (fun a ma b mb => paths (In negate items) a ma b mb /\ a < b)
    (length w) (length front) mk (length w + length front) mk.
Proof.
  induction w as [|x w IH]; intros front rest mk Hs Hall; [done|].
  apply Forall_cons in Hall as [Hx Hall].
  exists (S (length front)), mk. split.
  - split; [|lia]. apply (path_in _ _ _ x); [|done].
    rewrite Hs. by apply list_lookup_middle.
  - specialize (IH (front ++ [x]) rest mk).
    rewrite length_app in IH. simpl in IH.
    replace (length front + 1) with (S (length front)) in IH by lia.
    replace (length w + S (length front)) with (S (length w + length front)) in IH
      by lia.
    apply IH; [|done]. rewrite Hs. by rewrite <- app_assoc.
Qed.

Lemma path_literal_at c x (front rest : str) mk :
  string = front ++ [x] ++ rest -> char_eq U flag_i c x = true ->
  paths (Literal c) (length front) mk (length (front ++ [x])) mk.
Proof.
  intros Hs Hc. rewrite length_app. simpl.
  replace (length front + 1) with (S (length front)) by lia.
  apply (path_literal c _ x); [|done]. rewrite Hs. by apply list_lookup_middle.
Qed.

Lemma path_in_at negate items x (front rest : str) mk :
  string = front ++ [x] ++ rest ->
  xorb negate (existsb (item_match U flag_i x) items) = true ->
  paths (In negate items) (length front) mk (length (front ++ [x])) mk.
Proof.
  intros Hs Hc. rewrite length_app. simpl.
  replace (length front + 1) with (S (length front)) by lia.
  apply (path_in negate items _ x); [|done]. rewrite Hs. by apply list_lookup_middle.
Qed.

Lemma path_star_at negate items greedy (front w rest : str) mk :
  string = front ++ w ++ rest ->
  Forall (fun x => xorb negate (existsb (item_match U flag_i x) items) = true) w ->
  paths (Repeat 0 None greedy (In negate items))
    (length front) mk (length (front ++ w)) mk.
Proof.
  intros Hs Hw. exists (length front), mk, (length w).
  split; [done|]. split.
  - rewrite length_app, (Nat.add_comm (length front)). by eapply path_chars.
  - rewrite Hs, !length_app. lia.
Qed.
End Walk.

(** With the Latin-1 tables a vertical tab, a comma and a quote are matched
    by themselves alone. *)
Lemma latin1_symbol_eq (flags : bool) (c x : char) :
  c ∈ SECRET_NEVER_LAST -> char_eq L flags c x = true -> x = c.
Proof.
  intros Hc Hx.
  assert (c < 256)%N as Hcs.
  { unfold SECRET_NEVER_LAST in Hc. rewrite !elem_of_cons, elem_of_nil in Hc.
    destruct Hc as [->|[->|[->|[->|[->|[]]]]]]; by vm_compute. }
  pose proof (latin1_char_eq_small _ _ _ Hx Hcs) as Hxs.
  assert (forallb (fun c => forallb (fun x => implb (char_eq L flags c x) (x =? c)%N)
                              latin1_range) SECRET_NEVER_LAST = true) as Hall
    by (destruct flags; by vm_compute).
  rewrite forallb_forall in Hall.
  apply list_elem_of_In, Hall in Hc. rewrite forallb_forall in Hc.
  specialize (Hc x (latin1_range_spec x Hxs)). rewrite Hx in Hc.
  by apply N.eqb_eq in Hc.
Qed.

Lemma latin1_set_accepts (flags : bool) (cs : list char) (x : char) :
  cs ⊆ SECRET_NEVER_LAST -> x ∉ cs ->
  xorb true (existsb (item_match L flags x) (ItemLiteral <$> cs)) = true.
Proof.
  intros Hcs Hx. apply negb_true_iff, not_true_iff_false.
  intros (it & Hin & Hm)%existsb_exists.
  apply list_elem_of_In, list_elem_of_fmap in Hin as (c & -> & Hc).
  simpl in Hm. apply latin1_symbol_eq in Hm; [|by apply Hcs]. by subst.
Qed.

Lemma latin1_first_set (flags : bool) (x : char) :
  secret_first_char x = true ->
  existsb (item_match L flags x) SECRET_FIRST = true.
Proof.
  intros Hx.
  assert (x < 256)%N as Hsmall.
  { unfold secret_first_char, Parser.is_ascii_letter, Parser.is_digit_char in Hx.
    destruct (N.leb_spec x 122); [lia|].
    destruct (N.leb_spec x 90); [lia|]. destruct (N.leb_spec x 57); [lia|].
    rewrite !andb_false_r in Hx. simpl in Hx.
    apply bool_decide_eq_true in Hx.
    assert (u "_!@#%^&" = [95; 33; 64; 35; 37; 94; 38]%N) as Hu by reflexivity.
    rewrite Hu in Hx. rewrite !elem_of_cons, elem_of_nil in Hx.
    destruct Hx as [->|[->|[->|[->|[->|[->|[->|[]]]]]]]]; by vm_compute. }
  assert (forallb (fun x => implb (secret_first_char x)
                                  (existsb (item_match L flags x) SECRET_FIRST))
                  latin1_range = true)
    as Hall by (destruct flags; by vm_compute).
  rewrite forallb_forall in Hall.
  specialize (Hall x (latin1_range_spec x Hsmall)).
  by rewrite Hx in Hall.
Qed.

(** *** The secret-body fragment *)
Section Found.
Context (flag_i : bool) (string : str).
Local Abbreviation paths := (path L flag_i string).

(** A secret text goes through the fragment. *)
Lemma secret_path (front v back : str) mk :
  string = front ++ v ++ back -> is_secret_text v = true ->
  paths SECRET_code (length front) mk (length v + length front) mk.
Proof.
  intros Hs Hv. unfold is_secret_text in Hv.
  destruct (head v) as [x|] eqn:Hhead; [|done].
  destruct (last v) as [y|] eqn:Hlast; [|done].
  apply andb_true_iff in Hv as [[Hfirst Hall]%andb_true_iff Hy].
  apply negb_true_iff, bool_decide_eq_false in Hy.
  apply last_Some in Hlast as [w ->].
  assert (Forall (fun z => z ∉ SECRET_NEVER) (w ++ [y])) as Hnever.
  { apply Forall_forall. intros z Hz%list_elem_of_In.
    rewrite forallb_forall in Hall. specialize (Hall z Hz).
    by apply negb_true_iff, bool_decide_eq_false in Hall. }
  apply Forall_app in Hnever as [Hw _].
  assert (string !! length front = Some x) as Hx.
  { rewrite Hs. destruct w as [|x' w]; simpl in Hhead; injection Hhead as ->;
      by apply list_lookup_middle. }
  replace SECRET_code with
    (Seq (Assert (Seq (Repeat 0 None true
                         (In true (ItemLiteral <$> SECRET_NEVER))) Empty))
       (Seq (Assert (Seq (In false SECRET_FIRST) Empty))
          (Seq (Repeat 0 None true (In true (ItemLiteral <$> SECRET_NEVER)))
             (Seq (In true (ItemLiteral <$> SECRET_NEVER_LAST)) Empty))))
    by by vm_compute.
  eapply path_seq.
  { split; [done|]. split; [|done]. eexists _, _.
    eapply path_seq; [apply path_skip | apply path_empty]. }
  eapply path_seq.
  { split; [done|]. split; [|done]. eexists _, _.
    eapply path_seq; [|apply path_empty].
    apply (path_in _ _ _ _ _ _ x); [done|]. by apply latin1_first_set. }
  eapply path_seq.
  { exists (length front), mk, (length w). split; [done|]. split.
    - apply (path_chars L flag_i string true _ w front ([y] ++ back)).
      + rewrite Hs. by rewrite <- app_assoc.
      + eapply Forall_impl; [exact Hw|]. intros z Hz. simpl in Hz.
        apply latin1_set_accepts; [|done].
        intros c. unfold SECRET_NEVER, SECRET_NEVER_LAST.
        rewrite !elem_of_cons, !elem_of_nil. tauto.
    - rewrite Hs, !length_app. lia. }
  eapply path_seq; [|apply path_empty].
  replace (length (w ++ [y]) + length front)
    with (S (length w + length front)) by (rewrite length_app; simpl; lia).
  apply (path_in _ _ _ _ _ _ y).
  - rewrite Hs, <- app_assoc, (app_assoc front w).
    apply list_lookup_middle. rewrite length_app. lia.
  - by apply latin1_set_accepts.
Qed.

(** The opening quote, the secret and the reference back to the quote. *)
Lemma quoted_secret_path (rq : regex) (gq g : nat) (h : option nat)
    (front v back : str) (q : char) mk :
  string = front ++ [q] ++ v ++ [q] ++ back ->
  gq <> g ->
  (forall mk0, paths rq (length front) mk0 (S (length front)) mk0) ->
  is_secret_text v = true ->
  paths (Seq (Subpattern (Some gq) rq)
           (Seq (Subpattern (Some g) SECRET_code)
              (Seq (Subpattern h (Seq (GroupRef gq) Empty)) Empty)))
    (length front) mk (S (S (length v + length front)))
    (set_mark h (S (length v + length front), S (S (length v + length front)))
       (set_mark (Some g) (S (length front), S (length v + length front))
          (set_mark (Some gq) (length front, S (length front)) mk))).
Proof.
  intros Hs Hne Hrq Hv.
  eapply path_seq; [apply path_group, Hrq|].
  eapply path_seq.
  { apply path_group.
    pose proof (secret_path (front ++ [q]) v ([q] ++ back)
                  (set_mark (Some gq) (length front, S (length front)) mk)) as Hp.
    rewrite length_app in Hp. simpl in Hp.
    replace (length front + 1) with (S (length front)) in Hp by lia.
    replace (length v + S (length front)) with (S (length v + length front)) in Hp
      by lia.
    apply Hp; [|done]. rewrite Hs. by rewrite <- app_assoc. }
  eapply path_seq; [|apply path_empty].
  apply path_group. eapply path_seq; [|apply path_empty].
  simpl. exists (length front), (S (length front)).
  assert (string !! length front = Some q) as Hq1.
  { rewrite Hs. by apply list_lookup_middle. }
  assert (string !! S (length v + length front) = Some q) as Hq2.
  { rewrite Hs. rewrite (app_assoc front), (app_assoc _ v).
    apply list_lookup_middle. rewrite !length_app. simpl. lia. }
  split.
  { destruct (Nat.eqb_spec g gq) as [?|_]; [congruence|].
    by rewrite Nat.eqb_refl. }
  replace (S (length front) - length front) with 1 by lia.
  split; [|split; [lia|done]].
  simpl. rewrite Hq1, Hq2. by rewrite char_eq_refl.
Qed.

(** A secret without quotes: the optional quote is left out and the
    reference back to it matches the empty text. *)
Lemma bare_secret_path (rq : regex) (gq g : nat) (h : option nat)
    (front v back : str) mk :
  string = front ++ v ++ back ->
  gq <> g ->
  (forall mk0, paths rq (length front) mk0 (length front) mk0) ->
  is_secret_text v = true ->
  paths (Seq (Subpattern (Some gq) rq)
           (Seq (Subpattern (Some g) SECRET_code)
              (Seq (Subpattern h (Seq (GroupRef gq) Empty)) Empty)))
    (length front) mk (length v + length front)
    (set_mark h (length v + length front, length v + length front)
       (set_mark (Some g) (length front, length v + length front)
          (set_mark (Some gq) (length front, length front) mk))).
Proof.
  intros Hs Hne Hrq Hv.
  eapply path_seq; [apply path_group, Hrq|].
  eapply path_seq; [by apply path_group, (secret_path front v back)|].
  eapply path_seq; [|apply path_empty].
  apply path_group. eapply path_seq; [|apply path_empty].
  simpl. exists (length front), (length front). split.
  { destruct (Nat.eqb_spec g gq) as [?|_]; [congruence|].
    by rewrite Nat.eqb_refl. }
  rewrite Nat.sub_diag. split; [done|]. split; [lia|done].
Qed.
End Found.

(** *** The keyword *)

(** The number of steps from [s] to [i]. *)
Ltac offset i s :=
  lazymatch i with
  | s => constr:(O)
  | S ?i' => let k := offset i' s in constr:(S k)
  end.

(** The way of a text through a pattern of literals, groups and
    alternatives; [Hat] tells the characters at the places after [s]. *)
Ltac walk Hat s :=
  lazymatch goal with
  | |- path _ _ _ Empty _ _ _ _ => apply path_empty
  | |- path _ _ _ (Literal _) ?i _ _ _ =>
      let k := offset i s in
      eapply path_literal;
      [refine (Hat k _ _); reflexivity | vm_compute; reflexivity]
  | |- path _ _ _ (Seq _ _) _ _ _ _ =>
      eapply path_seq; [walk Hat s | walk Hat s]
  | |- path _ _ _ (Branch _ _) _ _ _ _ =>
      first [apply path_left; walk Hat s | apply path_right; walk Hat s]
  end.

(** A plain keyword goes through the alternation of the keywords. *)
Lemma keyword_path (string pre kw rest : str) mk :
  string = pre ++ kw ++ rest -> kw ∈ PLAIN_KEYWORDS ->
  path L true string DENYLIST_code (length pre) mk (length (pre ++ kw)) mk.
Proof.
  intros -> Hkw. rewrite length_app, (Nat.add_comm (length pre)).
  assert (forall k x, (kw ++ rest) !! k = Some x ->
            (pre ++ kw ++ rest) !! (k + length pre) = Some x) as Hat.
  { intros k x Hk. by rewrite lookup_after. }
  revert Hat Hkw. generalize (pre ++ kw ++ rest) as string.
  generalize (length pre) as s. intros s string Hat Hkw.
  let c := eval vm_compute in DENYLIST_code in
  replace DENYLIST_code with c by (vm_compute; reflexivity).
  let c := eval vm_compute in PLAIN_KEYWORDS in
  replace PLAIN_KEYWORDS with c in Hkw by (vm_compute; reflexivity).
  rewrite !elem_of_cons, elem_of_nil in Hkw.
  destruct Hkw as [->|[->|[->|[->|[->|[->|[->|[]]]]]]]];
    cbn [length Nat.add]; walk Hat s.
Qed.

(** *** The shape of the equals families *)

Lemma equals_families_shape :
  code FOLLOWED_BY_EQUAL_SIGNS_QUOTES_REQUIRED_REGEX
  = equals_shape (value_shape (Seq (In false QUOTE_SET) Empty) 4 5 6)
  /\ code FOLLOWED_BY_EQUAL_SIGNS_REGEX
     = equals_shape
         (value_shape (Seq (Repeat 0 (Some 1) true (In false QUOTE_SET)) Empty)
            4 5 6)
  /\ code FOLLOWED_BY_EQUAL_SIGNS_OPTIONAL_BRACKETS_OPTIONAL_AT_SIGN_QUOTES_REQUIRED_REGEX
     = brackets_shape (value_shape (Seq (Literal DQ) Empty) 5 6 7).
Proof. repeat split; by vm_compute. Qed.

Section Quoted.
Context (string front rest : str) (q : char).
Hypothesis Hs : string = front ++ [q] ++ rest.

Local Abbreviation paths := (path L true string).

Lemma quote_test :
  q ∈ QUOTES -> existsb (item_match L true q) QUOTE_SET = true.
Proof.
  unfold QUOTES. rewrite !elem_of_cons, elem_of_nil.
  intros [->|[->|[->|[]]]]; by vm_compute.
Qed.

Lemma quote_path (mk0 : marks) :
  q ∈ QUOTES ->
  paths (Seq (In false QUOTE_SET) Empty) (length front) mk0 (S (length front)) mk0.
Proof.
  intros Hq. eapply path_seq; [|apply path_empty].
  apply (path_in _ _ _ _ _ _ q); [|by apply quote_test].
  rewrite Hs. by apply list_lookup_middle.
Qed.

Lemma optional_quote_path (mk0 : marks) :
  q ∈ QUOTES ->
  paths (Seq (Repeat 0 (Some 1) true (In false QUOTE_SET)) Empty)
    (length front) mk0 (S (length front)) mk0.
Proof.
  intros Hq. eapply path_seq; [|apply path_empty].
  apply path_option_once; [|lia].
  apply (path_in _ _ _ _ _ _ q); [|by apply quote_test].
  rewrite Hs. by apply list_lookup_middle.
Qed.

Lemma double_quote_path (mk0 : marks) :
  q = DQ ->
  paths (Seq (Literal DQ) Empty) (length front) mk0 (S (length front)) mk0.
Proof.
  intros Hdq. eapply path_seq; [|apply path_empty].
  apply (path_literal _ _ _ _ _ q).
  - rewrite Hs. by apply list_lookup_middle.
  - rewrite Hdq. by vm_compute.
Qed.
End Quoted.

Lemma white_spaces (flags : bool) (sp : str) :
  white sp = true ->
  Forall (fun x => xorb false (existsb (item_match L flags x)
                                 [ItemCategory false CATEGORY_SPACE]) = true) sp.
Proof.
  intros Hsp. apply Forall_forall. intros x Hx%list_elem_of_In.
  unfold white in Hsp. rewrite forallb_forall in Hsp. specialize (Hsp x Hx).
  simpl. by rewrite Hsp.
Qed.

(** A keyword, white space, an equals sign, white space: the way up to
    the value. *)
Section Operator.
Context (string pre kw sp1 sp2 rest : str).
Hypothesis Hs : string = pre ++ kw ++ sp1 ++ u "=" ++ sp2 ++ rest.
Hypothesis Hkw : kw ∈ PLAIN_KEYWORDS.
Hypothesis Hsp1 : white sp1 = true.
Hypothesis Hsp2 : white sp2 = true.

Local Abbreviation paths := (path L true string).
Local Abbreviation front := ((((pre ++ kw) ++ sp1) ++ [ch "="]) ++ sp2).

Lemma value_place : string = front ++ rest.
Proof. rewrite Hs. by rewrite <- !app_assoc. Qed.

Lemma start_place : length pre <= length string.
Proof. rewrite Hs, length_app. lia. Qed.

Lemma keyword_place : string = pre ++ kw ++ (sp1 ++ u "=" ++ sp2 ++ rest).
Proof. exact Hs. Qed.

Lemma space1_place : string = (pre ++ kw) ++ sp1 ++ (u "=" ++ sp2 ++ rest).
Proof. rewrite Hs. by rewrite <- !app_assoc. Qed.

Lemma equals_place : string = ((pre ++ kw) ++ sp1) ++ [ch "="] ++ (sp2 ++ rest).
Proof. rewrite Hs. by rewrite <- !app_assoc. Qed.

Lemma space2_place : string = (((pre ++ kw) ++ sp1) ++ [ch "="]) ++ sp2 ++ rest.
Proof. rewrite Hs. by rewrite <- !app_assoc. Qed.

Lemma keyword_and_space (c r : regex) mk j mk' :
  paths r (length ((pre ++ kw) ++ sp1))
    (set_mark (Some 1) (length pre, length (pre ++ kw)) mk) j mk' ->
  paths (Seq (Subpattern (Some 1) DENYLIST_code)
           (Seq WORDS (Seq (Repeat 0 (Some 1) true c) (Seq SPACES r))))
    (length pre) mk j mk'.
Proof.
  intros Hr.
  eapply path_seq; [apply path_group, (keyword_path _ _ _ _ _ keyword_place Hkw)|].
  eapply path_seq; [apply path_skip|].
  eapply path_seq; [apply path_skip|].
  eapply path_seq; [|exact Hr].
  apply (path_star_at L true string false _ true _ sp1 _ _ space1_place).
  by apply white_spaces.
Qed.

Lemma equals_shape_path (tail : regex) :
  (forall mk, exists j mk', paths tail (length front) mk j mk') ->
  exists j mk', paths (equals_shape tail) (length pre) [] j mk'.
Proof.
  intros Htail.
  destruct (Htail
              (set_mark (Some 3)
                 (length ((pre ++ kw) ++ sp1),
                  length (((pre ++ kw) ++ sp1) ++ [ch "="]))
                 (set_mark (Some 1) (length pre, length (pre ++ kw)) [])))
    as (j & mk' & Hp).
  exists j, mk'. apply keyword_and_space.
  eapply path_seq.
  { apply path_group, path_left. eapply path_seq; [|apply path_empty].
    apply path_first.
    apply (path_literal_at L true string _ _ _ _ _ equals_place). by vm_compute. }
  eapply path_seq; [|exact Hp].
  apply (path_star_at L true string false _ true _ sp2 _ _ space2_place).
  by apply white_spaces.
Qed.

Lemma brackets_shape_path (tail : regex) :
  (forall mk, exists j mk', paths tail (length front) mk j mk') ->
  exists j mk', paths (brackets_shape tail) (length pre) [] j mk'.
Proof.
  intros Htail.
  destruct (Htail (set_mark (Some 1) (length pre, length (pre ++ kw)) []))
    as (j & mk' & Hp).
  exists j, mk'. apply keyword_and_space.
  eapply path_seq.
  { apply path_first.
    apply (path_in_at L true string _ _ _ _ _ _ equals_place). by vm_compute. }
  eapply path_seq.
  { apply (path_star_at L true string false _ true _ sp2 _ _ space2_place).
    by apply white_spaces. }
  eapply path_seq; [apply path_skip | exact Hp].
Qed.
End Operator.

(** *** A quoted value assigned to a keyword is found *)
Section Assignment.
Context (pre kw sp1 sp2 : str) (q : char) (v post : str).
Hypothesis Hkw : kw ∈ PLAIN_KEYWORDS.
Hypothesis Hsp1 : white sp1 = true.
Hypothesis Hsp2 : white sp2 = true.
Hypothesis Hq : q ∈ QUOTES.
Hypothesis Hv : is_secret_text v = true.

Local Abbreviation line := (assignment pre kw sp1 sp2 q v post).
Local Abbreviation front := ((((pre ++ kw) ++ sp1) ++ [ch "="]) ++ sp2).

Lemma quote_place : line = front ++ [q] ++ v ++ [q] ++ post.
Proof. by apply value_place. Qed.

(** The value between its quotes, for an opening quote that goes through
    [rq]. *)
Lemma value_path (rq : regex) (gq g h : nat) :
  gq <> g ->
  (forall mk0, path L true line rq (length front) mk0 (S (length front)) mk0) ->
  forall mk, exists j mk',
    path L true line (value_shape rq gq g h) (length front) mk j mk'.
Proof.
  intros Hne Hrq mk. eexists _, _.
  by apply (quoted_secret_path true line rq gq g (Some h) front v post q mk
              quote_place).
Qed.

(** Each of the three families matches the line. *)
Lemma assignment_matches (p : Pattern) :
  p ∈ EQUALS_FAMILIES ->
  (q = DQ
   \/ p <> FOLLOWED_BY_EQUAL_SIGNS_OPTIONAL_BRACKETS_OPTIONAL_AT_SIGN_QUOTES_REQUIRED_REGEX) ->
  is_Some (search L p line).
Proof.
  intros Hp Hdq.
  pose proof (start_place line pre kw sp1 sp2 _ eq_refl) as Hle.
  assert (forall p, ignorecase p = true ->
            (exists j mk', path L true line (code p) (length pre) [] j mk') ->
            is_Some (search L p line)) as Hfound.
  { intros p0 Hi (j & mk' & Hpath).
    apply (search_complete L _ line (length pre) j mk'); [done|]. by rewrite Hi. }
  destruct equals_families_shape as (Hquoted & Hplain & Hbrackets).
  unfold EQUALS_FAMILIES in Hp. rewrite !elem_of_cons, elem_of_nil in Hp.
  destruct Hp as [->|[->|[->|[]]]]; (apply Hfound; [done|]).
  - rewrite Hquoted.
    apply (equals_shape_path line pre kw sp1 sp2 _ eq_refl Hkw Hsp1 Hsp2).
    apply value_path; [lia|]. intros mk0.
    by apply (quote_path line front _ q quote_place).
  - rewrite Hplain.
    apply (equals_shape_path line pre kw sp1 sp2 _ eq_refl Hkw Hsp1 Hsp2).
    apply value_path; [lia|]. intros mk0.
    by apply (optional_quote_path line front _ q quote_place).
  - destruct Hdq as [Hdq|?]; [|done]. rewrite Hbrackets.
    apply (brackets_shape_path line pre kw sp1 sp2 _ eq_refl Hkw Hsp1 Hsp2).
    apply value_path; [lia|]. intros mk0.
    by apply (double_quote_path line front _ q quote_place).
Qed.
End Assignment.

Lemma latin1_lower_idem (x : char) : Latin1.lower (Latin1.lower x) = Latin1.lower x.
Proof.
  destruct (N.lt_ge_cases x 256) as [Hx|Hx].
  - assert (forallb (fun x => (Latin1.lower (Latin1.lower x) =? Latin1.lower x)%N)
              latin1_range = true) as Hall by by vm_compute.
    rewrite forallb_forall in Hall.
    by apply N.eqb_eq, Hall, latin1_range_spec.
  - rewrite (latin1_lower_big x Hx). by apply latin1_lower_big.
Qed.

(** The line with its keyword in lower case is the same line, lower-cased. *)
Lemma assignment_lower (pre kw sp1 sp2 : str) (q : char) (v post : str) :
  str_lower L (assignment pre (str_lower L kw) sp1 sp2 q v post)
  = str_lower L (assignment pre kw sp1 sp2 q v post).
Proof.
  unfold assignment. simpl. rewrite !map_app. do 2 f_equal.
  rewrite map_map. apply map_ext. intros x. apply latin1_lower_idem.
Qed.

(** A family of a well-indexed rule set that matches the line gives a
    value. *)
Lemma matching_family_yields (U : Unicode) (self : KeywordDetector)
    (string : str) (rs : rule_set) (item : Pattern * nat) :
  allowlisted U string = false -> excluded U self string = false ->
  well_indexed rs = true -> item ∈ rs ->
  is_Some (search U item.1 string) ->
  exists value, value ∈ yielded (analyze_string U self string (Some rs)).
Proof.
  intros Hallow Hexcl Hwi Hin [m Hm].
  unfold analyze_string. rewrite Hallow, Hexcl. cbn [for_attempts].
  rewrite for_items_yields by done. rewrite yielded_foldr.
  unfold well_indexed in Hwi. rewrite forallb_forall in Hwi.
  apply list_elem_of_In in Hin as Hin'. specialize (Hwi item Hin').
  apply Nat.leb_le in Hwi.
  destruct (group_in_range m item.2) as [value Hv].
  { by rewrite (search_re _ _ _ _ Hm). }
  exists value. apply elem_of_app. left.
  apply list_elem_of_omap. exists item. split; [done|].
  unfold candidate_of. by rewrite Hm, Hv.
Qed.

(** Every rule set of the module has an equals family, compiled with
    IGNORECASE; only the rule set of the C family has the one that asks
    for double quotes. *)
Lemma rule_sets_equals_family :
  Forall (fun rs =>
            match equals_family rs with
            | Some item =>
                bool_decide (item ∈ rs) && bool_decide (item.1 ∈ EQUALS_FAMILIES)
                && (bool_decide (rs = COMMON_C_DENYLIST_REGEX_TO_GROUP)
                    || negb (bool_decide
                         (item.1 = FOLLOWED_BY_EQUAL_SIGNS_OPTIONAL_BRACKETS_OPTIONAL_AT_SIGN_QUOTES_REQUIRED_REGEX)))
                && well_indexed rs && ignorecase item.1
            | None => false
            end = true) rule_sets.
Proof. repeat constructor; by vm_compute. Qed.

(** Whatever the file type: a line that holds, anywhere, a plain keyword
    of the denylist in any case of its letters, an equals sign with or
    without white space around it and a secret text between two equal
    quote characters yields a candidate, unless the allowlist or the
    exclusion pattern suppresses the line.  The rule set of the C family
    knows the double quote only. *)
Theorem quoted_assignment_found (self : KeywordDetector)
    (pre kw sp1 sp2 : str) (q : char) (v post : str)
    (rs : option rule_set) :
  default QUOTES_REQUIRED_DENYLIST_REGEX_TO_GROUP rs ∈ rule_sets ->
  str_lower L kw ∈ PLAIN_KEYWORDS ->
  white sp1 = true -> white sp2 = true ->
  q ∈ QUOTES ->
  (q = DQ
   \/ default QUOTES_REQUIRED_DENYLIST_REGEX_TO_GROUP rs
      <> COMMON_C_DENYLIST_REGEX_TO_GROUP) ->
  is_secret_text v = true ->
  latin1 (assignment pre kw sp1 sp2 q v post) = true ->
  allowlisted L (assignment pre kw sp1 sp2 q v post) = false ->
  excluded L self (assignment pre kw sp1 sp2 q v post) = false ->
  exists c,
    Some c ∈ yielded (analyze_string L self (assignment pre kw sp1 sp2 q v post) rs).
Proof.
  intros Hrs Hkw Hsp1 Hsp2 Hq Hdq Hv _ Hallow Hexcl.
  set (line := assignment pre kw sp1 sp2 q v post) in *.
  set (rs' := default QUOTES_REQUIRED_DENYLIST_REGEX_TO_GROUP rs) in *.
  assert (analyze_string L self line rs = analyze_string L self line (Some rs'))
    as -> by by destruct rs.
  pose proof rule_sets_equals_family as Hall.
  rewrite Forall_forall in Hall. specialize (Hall rs' Hrs).
  destruct (equals_family rs') as [item|]; [|done].
  apply andb_true_iff in Hall as [[[[Hin%bool_decide_eq_true
    Hfam%bool_decide_eq_true]%andb_true_iff Hc]%andb_true_iff Hwi]%andb_true_iff Hi].
  assert (is_Some (search L item.1 line)) as Hm.
  { assert (is_Some (search L item.1
                       (assignment pre (str_lower L kw) sp1 sp2 q v post))) as Hlow.
    { apply assignment_matches; try done.
      destruct Hdq as [?|Hne]; [by left|]. right.
      apply orb_true_iff in Hc as [Hc%bool_decide_eq_true|Hc]; [done|].
      by apply negb_true_iff, bool_decide_eq_false in Hc. }
    rewrite (variant_search L item.1 _ line Hi
               (latin1_same_lower _ _ (assignment_lower pre kw sp1 sp2 q v post))).
    by apply fmap_is_Some. }
  destruct (matching_family_yields L self _ rs' item Hallow Hexcl Hwi Hin Hm)
    as [value Hvalue].
  destruct (candidates_have_secret_shape L self _ (Some rs') value Hrs Hvalue)
    as (c & _ & -> & _).
  eauto.
Qed.

Lemma quoted_assignment_found_witness :
  exists c, Some c ∈ yielded (analyze_string L plain line_padded
                               (Some GOLANG_DENYLIST_REGEX_TO_GROUP)).
Proof.
  apply (quoted_assignment_found plain (u "let my_") (u "Token") [] (u " ")
           (ch "'") (u "s3cr3t!") (u "; // rotate")
           (Some GOLANG_DENYLIST_REGEX_TO_GROUP)).
  - vm_compute. right. left.
  - vm_compute. do 2 right. left.
  - vm_compute. reflexivity.
  - vm_compute. reflexivity.
  - vm_compute. left.
  - right. by vm_compute.
  - vm_compute. reflexivity.
  - vm_compute. reflexivity.
  - vm_compute. reflexivity.
  - vm_compute. reflexivity.
Defined.

(** *** A value without quotes is found where quotes are optional *)
Section Bare.
Context (pre kw sp1 sp2 v post : str).
Hypothesis Hkw : kw ∈ PLAIN_KEYWORDS.
Hypothesis Hsp1 : white sp1 = true.
Hypothesis Hsp2 : white sp2 = true.
Hypothesis Hv : is_secret_text v = true.

Local Abbreviation line := (bare_assignment pre kw sp1 sp2 v post).
Local Abbreviation front := ((((pre ++ kw) ++ sp1) ++ [ch "="]) ++ sp2).

Lemma bare_assignment_matches :
  is_Some (search L FOLLOWED_BY_EQUAL_SIGNS_REGEX line).
Proof.
  assert (exists j mk',
            path L true line (code FOLLOWED_BY_EQUAL_SIGNS_REGEX)
              (length pre) [] j mk') as (j & mk' & Hpath).
  { rewrite (proj1 (proj2 equals_families_shape)).
    apply (equals_shape_path line pre kw sp1 sp2 _ eq_refl Hkw Hsp1 Hsp2).
    intros mk. eexists _, _.
    apply (bare_secret_path true line _ 4 5 (Some 6) front v post mk);
      [by apply value_place | lia | | exact Hv].
    intros mk0. eapply path_seq; [apply path_skip | apply path_empty]. }
  apply (search_complete L _ line (length pre) j mk'); [|done].
  apply (start_place line pre kw sp1 sp2 _ eq_refl).
Qed.
End Bare.

Lemma bare_assignment_lower (pre kw sp1 sp2 v post : str) :
  str_lower L (bare_assignment pre (str_lower L kw) sp1 sp2 v post)
  = str_lower L (bare_assignment pre kw sp1 sp2 v post).
Proof.
  unfold bare_assignment. simpl. rewrite !map_app. do 2 f_equal.
  rewrite map_map. apply map_ext. intros x. apply latin1_lower_idem.
Qed.

Lemma unquoted_rule_sets_spec :
  Forall (fun rs => bool_decide ((FOLLOWED_BY_EQUAL_SIGNS_REGEX, 5) ∈ rs)
                    && well_indexed rs && bool_decide (rs ∈ rule_sets) = true)
    unquoted_rule_sets.
Proof. repeat constructor; by vm_compute. Qed.

(** With the rule sets of the configuration formats, of Go and of
    Terraform: a line that holds a plain keyword in any case of its
    letters, an equals sign with or without white space around it and a
    secret text without quotes yields a candidate, unless the allowlist or
    the exclusion pattern suppresses the line. *)
Theorem unquoted_assignment_found (self : KeywordDetector)
    (pre kw sp1 sp2 v post : str) (rs : rule_set) :
  rs ∈ unquoted_rule_sets ->
  str_lower L kw ∈ PLAIN_KEYWORDS ->
  white sp1 = true -> white sp2 = true ->
  is_secret_text v = true ->
  latin1 (bare_assignment pre kw sp1 sp2 v post) = true ->
  allowlisted L (bare_assignment pre kw sp1 sp2 v post) = false ->
  excluded L self (bare_assignment pre kw sp1 sp2 v post) = false ->
  exists c,
    Some c ∈ yielded (analyze_string L self
                        (bare_assignment pre kw sp1 sp2 v post) (Some rs)).
Proof.
  intros Hrs Hkw Hsp1 Hsp2 Hv _ Hallow Hexcl.
  set (line := bare_assignment pre kw sp1 sp2 v post) in *.
  pose proof unquoted_rule_sets_spec as Hall.
  rewrite Forall_forall in Hall. specialize (Hall rs Hrs).
  apply andb_true_iff in Hall as [[Hin%bool_decide_eq_true Hwi]%andb_true_iff
                                   Hmod%bool_decide_eq_true].
  assert (is_Some (search L FOLLOWED_BY_EQUAL_SIGNS_REGEX line)) as Hm.
  { rewrite (variant_search L FOLLOWED_BY_EQUAL_SIGNS_REGEX _ line eq_refl
               (latin1_same_lower _ _ (bare_assignment_lower pre kw sp1 sp2 v post))).
    by apply fmap_is_Some, bare_assignment_matches. }
  destruct (matching_family_yields L self _ rs _ Hallow Hexcl Hwi Hin Hm)
    as [value Hvalue].
  destruct (candidates_have_secret_shape L self _ (Some rs) value Hmod Hvalue)
    as (c & _ & -> & _).
  eauto.
Qed.

Lemma unquoted_assignment_found_witness :
  exists c, Some c ∈ yielded (analyze_string L plain line_yaml
                               (Some CONFIG_DENYLIST_REGEX_TO_GROUP)).
Proof.
  apply (unquoted_assignment_found plain (u "  db_") (u "PASSWORD") [] []
           (u "hunter2") (u " # prod") CONFIG_DENYLIST_REGEX_TO_GROUP).
  - vm_compute. left.
  - vm_compute. left.
  - vm_compute. reflexivity.
  - vm_compute. reflexivity.
  - vm_compute. reflexivity.
  - vm_compute. reflexivity.
  - vm_compute. reflexivity.
  - vm_compute. reflexivity.
Defined.

(** ** Lines with one quoted text, lines with none *)
Lemma quote_free_lookup (s : str) (p : nat) (x : char) :
  quote_free s = true -> s !! p = Some x -> x ∉ QUOTES.
Proof.
  intros Hs Hp. unfold quote_free in Hs. rewrite forallb_forall in Hs.
  apply list_elem_of_lookup_2, list_elem_of_In, Hs in Hp.
  by apply negb_true_iff, bool_decide_eq_false in Hp.
Qed.

(** The places of a line with one quoted text at which a quote stands. *)
Lemma lone_quotes (front v back : str) (q q' x : char) (p : nat) :
  quote_free front = true -> quote_free v = true -> quote_free back = true ->
  (front ++ [q] ++ v ++ [q'] ++ back) !! p = Some x -> x ∈ QUOTES ->
  p = length front \/ p = S (length front + length v).
Proof.
  intros Hf Hv Hb Hp Hx.
  destruct (decide (p < length front)) as [Hlt|Hge].
  { rewrite lookup_app_l in Hp by done.
    by destruct (quote_free_lookup _ _ _ Hf Hp). }
  rewrite lookup_app_r in Hp by lia.
  destruct (p - length front) as [|p1] eqn:H1; [left; lia|].
  simpl in Hp.
  destruct (decide (p1 < length v)) as [Hlt|Hge1].
  { rewrite lookup_app_l in Hp by done.
    by destruct (quote_free_lookup _ _ _ Hv Hp). }
  rewrite lookup_app_r in Hp by lia.
  destruct (p1 - length v) as [|p2] eqn:H2; [right; lia|].
  simpl in Hp. by destruct (quote_free_lookup _ _ _ Hb Hp).
Qed.





(** ** The families compiled without IGNORECASE *)
(** The right-to-left comparison family and the constructor family are
    compiled without IGNORECASE: they need a stem as the pattern spells
    it. *)
Lemma case_sensitive_families_need_keyword :
  Forall (fun p => needs KEYWORD_STEMS (code p) && negb (ignorecase p) = true)
    CASE_SENSITIVE_FAMILIES.
Proof.
  apply Forall_forall. intros p Hin%list_elem_of_In. revert p Hin.
  apply forallb_forall. by vm_compute.
Qed.

(** Neither of the two families matches a line that spells no keyword
    stem in lower case, whatever else the line holds: a keyword in upper
    case is not seen by them. *)
Theorem case_sensitive_families_want_lower_case (string : str) (p : Pattern)
    (n : nat) :
  p ∈ CASE_SENSITIVE_FAMILIES ->
  spells_keyword string = false ->
  family_matches L string (p, n) = false.
Proof.
  intros Hp Hno. apply bool_decide_eq_false. intros [m Hm]. simpl in Hm.
  pose proof case_sensitive_families_need_keyword as Hall.
  rewrite Forall_forall in Hall. specialize (Hall p Hp).
  apply andb_true_iff in Hall as [Hneeds Hflag%negb_true_iff].
  apply search_sound in Hm as (_ & _ & Hrun). rewrite Hflag in Hrun.
  destruct (needs_run L _ string _ _ _ _ _ _ Hneeds Hrun) as (stem & a & Hstem & Hat).
  apply not_true_iff_false in Hno. apply Hno.
  unfold spells_keyword. apply existsb_exists. exists stem.
  split; [by apply list_elem_of_In|].
  apply contains_spec.
  destruct (startswith_at stem string a) as [rest Hrest].
  { intros k c Hk. destruct (Hat k c Hk) as (x & Hx & Hc).
    unfold char_eq in Hc. apply N.eqb_eq in Hc. by subst. }
  exists (take a string), rest. by rewrite <- Hrest, take_drop.
Qed.

Lemma case_sensitive_families_want_lower_case_witness :
  family_matches L line_reversed_upper
    (PRECEDED_BY_EQUAL_COMPARISON_SIGNS_QUOTES_REQUIRED_REGEX, 2) = false
  /\ family_matches L line_constructor_upper
       (FOLLOWED_BY_OPTIONAL_ASSIGN_QUOTES_REQUIRED_REGEX, 4) = false.
Proof.
  split; apply case_sensitive_families_want_lower_case.
  - vm_compute. right. left.
  - vm_compute. reflexivity.
  - vm_compute. left.
  - vm_compute. reflexivity.
Defined.
